(** * PHPTest integration tools: forced-async opcode hook, stack normaliser,
    runtime bootstrapping, transpilation.

  Shallow embedding of [src/createIntegrationTools.js].  The collaborators
  the file consumes (PHPCore's future, value and reference factories, the
  source-map consumer, the runtime factory) are not part of the file; they
  are modelled here on the contract the specification gives for them and
  are marked as such. *)

From stdpp Require Import gmap strings list.
From stdpp Require Import pretty.
From Stdlib Require Import Ascii ZArith Lia.

(** ** The single-threaded scheduler that deferred values live in *)

(** Modelled from the spec: the futures of PHPCore and the scheduler of the
    host, neither of which is part of this repository.  Section 5 of the
    specification gives the model: one thread, continuations deferred onto a
    later tick, in the order in which they were enqueued.  The deferrals of
    this file all go to the one queue of microtasks; the queue of macrotasks
    holds what else the host has to do (timers), taken up when no microtask
    is left.  Every job runs in a tick of its own, and a future records the
    tick in which it was settled. *)

Module Loop.
Section Loop.

(** [Val]: values carried by futures; [Err]: rejection reasons;
    [St]: the PHP-level store that references read and write. *)
Context {Val Err St : Type}.

Definition handle := nat.

Inductive Outcome :=
| Fulfilled (v : Val)
| Rejected (e : Err).

(** What [resolve(...)] accepts and what reference operations answer with:
    a present value or a future. *)
Inductive Chainable :=
| CValue (v : Val)
| CFuture (h : handle).

(** A future is pending (remembering who waits for it) or settled, stamped
    with the tick in which it was settled. *)
Inductive FutureState :=
| Pending (waiters : list handle)
| Settled (o : Outcome) (at_tick : nat).

(** Queued continuations.  [JNext t f]: run [f] against the store and make
    [t] follow what it answers ([f(...).next(resolve, reject)]).
    [JSettle t o]: the environment completes [t]. *)
Inductive Job :=
| JNext (target : handle) (f : St -> Chainable * St)
| JSettle (target : handle) (o : Outcome).

Record World := mkWorld {
  tick : nat;
  futures : list FutureState;
  microtasks : list Job;
  macrotasks : list Job;
  store : St
}.

Definition M (A : Type) : Type := World -> A * World.

Definition ret {A} (a : A) : M A := fun w => (a, w).

Definition bind {A B} (c : M A) (k : A -> M B) : M B :=
  fun w => let (a, w') := c w in k a w'.

Definition set_futures (fs : list FutureState) (w : World) : World :=
  mkWorld (tick w) fs (microtasks w) (macrotasks w) (store w).

Definition set_store (s : St) (w : World) : World :=
  mkWorld (tick w) (futures w) (microtasks w) (macrotasks w) s.

(** Lifting of an operation on the store to the world. *)
Definition on_store {A} (f : St -> A * St) : M A :=
  fun w => let (a, s) := f (store w) in (a, set_store s w).

Definition on_store_ (f : St -> St) : M unit :=
  fun w => (tt, set_store (f (store w)) w).

(** Settling [todo] and, transitively, everything waiting on it. *)
Fixpoint settle_all (fuel : nat) (o : Outcome) (now : nat)
         (todo : list handle) (fs : list FutureState) : list FutureState :=
  match fuel, todo with
  | S fuel', h :: rest =>
      match fs !! h with
      | Some (Pending ws) =>
          settle_all fuel' o now (rest ++ ws) (<[h := Settled o now]> fs)
      | _ => settle_all fuel' o now rest fs
      end
  | _, _ => fs
  end.

Definition waiters_of (c : FutureState) : list handle :=
  match c with Pending ws => ws | Settled _ _ => [] end.

Definition settle_fuel (fs : list FutureState) : nat :=
  S (length fs + length (concat (map waiters_of fs))).

Definition settle (t : handle) (o : Outcome) (w : World) : World :=
  set_futures (settle_all (settle_fuel (futures w)) o (tick w) [t] (futures w)) w.

(** [c.next(resolve, reject)] for the future [t]: a present value or a
    settled future settles [t] at once, a pending one registers [t]. *)
Definition chain (t : handle) (c : Chainable) (w : World) : World :=
  match c with
  | CValue v => settle t (Fulfilled v) w
  | CFuture s =>
      match futures w !! s with
      | Some (Settled o _) => settle t o w
      | Some (Pending ws) => set_futures (<[s := Pending (ws ++ [t])]> (futures w)) w
      | None => w
      end
  end.

Definition run_job (j : Job) (w : World) : World :=
  match j with
  | JNext t f => let (c, s) := f (store w) in chain t c (set_store s w)
  | JSettle t o => settle t o w
  end.

(** One turn of the loop: the next microtask if there is one, else the
    next macrotask, each in a tick of its own. *)
Definition turn (w : World) : World :=
  match microtasks w with
  | j :: q =>
      run_job j (mkWorld (S (tick w)) (futures w) q (macrotasks w) (store w))
  | [] =>
      match macrotasks w with
      | j :: q =>
          run_job j (mkWorld (S (tick w)) (futures w) (microtasks w) q (store w))
      | [] => w
      end
  end.

Fixpoint run (n : nat) (w : World) : World :=
  match n with
  | 0 => w
  | S n' => run n' (turn w)
  end.

(** Allocation of a pending future. *)
Definition createFuture : M handle :=
  fun w => (length (futures w), set_futures (futures w ++ [Pending []]) w).

Definition queueMicrotask (j : Job) : M unit :=
  fun w => (tt, mkWorld (tick w) (futures w) (microtasks w ++ [j]) (macrotasks w) (store w)).

Definition isSettled (h : handle) : M bool :=
  fun w => (match futures w !! h with Some (Settled _ _) => true | _ => false end, w).

Definition job_target (j : Job) : handle :=
  match j with
  | JNext t _ => t
  | JSettle t _ => t
  end.

(** Every handle a queued job or a waiting list names is allocated. *)
Definition well_formed (w : World) : Prop :=
  Forall (fun j => job_target j < length (futures w)) (microtasks w ++ macrotasks w) /\
  Forall (fun c => Forall (fun t => t < length (futures w)) (waiters_of c)) (futures w).

Definition no_waiter (h : handle) (fs : list FutureState) : Prop :=
  Forall (fun c => h ∉ waiters_of c) fs.

Definition is_pending (w : World) (h : handle) : Prop :=
  exists ws, futures w !! h = Some (Pending ws).

(** Whenever [h] is found settled in [w], that happened in a tick after [t0]. *)
Definition only_later (t0 : nat) (h : handle) (w : World) : Prop :=
  forall o t, futures w !! h = Some (Settled o t) -> t0 < t.

(** [h] was created between [before] and [after], is unsettled in [after],
    and however long the loop runs from [after], it is settled only in a
    tick later than the one of [after]. *)
Definition deferred (before after : World) (h : handle) : Prop :=
  futures before !! h = None /\
  futures after !! h = Some (Pending []) /\
  forall n, only_later (tick after) h (run n after).

(** The call [c], made in [w], answers with a future deferred in this sense. *)
Definition answers_deferred (c : M handle) (w : World) : Prop :=
  deferred w (snd (c w)) (fst (c w)).

(** The jobs still to run, in the order the loop takes them. *)
Definition agenda (w : World) : list Job := microtasks w ++ macrotasks w.

(** [c] is complete in [w], with outcome [o]: a present value, or a future
    that is settled. *)
Definition outcome_in (w : World) (c : Chainable) (o : Outcome) : Prop :=
  match c with
  | CValue v => o = Fulfilled v
  | CFuture s => exists ts, futures w !! s = Some (Settled o ts)
  end.

(** The future [h] is pending in [w] and for the next [n - 1] turns, and
    from turn [n >= 1] on it is settled with [o], stamped with that turn. *)
Definition settles_in (n : nat) (w : World) (h : handle) (o : Outcome) : Prop :=
  0 < n /\
  (forall m, m < n -> is_pending (run m w) h) /\
  (forall m, n <= m -> futures (run m w) !! h = Some (Settled o (tick w + n))).

(** The call [c], made in [w], answers with a future that the loop settles
    with [o] in some later turn. *)
Definition delivers (c : M handle) (w : World) (o : Outcome) : Prop :=
  exists n, settles_in n (snd (c w)) (fst (c w)) o.

End Loop.
End Loop.

Notation "x <- c ;; k" := (Loop.bind c (fun x => k))
(at level 100, c at next level, right associativity).

(** ** The forced-async opcode executor ([installForcedAsyncOpcodeHook]) *)

Module Interceptor.
Section Interceptor.

(** [Slot]: what [getReference] answers with; [Other]: results of an opcode
    that are no future, value, reference or variable. *)
Context {Val Err St Slot Other : Type}.

#[local] Abbreviation World := (@Loop.World Val Err St).
#[local] Abbreviation M := (@Loop.M Val Err St).
#[local] Abbreviation Chainable := (@Loop.Chainable Val).
#[local] Abbreviation handle := Loop.handle.

(** A PHPCore reference or variable, as the object of its operations on the
    store.  The operations that PHPCore lets complete asynchronously answer
    with a [Chainable]; the checks answer with a boolean; setting and
    clearing the reference are commands (the callbacks the source wraps them
    in return nothing).  The operations are taken on their normal return. *)
Record ReferenceLike := {
  getValue : St -> Chainable * St;
  setValue : Val -> St -> Chainable * St;
  unset : St -> Chainable * St;
  getReference : St -> Slot * St;
  setReference : Slot -> St -> St;
  clearReference : St -> St;
  isDefined : St -> bool * St;
  isReadable : St -> bool * St;
  isEmpty : St -> Chainable * St;
  isSet : St -> Chainable * St;
  isReference : St -> bool * St;
  raiseUndefined : St -> Chainable * St
}.

(** The shapes [opcode.handle()] answers with, told apart in the source by
    [controlBridge.isFuture] and [instanceof Value / Reference / Variable]. *)
Inductive RawResult :=
| RFuture (h : handle)
| RValue (v : Val)
| RReference (r : ReferenceLike)
| RVariable (r : ReferenceLike)
| ROther (o : Other).

Record Opcode := {
  handle_ : M RawResult;
  isTraced : bool
}.

(** Modelled from the spec: [futureFactory.createAsyncPresent] of PHPCore,
    which is not part of this repository.  It answers with a freshly created
    future and leaves its resolution with the given result to a microtask,
    queued behind the ones already waiting. *)
Definition futureFactory_createAsyncPresent (c : Chainable) : M handle :=
  h <- Loop.createFuture ;;
  _ <- Loop.queueMicrotask (Loop.JNext h (fun s => (c, s))) ;;
  Loop.ret h.

(** Modelled from the spec: [valueFactory.createAsyncPresent] of PHPCore,
    the same deferral for a value. *)
Definition valueFactory_createAsyncPresent (c : Chainable) : M handle :=
  futureFactory_createAsyncPresent c.

(** Modelled from the spec: [valueFactory.createAsyncMicrotaskFuture] of
    PHPCore: a fresh future whose executor runs in a microtask.  The
    executors of this file all have the form [f(...).next(resolve, reject)]. *)
Definition valueFactory_createAsyncMicrotaskFuture
           (executor : St -> Chainable * St) : M handle :=
  h <- Loop.createFuture ;;
  _ <- Loop.queueMicrotask (Loop.JNext h executor) ;;
  Loop.ret h.

(** Modelled from the spec: the reference [referenceFactory.createAccessor]
    builds from its twelve callbacks, in the order of the call.  Each
    capability of the accessor invokes the callback of its position. *)
Record AccessorReference := createAccessor {
  valueGetter : M handle;
  valueSetter : Val -> M handle;
  unsetter : M handle;
  referenceGetter : M Slot;
  referenceSetter : Slot -> M unit;
  referenceClearer : M unit;
  definednessGetter : M bool;
  readablenessGetter : M bool;
  emptinessGetter : M handle;
  setnessGetter : M handle;
  referencenessGetter : M bool;
  undefinednessRaiser : M handle
}.

(** What the decorated executor answers with: the raw result itself, a
    future of its own, or the accessor built around a reference. *)
Inductive Result :=
| Raw (r : RawResult)
| Accessor (a : AccessorReference).

(** Lines 175-203: the accessor around [result]. *)
Definition accessorFor (result : ReferenceLike) : AccessorReference :=
  createAccessor
    (* Defer returning the value of the reference. *)
    (c <- Loop.on_store (getValue result) ;;
     valueFactory_createAsyncPresent c)
    (* Defer assignment in a microtask to test for async handling. *)
    (fun value =>
       valueFactory_createAsyncMicrotaskFuture (setValue result value))
    (c <- Loop.on_store (unset result) ;;
     futureFactory_createAsyncPresent c)
    (Loop.on_store (getReference result))
    (fun reference => Loop.on_store_ (setReference result reference))
    (Loop.on_store_ (clearReference result))
    (Loop.on_store (isDefined result))
    (Loop.on_store (isReadable result))
    (c <- Loop.on_store (isEmpty result) ;;
     futureFactory_createAsyncPresent c)
    (c <- Loop.on_store (isSet result) ;;
     futureFactory_createAsyncPresent c)
    (Loop.on_store (isReference result))
    (c <- Loop.on_store (raiseUndefined result) ;;
     futureFactory_createAsyncPresent c).

(** [AsyncOpcodeExecutor.prototype.execute], lines 156-207. *)
Definition execute (opcode : Opcode) : M Result :=
  result <- handle_ opcode ;;
  if negb (isTraced opcode) then
    (* Don't attempt to make any untraced opcodes pause. *)
    Loop.ret (Raw result)
  else
    match result with
    | RFuture h =>
        settled <- Loop.isSettled h ;;
        if settled then
          (* Wrap settled Futures in a deferring one to force a pause. *)
          h' <- futureFactory_createAsyncPresent (Loop.CFuture h) ;;
          Loop.ret (Raw (RFuture h'))
        else Loop.ret (Raw result)
    | RValue v =>
        h' <- valueFactory_createAsyncPresent (Loop.CValue v) ;;
        Loop.ret (Raw (RFuture h'))
    | RReference r | RVariable r =>
        Loop.ret (Accessor (accessorFor r))
    | ROther _ => Loop.ret (Raw result)
    end.

(** The capabilities of the raw reference, called directly. *)
Definition raw_getReference (r : ReferenceLike) : M Slot :=
  Loop.on_store (getReference r).
Definition raw_setReference (r : ReferenceLike) (s : Slot) : M unit :=
  Loop.on_store_ (setReference r s).
Definition raw_clearReference (r : ReferenceLike) : M unit :=
  Loop.on_store_ (clearReference r).
Definition raw_isReference (r : ReferenceLike) : M bool :=
  Loop.on_store (isReference r).
Definition raw_isDefined (r : ReferenceLike) : M bool :=
  Loop.on_store (isDefined r).
Definition raw_isReadable (r : ReferenceLike) : M bool :=
  Loop.on_store (isReadable r).

(** The world a deferring factory leaves behind. *)
Definition with_future (w : World) (micro macro : list (@Loop.Job Val Err St)) : World :=
  Loop.mkWorld (Loop.tick w) (Loop.futures w ++ [Loop.Pending []])
    (Loop.microtasks w ++ micro) (Loop.macrotasks w ++ macro) (Loop.store w).

End Interceptor.
End Interceptor.

(** ** Regular expressions, as [String.prototype.replace] runs them *)

(** The patterns of the source use literals, character classes, greedy and
    lazy repetition, alternation, capturing groups and [^] under the m flag.
    The matcher below is the backtracking matcher of the language: it lists
    the ways a pattern matches in the order they are tried, so that the
    first one is the match. *)

Module Regex.

(** A character of a text is a UTF-16 code unit, given by its number.  The
    8-bit characters written in the patterns and in the sample texts stand
    for the code units of their numbers. *)
Abbreviation char := N.

Coercion N_of_ascii : ascii >-> N.

(** The code units of a text of 8-bit characters. *)
Definition codes (s : string) : list char :=
  map N_of_ascii (String.list_ascii_of_string s).

(** Matcher state: whether the current position starts a line (the start of
    the text or the place after a line terminator, which is where [^] holds
    under the m flag), the text still to read, and the captures so far. *)
Record MState := mkState {
  bol : bool;
  rest : list char;
  caps : gmap nat (list char)
}.

Inductive Re :=
| Eps
| Cls (p : char -> bool)
| Seq (r1 r2 : Re)
| Alt (r1 r2 : Re)
| Star (greedy : bool) (r : Re)
| Plus (greedy : bool) (r : Re)
| Group (n : nat) (r : Re)
| Bol.

(** The line terminators of the language: line feed, carriage return, and
    the line and paragraph separators U+2028 and U+2029.  They are what [.]
    does not take and what [^] follows under the m flag. *)
Definition is_line_terminator (c : char) : bool :=
  (N.eqb c 10 || N.eqb c 13 || N.eqb c 8232 || N.eqb c 8233)%N.

Definition is_digit (c : char) : bool :=
  ((48 <=? c) && (c <=? 57))%N.

Definition dot : Re := Cls (fun c => negb (is_line_terminator c)).
Definition digit : Re := Cls is_digit.
Definition chr (c : char) : Re := Cls (N.eqb c).
Arguments chr c%_char.
Definition none_of (l : list char) : Re :=
  Cls (fun c => negb (existsb (N.eqb c) l)).
Definition one_of (l : list char) : Re :=
  Cls (fun c => existsb (N.eqb c) l).
Definition opt (r : Re) : Re := Alt r Eps.

Fixpoint lit (s : list char) : Re :=
  match s with
  | [] => Eps
  | c :: s' => Seq (chr c) (lit s')
  end.

Definition str (s : string) : Re := lit (codes s).

(** The groups inside a repeated pattern; each round starts with them
    cleared. *)
Fixpoint groups_of (r : Re) : list nat :=
  match r with
  | Eps | Cls _ | Bol => []
  | Seq r1 r2 | Alt r1 r2 => groups_of r1 ++ groups_of r2
  | Star _ r1 | Plus _ r1 => groups_of r1
  | Group n r1 => n :: groups_of r1
  end.

Definition reset (gs : list nat) (x : MState) : MState :=
  mkState (bol x) (rest x) (foldr delete (caps x) gs).

(** Repetition: every further round has to consume; the rounds a greedy
    quantifier can still take are tried before stopping, a lazy one stops
    first.  [fuel] is the length of the text still to read, which the rounds
    cannot outrun. *)
Fixpoint iter (body : MState -> list MState) (greedy : bool) (fuel : nat)
         (x : MState) : list MState :=
  match fuel with
  | 0 => [x]
  | S f =>
      let more :=
        flat_map (fun y => if length (rest y) <? length (rest x)
                           then iter body greedy f y else [])
                 (body x) in
      if greedy then more ++ [x] else x :: more
  end.

(** All the ways [r] matches at [x], in the order a backtracking matcher
    tries them. *)
Fixpoint m (r : Re) (x : MState) : list MState :=
  match r with
  | Eps => [x]
  | Cls p =>
      match rest x with
      | c :: s => if p c then [mkState (is_line_terminator c) s (caps x)] else []
      | [] => []
      end
  | Seq r1 r2 => flat_map (m r2) (m r1 x)
  | Alt r1 r2 => m r1 x ++ m r2 x
  | Star g r1 =>
      iter (fun y => m r1 (reset (groups_of r1) y)) g (length (rest x)) x
  | Plus g r1 =>
      flat_map (fun y => iter (fun z => m r1 (reset (groups_of r1) z)) g
                              (length (rest y)) y)
               (m r1 (reset (groups_of r1) x))
  | Group n r1 =>
      map (fun y => mkState (bol y) (rest y)
                      (<[n := take (length (rest x) - length (rest y)) (rest x)]> (caps y)))
          (m r1 x)
  | Bol => if bol x then [x] else []
  end.

(** One attempt at a position: the first way the pattern matches there. *)
Record Hit := mkHit {
  matched : list char;
  groups : gmap nat (list char)
}.

Definition exec (r : Re) (b : bool) (s : list char) : option Hit :=
  match m r (mkState b s ∅) with
  | y :: _ => Some (mkHit (take (length s - length (rest y)) s) (caps y))
  | [] => None
  end.

Inductive Piece :=
| Gap (c : char)
| Found (h : Hit).

(** The scan of a global pattern over the text: [skip] characters are still
    inside the previous match; [b] tells whether the position starts a line. *)
Fixpoint pieces (r : Re) (skip : nat) (b : bool) (s : list char)
  : list Piece :=
  match skip with
  | S k =>
      match s with
      | [] => []
      | c :: s' => pieces r k (is_line_terminator c) s'
      end
  | 0 =>
      match exec r b s with
      | Some h =>
          Found h ::
          match s with
          | [] => []
          | c :: s' =>
              match length (matched h) with
              | 0 => Gap c :: pieces r 0 (is_line_terminator c) s'
              | S k => pieces r k (is_line_terminator c) s'
              end
          end
      | None =>
          match s with
          | [] => []
          | c :: s' => Gap c :: pieces r 0 (is_line_terminator c) s'
          end
      end
  end.

(** A replacement text: literal text and [$n]. *)
Inductive TplItem :=
| TLit (s : string)
| TGroup (n : nat).

(** A group that took no part in the match is replaced by nothing. *)

Definition expand (tpl : list TplItem) (h : Hit) : list char :=
  concat (map (fun t => match t with
                        | TLit s => codes s
                        | TGroup n => default [] (groups h !! n)
                        end) tpl).

Definition render (tpl : list TplItem) (pc : Piece) : list char :=
  match pc with
  | Gap c => [c]
  | Found h => expand tpl h
  end.

(** The replacement from a position on. *)
Definition replaceAt (r : Re) (tpl : list TplItem) (b : bool) (s : list char)
  : list char :=
  flat_map (render tpl) (pieces r 0 b s).

(** [text.replace(/r/g, template)] *)
Definition replace (r : Re) (tpl : list TplItem) (s : list char) : list char :=
  replaceAt r tpl true s.

End Regex.

(** ** Stack text as lines *)

Module StackText.
Import Regex.

(** [after t s]: what follows [t] when [s] starts with [t]. *)
Fixpoint after (t s : list char) : option (list char) :=
  match t with
  | [] => Some s
  | a :: t' =>
      match s with
      | b :: s' => if N.eqb a b then after t' s' else None
      | [] => None
      end
  end.

(** [contains t s]: [t] occurs somewhere in [s]. *)
Fixpoint contains (t s : list char) : bool :=
  match after t s with
  | Some _ => true
  | None =>
      match s with
      | [] => false
      | _ :: s' => contains t s'
      end
  end.

(** A line is its text and the line breaks that follow it. *)
Definition Line : Type := list char * list char.

Definition unlines (ls : list Line) : list char :=
  flat_map (fun ln => fst ln ++ snd ln) ls.

Definition plain (l : list char) : Prop :=
  Forall (fun a => is_line_terminator a = false) l.

(** The characters the class [[\r\n]] of lines 308 and 313 takes. *)
Definition is_break (c : char) : bool :=
  existsb (N.eqb c) [13; 10]%N.

Definition breaks (bs : list char) : Prop :=
  Forall (fun a => is_break a = true) bs.

(** The way a text falls into lines that carriage returns and line feeds
    end: the text of a line holds no line terminator, what follows it holds
    carriage returns and line feeds only, only the last line may lack a line
    break, and only the first line (when [first]) may be empty, an empty
    line further down being part of the breaks before it.  A text that holds
    U+2028 or U+2029 does not fall into such lines. *)
Fixpoint lines_ok (first : bool) (ls : list Line) : Prop :=
  match ls with
  | [] => True
  | ln :: ls' =>
      plain (fst ln) /\ breaks (snd ln) /\
      (first = false -> fst ln <> []) /\
      (ls' <> [] -> snd ln <> []) /\
      lines_ok false ls'
  end.

(** The states a greedy repetition of one character class leaves, the
    longest first. *)
Fixpoint splits (b : bool) (l tail : list char) (c : gmap nat (list char))
  : list MState :=
  match l with
  | [] => [mkState b tail c]
  | a :: l' =>
      splits (is_line_terminator a) l' tail c ++ [mkState b (a :: l' ++ tail) c]
  end.

(** The text goes on with something the class [q] does not take. *)
Definition stops (q : char -> bool) (tail : list char) : Prop :=
  match tail with
  | [] => True
  | a :: _ => q a = false
  end.

Definition bol_after (b : bool) (t : list char) : bool :=
  match last t with
  | Some a => is_line_terminator a
  | None => b
  end.

(** The state with [T] appended to the text still to read. *)
Definition ext (T : list char) (y : MState) : MState :=
  mkState (bol y) (rest y ++ T) (caps y).

(** No character class of the pattern takes a line terminator. *)
Fixpoint line_local (r : Re) : Prop :=
  match r with
  | Cls q => forall c, is_line_terminator c = true -> q c = false
  | Seq r1 r2 | Alt r1 r2 => line_local r1 /\ line_local r2
  | Star _ r1 | Plus _ r1 | Group _ r1 => line_local r1
  | Eps | Bol => True
  end.

(** The fewest characters a match of the pattern takes. *)
Fixpoint min_len (r : Re) : nat :=
  match r with
  | Eps | Bol | Star _ _ => 0
  | Cls _ => 1
  | Seq r1 r2 => min_len r1 + min_len r2
  | Alt r1 r2 => min_len r1 `min` min_len r2
  | Plus _ r1 | Group _ r1 => min_len r1
  end.

Definition caps_all (Q : char -> Prop) (m : gmap nat (list char)) : Prop :=
  map_Forall (fun _ v => Forall Q v) m.

Definition state_all (Q : char -> Prop) (x : MState) : Prop :=
  Forall Q (rest x) /\ caps_all Q (caps x).

(** [y] lies further on in the text of [x], and whatever holds of all the
    characters [x] knows holds of all those [y] knows. *)
Definition leads (Q : char -> Prop) (x y : MState) : Prop :=
  rest y `suffix_of` rest x /\ (state_all Q x -> state_all Q y).

End StackText.

(** ** [normaliseStack] *)

Module Normaliser.
Import Regex.

(** Thrown values are all made by [new Error(message)]. *)
Inductive JsError := Error (message : string).

(** What a call does: it returns or it throws. *)
Inductive Completion (A : Type) :=
| Returned (a : A)
| Threw (e : JsError).
Arguments Returned {A} a.
Arguments Threw {A} e.

Inductive Promise (A : Type) :=
| Resolved (a : A)
| Rejected (e : JsError).
Arguments Resolved {A} a.
Arguments Rejected {A} e.

(** What [originalPositionFor] answers with; each field may be [null]. *)
Record Position := mkPosition {
  source : option string;
  line : option Z;
  column : option Z
}.

Record ModuleData {MapData : Type} := mkModuleData {
  sourceMapGenerator : MapData;
  path : option string
}.
Arguments ModuleData MapData : clear implicits.

(** Line 287, flag g: the frame of code evaluated by [transpile]; group 1
    and group 2 are the line and the column after [<anonymous>:]. *)
Definition evalFrame : Re :=
  Seq (str "(eval at transpile (")
 (Seq (Star true dot)
 (Seq (str "/phptest/src/createIntegrationTools.js:")
 (Seq (Plus true digit)
 (Seq (chr ":")
 (Seq (Plus true digit)
 (Seq (str "), <anonymous>:")
 (Seq (Group 1 (Plus true digit))
 (Seq (chr ":")
 (Seq (Group 2 (Plus true digit))
      (chr ")")))))))))).

(** Line 306, flags gm: [^] [( .* )] the escaped [mochaPath] [( .* : )]
    [\d+ : \d+] *)
Definition mochaFrame (mochaPath : string) : Re :=
  Seq Bol
 (Seq (Group 1 (Star true dot))
 (Seq (str mochaPath)
 (Seq (Group 2 (Seq (Star true dot) (chr ":")))
 (Seq (Plus true digit)
 (Seq (chr ":")
      (Plus true digit)))))).

Definition mochaFrameTemplate : list TplItem :=
  [TGroup 1; TLit "/path/to/mocha"; TGroup 2; TLit "??:??"].

Definition line_breaks : Re := Star true (one_of [13; 10]%N).

(** Lines 308 and 313, flags mg: one or more rounds of a line that holds
    the placeholder, [.* placeholder .*], and the line breaks after it,
    captured as group 1. *)
Definition frameRun (placeholder : string) : Re :=
  Plus true
    (Seq (Seq (Star true dot) (Seq (str placeholder) (Star true dot)))
         (Group 1 line_breaks)).

Definition mochaRun : Re := frameRun "/path/to/mocha".
Definition mochaRunTemplate : list TplItem :=
  [TLit "    at [Mocha internals]"; TGroup 1].

(** Line 311, flags gm: [^], then either group 1 (lazily one or more
    characters other than slash and opening parenthesis, then an opening
    parenthesis), group 2 (lazily one or more characters other than slash)
    and [.js]; or group 3 (lazily any characters of the line), an optional
    [node:], [internal/], group 4 (lazily any characters of the line) and an
    optional [.js]; then [: \d+ : \d+]. *)
Definition internalFrame : Re :=
  Seq Bol
 (Seq (Alt (Seq (Group 1 (Seq (Plus false (none_of (codes "/("))) (chr "(")))
           (Seq (Group 2 (Plus false (none_of (codes "/"))))
                (str ".js")))
           (Seq (Group 3 (Star false dot))
           (Seq (opt (str "node:"))
           (Seq (str "internal/")
           (Seq (Group 4 (Star false dot))
                (opt (str ".js")))))))
 (Seq (chr ":")
 (Seq (Plus true digit)
 (Seq (chr ":")
      (Plus true digit))))).

Definition internalFrameTemplate : list TplItem :=
  [TGroup 1; TGroup 3; TLit "/path/to/internal/"; TGroup 2; TGroup 4; TLit ":??:??"].

Definition internalRun : Re := frameRun "/path/to/internal".
Definition internalRunTemplate : list TplItem :=
  [TLit "    at [Node.js internals]"; TGroup 1].

Definition phpCoreTemplate : list TplItem := [TLit "/path/to/phpcore"].

(** A run of decimal digits as the number it converts to.  Exact, where a
    JavaScript number is exact only below 2^53. *)
Definition number_of_digits (ds : list char) : Z :=
  fold_left (fun acc d => 10 * acc + (Z.of_N d - 48))%Z ds 0%Z.

(** ['' + x] for [null] and for a number *)
Definition show_source (s : option string) : list char :=
  codes (default "null" s).
Definition show_number (n : option Z) : list char :=
  codes (from_option pretty "null" n).

Definition configErrorMessage : string :=
  "Test harness error: module data map does not contain data for this module - did you forget to set options.sourceMap?".
Definition mappingErrorMessage : string :=
  "Stack line in evaluated PHP code could not be mapped back to PHP source".

Section Normaliser.

Context {MapData : Type}.

(** [new SourceMapConsumer(data)] followed by [.originalPositionFor({line, column})]:
    the source-map library, taken as given. *)
Variable originalPositionFor : MapData -> Z -> Z -> Position.

(** [path.dirname(require.resolve('mocha/package.json'))],
    [path.resolve(phpCorePath)] and the line offset measured at line 226. *)
Variable mochaPath : string.
Variable resolvedPHPCorePath : string.
Variable errorStackLineOffset : Z.

(** The [WeakMap] from modules (by identity) to their source-map data. *)
Variable moduleDataMap : gmap nat (ModuleData MapData).

(** Lines 289-294: the position the source map gives for a matched frame. *)
Definition mappedPositionOf (moduleData : ModuleData MapData) (h : Hit)
  : Position :=
  let line_ := default [] (groups h !! 1) in
  let column_ := default [] (groups h !! 2) in
  originalPositionFor (sourceMapGenerator moduleData)
                      (number_of_digits line_ - errorStackLineOffset)
                      (number_of_digits column_ * 1).

(** Lines 288-302: the replacer of a transpiled frame. *)
Definition mapFrame (moduleData : ModuleData MapData) (h : Hit)
  : Completion (list char) :=
  let mappedPosition := mappedPositionOf moduleData h in
  match line mappedPosition, column mappedPosition with
  | None, None => Threw (Error mappingErrorMessage)
  | _, _ =>
      Returned (N_of_ascii "(" :: show_source (source mappedPosition) ++
                N_of_ascii ":" :: show_number (line mappedPosition) ++
                N_of_ascii ":" :: show_number (column mappedPosition) ++
                codes ")")
  end.

(** The frames of transpiled code that line 287 finds in a stack. *)
Definition transpiled_frames (stack : list char) : list Hit :=
  omap (fun pc => match pc with Found h => Some h | Gap _ => None end)
       (pieces evalFrame 0 true stack).

(** The source map has no original position for the frame. *)
Definition unmappable (moduleData : ModuleData MapData) (h : Hit) : Prop :=
  line (mappedPositionOf moduleData h) = None /\
  column (mappedPositionOf moduleData h) = None.

(** [text.replace(/r/g, callback)]: the text is put together only when the
    callback returned for every match. *)
Fixpoint replaceWith (f : Hit -> Completion (list char)) (ps : list Piece)
  : Completion (list char) :=
  match ps with
  | [] => Returned []
  | Gap c :: ps' =>
      match replaceWith f ps' with
      | Returned t => Returned (c :: t)
      | Threw e => Threw e
      end
  | Found h :: ps' =>
      match f h with
      | Threw e => Threw e
      | Returned r =>
          match replaceWith f ps' with
          | Returned t => Returned (r ++ t)
          | Threw e => Threw e
          end
      end
  end.

(** Lines 305-308 *)
Definition normaliseMocha (stack : list char) : list char :=
  replace mochaRun mochaRunTemplate
    (replace (mochaFrame mochaPath) mochaFrameTemplate stack).

(** Lines 310-313 *)
Definition normaliseInternal (stack : list char) : list char :=
  replace internalRun internalRunTemplate
    (replace internalFrame internalFrameTemplate stack).

(** Line 316 *)
Definition normalisePHPCore (stack : list char) : list char :=
  replace (str resolvedPHPCorePath) phpCoreTemplate stack.

(** The callback given to [.then], lines 283-319. *)
Definition normaliseWith (moduleData : ModuleData MapData) (stack : list char)
  : Promise (list char) :=
  match replaceWith (mapFrame moduleData)
          (pieces evalFrame 0 true stack) with
  | Threw e => Rejected e
  | Returned mapped =>
      Resolved (normalisePHPCore (normaliseInternal (normaliseMocha mapped)))
  end.

(** Lines 270-320 *)
Definition normaliseStack (stack : list char) (module : nat)
  : Completion (Promise (list char)) :=
  match moduleDataMap !! module with
  | None => Threw (Error configErrorMessage)
  | Some moduleData => Returned (normaliseWith moduleData stack)
  end.

End Normaliser.
End Normaliser.

(** ** Lines, runs of frames and inert text *)

Module Collapse.
Import Regex StackText.

Implicit Types (s l P bs tail : list char) (b : bool)
  (c : gmap nat (list char)) (r : Re).

(** The text goes on with the end of the line, and with the start of one. *)
Definition line_end tail : Prop := stops (fun a => negb (is_line_terminator a)) tail.
Definition text_start tail : Prop :=
  stops (fun a => existsb (N.eqb a) [13; 10]%N) tail.

Definition within P : Re := Seq (Star true dot) (Seq (lit P) (Star true dot)).
Definition round P : Re := Seq (within P) (Group 1 Normaliser.line_breaks).
Definition rounds P : Re := Plus true (round P).

(** Lines that hold the placeholder [P], and runs of them. *)
Definition has P (ln : Line) : bool := contains P (fst ln).

Fixpoint drop_run P (ls : list Line) : list Line :=
  match ls with
  | [] => []
  | ln :: ls' => if has P ln then drop_run P ls' else ls
  end.

Fixpoint run_text P (ls : list Line) : list char :=
  match ls with
  | [] => []
  | ln :: ls' => if has P ln then fst ln ++ snd ln ++ run_text P ls' else []
  end.

Fixpoint run_breaks P bs (ls : list Line) : list char :=
  match ls with
  | [] => bs
  | ln :: ls' => if has P ln then run_breaks P (snd ln) ls' else bs
  end.

Fixpoint end_of P b c (ls : list Line) : MState :=
  match ls with
  | [] => mkState b [] c
  | ln :: ls' =>
      if has P ln
      then end_of P (bol_after false (snd ln)) (<[1 := snd ln]> (delete 1 c)) ls'
      else mkState b (unlines ls) c
  end.

Definition starts_run P (ls : list Line) : bool :=
  match ls with
  | [] => false
  | ln :: _ => has P ln
  end.

Fixpoint group_lines P (marker : list char) (ls : list Line) : list char :=
  match ls with
  | [] => []
  | ln :: ls' =>
      if has P ln
      then if starts_run P ls'
           then group_lines P marker ls'
           else marker ++ snd ln ++ group_lines P marker ls'
      else fst ln ++ snd ln ++ group_lines P marker ls'
  end.

(** What a pattern that stays within the line makes of one line. *)
Definition rewrite_line r tpl (ln : Line) : Line :=
  (replaceAt r tpl true (fst ln), snd ln).








(** The opening of a transpiled frame, with which line 287 starts. *)
Definition eval_open : list char :=
  codes "(eval at transpile (".

End Collapse.

(** ** Bootstrapping: the runtimes of a tools object *)

Module Tools.

(** The modes handed to [runtimeFactory.create]: ['async'], ['psync'], ['sync']. *)
Inductive Mode := Async | Psync | Sync.

(** A runtime, by identity. *)
Definition Runtime := nat.

(** What the host has seen happen, oldest first. *)
Inductive Event :=
| Created (mode : Mode) (r : Runtime)
| Initialised (r : Runtime)
| HookInstalled (r : Runtime).

Record Host := mkHost {
  runtimes : nat;
  journal : list Event
}.

(** The third argument of the constructor, as far as line 232 tells values
    apart. *)
Inductive JsValue :=
| JsUndefined
| JsBoolean (b : bool)
| JsOther.

Definition strictly_differs_from_false (v : JsValue) : bool :=
  match v with
  | JsBoolean false => false
  | _ => true
  end.

Definition record (e : Event) (h : Host) : Host :=
  mkHost (runtimes h) (journal h ++ [e]).

(** Modelled from the spec: [runtimeFactory.create(mode)] of PHPCore, which is
    not part of this repository; each call answers with a runtime of its own. *)
Definition runtimeFactory_create (mode : Mode) (h : Host) : Runtime * Host :=
  (runtimes h, mkHost (S (runtimes h)) (journal h ++ [Created mode (runtimes h)])).

(** Lines 48-52 *)
Definition createRuntime (initRuntime : option (Runtime -> Runtime))
           (mode : Mode) (h : Host) : Runtime * Host :=
  let (runtime, h1) := runtimeFactory_create mode h in
  match initRuntime with
  | Some init => (init runtime, record (Initialised runtime) h1)
  | None => (runtime, h1)
  end.

Definition createAsyncRuntime initRuntime := createRuntime initRuntime Async.
Definition createPsyncRuntime initRuntime := createRuntime initRuntime Psync.
Definition createSyncRuntime initRuntime := createRuntime initRuntime Sync.

(** Lines 135-215, as far as the host is concerned: [runtime.install] is
    called with the service group that overrides ["opcode_executor"]. *)
Definition installForcedAsyncOpcodeHook (runtime : Runtime) (h : Host) : Host :=
  record (HookInstalled runtime) h.

Record ToolsObject := mkTools {
  asyncRuntime : Runtime;
  psyncRuntime : Runtime;
  syncRuntime : Runtime
}.

(** [module.exports = function (phpCorePath, initRuntime, forceOpcodesAsync)],
    lines 219-234. *)
Definition createIntegrationTools (initRuntime : option (Runtime -> Runtime))
           (forceOpcodesAsync : JsValue) (h : Host) : ToolsObject * Host :=
  let (asyncRuntime, h1) := createAsyncRuntime initRuntime h in
  let (psyncRuntime, h2) := createPsyncRuntime initRuntime h1 in
  let (syncRuntime, h3) := createSyncRuntime initRuntime h2 in
  let h4 := if strictly_differs_from_false forceOpcodesAsync
            then installForcedAsyncOpcodeHook asyncRuntime h3
            else h3 in
  (mkTools asyncRuntime psyncRuntime syncRuntime, h4).

(** Reading one of the properties [asyncRuntime], [psyncRuntime],
    [syncRuntime] of the tools object. *)
Definition runtimeOf (mode : Mode) (tools : ToolsObject) (h : Host)
  : Runtime * Host :=
  (match mode with
   | Async => asyncRuntime tools
   | Psync => psyncRuntime tools
   | Sync => syncRuntime tools
   end, h).

(** A series of calls of [createAsyncRuntime], [createPsyncRuntime] and
    [createSyncRuntime], in the order given. *)
Fixpoint createMany (initRuntime : option (Runtime -> Runtime))
         (modes : list Mode) (h : Host) : list Runtime * Host :=
  match modes with
  | [] => ([], h)
  | mode :: modes' =>
      let (r, h1) := createRuntime initRuntime mode h in
      let (rs, h2) := createMany initRuntime modes' h1 in
      (r :: rs, h2)
  end.

Definition created_in (h : Host) : list (Mode * Runtime) :=
  omap (fun e => match e with Created m r => Some (m, r) | _ => None end)
       (journal h).

(** The initialisation hook, when there is one, hands back the runtime it
    was given. *)
Definition returns_its_runtime (init : option (Runtime -> Runtime)) : Prop :=
  match init with
  | None => True
  | Some f => forall r, f r = r
  end.

End Tools.

(** ** Sample inputs *)

Module Samples.
Import Loop Interceptor Regex StackText Normaliser Collapse Tools.

(** A world in its fourth tick: the future 0 is settled, the future 1 waits
    for a completion that is queued. *)
Definition world : @Loop.World nat nat nat :=
  mkWorld 3 [Settled (Fulfilled 5) 1; Pending []] []
          [JSettle 1 (Fulfilled 9)] 0.

(** A reference to the store itself. *)
Definition cell : @ReferenceLike nat nat nat := {|
  getValue := fun s => (CValue s, s);
  setValue := fun v _ => (CValue v, v);
  unset := fun _ => (CValue 0, 0);
  getReference := fun s => (s, s);
  setReference := fun slot _ => slot;
  clearReference := fun _ => 0;
  isDefined := fun s => (true, s);
  isReadable := fun s => (true, s);
  isEmpty := fun s => (CValue (if s is 0 then 1 else 0), s);
  isSet := fun s => (CValue 1, s);
  isReference := fun s => (false, s);
  raiseUndefined := fun s => (CValue 0, s)
|}.

Definition opcode_of (result : @RawResult nat nat nat unit) (traced : bool)
  : @Opcode nat nat nat nat unit :=
  {| handle_ := Loop.ret result; isTraced := traced |}.

Definition la (t : string) : list char := codes t.
Definition lf : list char := [10%N].

Definition mocha_path : string := "/nm/mocha".
Definition phpcore_path : string := "/opt/phpcore".

Definition head_lines : list Line := [(la "Error: boom", lf)].


(** A source map that maps nothing, and the registry that knows module 5. *)
Definition no_position (_ : unit) (_ _ : Z) : Position :=
  mkPosition None None None.

Definition registry : gmap nat (ModuleData unit) :=
  {[ 5 := mkModuleData unit tt (Some "/my/script.php") ]}.

Definition transpiled_stack : list char :=
  la "Error: boom" ++ lf ++
  la "    at foo (eval at transpile (/home/me/phptest/src/createIntegrationTools.js:110:22), <anonymous>:3:15)"
  ++ lf.

Definition transpiled_frame : Hit :=
  default (mkHit [] ∅) (head (transpiled_frames transpiled_stack)).

End Samples.

(** ** Stacks the steps of [normaliseStack] pass over, and single frames *)

Module Frames.
Import Regex StackText Normaliser Collapse.

Implicit Types (s l P : list char) (r : Re).

(** The place of the first occurrence of [P] in [s]. *)
Fixpoint first_index P s : option nat :=
  match after P s with
  | Some _ => Some 0
  | None =>
      match s with
      | [] => None
      | _ :: s' => S <$> first_index P s'
      end
  end.

Definition lacks (t : string) s : bool :=
  negb (contains (codes t) s).

Definition dot_js : list char := codes ".js".

(** Whether the text runs, over one character at least and without any
    slash, up to a [.js]; asked of what follows an opening parenthesis, it
    tells a frame that names its file without a directory. *)
Fixpoint reaches_js s : bool :=
  match s with
  | [] => false
  | a :: s' =>
      if N.eqb a "/"%char then false
      else match after dot_js s' with
           | Some _ => true
           | None => reaches_js s'
           end
  end.

(** No opening parenthesis of the text is followed by a file named without
    a directory. *)
Fixpoint no_bare_file s : bool :=
  match s with
  | [] => true
  | a :: s' =>
      (if N.eqb a "("%char then negb (reaches_js s') else true) && no_bare_file s'
  end.

(** Texts in which lines 287 to 308 and the first alternative of line 311
    find nothing: they hold neither the opening of a transpiled frame, nor
    the path of Mocha or its placeholder, nor a file named without a
    directory. *)
Definition settled (mochaPath : string) s : bool :=
  lacks "(eval at transpile (" s &&
  lacks mochaPath s && lacks "/path/to/mocha" s &&
  no_bare_file s.

(** Texts in which lines 287 to 313 find nothing: settled ones that hold
    neither [internal/] nor the placeholder for it. *)
Definition calm (mochaPath : string) s : bool :=
  settled mochaPath s &&
  lacks "internal/" s && lacks "/path/to/internal" s.

(** Texts in which line 316 finds nothing either. *)
Definition quiet (mochaPath resolvedPHPCorePath : string) s : bool :=
  calm mochaPath s && lacks resolvedPHPCorePath s.

(** The first alternative of line 311: a frame that names a file without
    any directory. *)
Definition bare_file : Re :=
  Seq (Group 1 (Seq (Plus false (none_of (codes "/("))) (chr "(")))
      (Seq (Group 2 (Plus false (none_of (codes "/")))) (str ".js")).

(** The second alternative of line 311: a frame of a file below
    [internal/], and the place [: \d+ : \d+] that ends both alternatives. *)
Definition node_internal : Re :=
  Seq (Group 3 (Star false dot))
 (Seq (opt (str "node:"))
 (Seq (str "internal/")
 (Seq (Group 4 (Star false dot))
      (opt (str ".js"))))).

Definition place : Re :=
  Seq (chr ":") (Seq (Plus true digit) (Seq (chr ":") (Plus true digit))).

(** Line 311 without its first alternative. *)
Definition internalFrame_dirs : Re := Seq Bol (Seq node_internal place).

(** A frame of Node.js itself: a line that line 311 matches. *)
Definition is_internal_line l : bool :=
  match exec internalFrame true l with
  | Some _ => true
  | None => false
  end.

(** What line 311, without its first alternative, makes of one line. *)
Definition rw_internal : Line -> Line :=
  rewrite_line internalFrame_dirs internalFrameTemplate.

Definition internal_placeholder : list char :=
  codes "/path/to/internal".

Definition internal_marker : list char :=
  codes "    at [Node.js internals]".

(** No match of the pattern starts in a text that satisfies [Q]. *)
Definition dead (Q : list char -> Prop) r : Prop :=
  forall x, Q (rest x) -> m r x = [].

(** [Q] passes from a text to what is left of it further on. *)
Definition hereditary (Q : list char -> Prop) : Prop :=
  forall a s, Q (a :: s) -> Q s.

(** A run of decimal digits. *)
Definition digits (d : list char) : Prop :=
  d <> [] /\ Forall (fun a => is_digit a = true) d.

Definition transpile_site : list char :=
  codes "/phptest/src/createIntegrationTools.js:".
Definition anonymous_site : list char :=
  codes "), <anonymous>:".

(** What follows the path in a frame of transpiled code: the place
    [d1 : d2] of the call of [Function] in this library and the place
    [L : C] in the evaluated code. *)
Definition frame_rest (d1 d2 L C : list char) : list char :=
  d1 ++ N_of_ascii ":" :: d2 ++ anonymous_site ++ L ++ N_of_ascii ":" :: C ++ codes ")".

(** The text of a frame of transpiled code, as line 287 looks for it, with
    the path [p] up to the directory of this library. *)
Definition evalFrameText (p d1 d2 L C : list char) : list char :=
  eval_open ++ p ++ transpile_site ++ frame_rest d1 d2 L C.

(** What line 301 puts in the place of a frame. *)
Definition mappedFrameText (pos : Position) : list char :=
  N_of_ascii "(" :: show_source (source pos) ++
  N_of_ascii ":" :: show_number (line pos) ++
  N_of_ascii ":" :: show_number (column pos) ++ codes ")".

(** A frame of transpiled code in a stack, with the text before it: the
    directory this library is found in, the place of the call of [Function]
    and the place in the evaluated code. *)
Record FrameAt := mkFrameAt {
  before : list char;
  dir : list char;
  callLine : list char;
  callColumn : list char;
  evalLine : list char;
  evalColumn : list char
}.

Definition frame_text (f : FrameAt) : list char :=
  evalFrameText (dir f) (callLine f) (callColumn f) (evalLine f) (evalColumn f).

(** The stack made of the frames [fs], each after its text, and the text
    [post] after the last of them. *)
Fixpoint stack_of (fs : list FrameAt) (post : list char) : list char :=
  match fs with
  | [] => post
  | f :: fs' => before f ++ frame_text f ++ stack_of fs' post
  end.

(** The frames [fs] are the transpiled frames of the stack: each is the
    first one in what is left of the stack and ends its line, and none
    follows the last. *)
Fixpoint placed (fs : list FrameAt) (post : list char) : Prop :=
  match fs with
  | [] => contains eval_open post = false
  | f :: fs' =>
      plain (dir f) /\
      digits (callLine f) /\ digits (callColumn f) /\
      digits (evalLine f) /\ digits (evalColumn f) /\
      line_end (stack_of fs' post) /\
      first_index eval_open (stack_of (f :: fs') post) = Some (length (before f)) /\
      placed fs' post
  end.

Section Mapped.
Context {MapData : Type}.
Variable originalPositionFor : MapData -> Z -> Z -> Position.
Variable errorStackLineOffset : Z.
Variable moduleData : ModuleData MapData.

(** Lines 289-294 for the frame [f]. *)
Definition position_of (f : FrameAt) : Position :=
  originalPositionFor (sourceMapGenerator moduleData)
    (number_of_digits (evalLine f) - errorStackLineOffset)
    (number_of_digits (evalColumn f) * 1).

(** The source map has a line or a column for the frame. *)
Definition mappable (f : FrameAt) : Prop :=
  line (position_of f) <> None \/ column (position_of f) <> None.

(** The line asked of the source map for a matched frame is one the library
    takes: it counts lines from 1 and throws for a line below that. *)
Definition askable (h : Hit) : Prop :=
  let line_ := default [] (groups h !! 1) in
  (1 <= number_of_digits line_ - errorStackLineOffset)%Z.

(** The stack with every frame replaced by its position. *)
Fixpoint mapped_of (fs : list FrameAt) (post : list char) : list char :=
  match fs with
  | [] => post
  | f :: fs' => before f ++ mappedFrameText (position_of f) ++ mapped_of fs' post
  end.

End Mapped.

End Frames.

(** ** The journal of the host, read for the hooks *)

Module Journal.
Import Tools.

(** The runtimes the forced-async hook was installed on, oldest first. *)
Definition hook_events (h : Host) : list Runtime :=
  omap (fun e => match e with HookInstalled r => Some r | _ => None end)
       (journal h).

End Journal.

(** ** The line offset of evaluated code (lines 226 to 230) *)

Module LineOffset.
Import Regex Normaliser.

(** Line 230: [<anonymous>:], a run of digits as group 1, a colon and a run
    of digits. *)
Definition anonymousPlace : Re :=
  Seq (str "<anonymous>:")
 (Seq (Group 1 (Plus true digit))
 (Seq (chr ":")
      (Plus true digit))).

(** [text.match(r)] for a pattern without the g flag: the first match,
    looked for from each place of the text in turn. *)
Fixpoint match_ (r : Re) (b : bool) (s : list char) : option Hit :=
  match exec r b s with
  | Some h => Some h
  | None =>
      match s with
      | [] => None
      | a :: s' => match_ r (is_line_terminator a) s'
      end
  end.

(** The offset, from the stack that [new Error().stack] gave inside the
    evaluated function: group 1 of the match, as a number, less one.
    [None]: there is no match, and reading [[1]] of [null] throws. *)
Definition errorStackLineOffsetOf (stack : list char) : option Z :=
  match match_ anonymousPlace true stack with
  | Some h =>
      let line_ := default [] (groups h !! 1) in
      Some (number_of_digits line_ - 1)%Z
  | None => None
  end.

Definition anonymous_colon : list char :=
  codes "<anonymous>:".

End LineOffset.

(** ** [transpile] (lines 67 to 128) *)

Module Transpile.
Import Normaliser Tools.

(** The values found in the option bags handed to the parser and to the
    transpiler; [OAny]: whatever else a caller passes. *)
Inductive OptionValue :=
| OTrue
| OString (s : string)
| OPath (p : option string)
| OSourceMap (sourceContent : string) (returnMap : bool)
| OAny (n : nat).

Abbreviation Bag := (gmap string OptionValue).

(** [_.extend(target, source)]: the keys of [source] are written over those
    of [target]. *)
Definition extend (target source : Bag) : Bag := source ∪ target.

(** The [options] of a test: [sourceMap] as far as lines 94, 110 and 122
    tell values apart (truthy or not); a bag left out is an empty one. *)
Record Options {Transpiler : Type} := mkOptions {
  sourceMap : bool;
  phpToAST : Bag;
  phpToJS : Bag;
  transpiler : option Transpiler
}.
Arguments Options Transpiler : clear implicits.

(** What a call of a library does: it answers or it throws. *)
Inductive Answer {Exn : Type} (A : Type) :=
| Gave (a : A)
| Raised (e : Exn).
Arguments Answer Exn A : clear implicits.
Arguments Gave {Exn A} a.
Arguments Raised {Exn A} e.

(** [path || null]: the empty string is no path. *)
Definition path_or_null (path : option string) : option string :=
  match path with
  | Some EmptyString => None
  | _ => path
  end.

Section Transpile.

Context {Ast Result Body Exn MapData Transpiler : Type}.

(** The libraries, taken as given.  [phpParser_parse options path php]:
    [phpToAST.create(null, options)], [setPath(path)] when there is a path,
    and [parse(php)].  [code_of], [map_of]: the properties [code] and [map]
    of what the transpiler answered with; [body_of]: the answer itself,
    used as code.  [evaluate body phpCore]: the function made by
    [new Function('require', body)], called with a [require] that answers
    [phpCore]; modules are told apart by identity.  [module_using module
    path]: [module.using({path: path})]. *)
Variable phpParser_parse : Bag -> option string -> string -> Answer Exn Ast.
Variable phpToJS_transpile :
  Ast -> Bag -> option Transpiler -> Answer Exn Result.
Variable code_of : Result -> Body.
Variable body_of : Result -> Body.
Variable map_of : Result -> MapData.
Variable evaluate : Body -> Runtime -> Answer Exn nat.
Variable module_using : nat -> string -> Answer Exn nat.

Definition noOptions : Options Transpiler := mkOptions Transpiler false ∅ ∅ None.

(** Lines 76-79 *)
Definition parserOptions (options : Options Transpiler) : Bag :=
  extend {[ "captureAllBounds" := OTrue ]} (phpToAST options).

(** Lines 85-102 and 106 *)
Definition phpToJSOptions (path : option string) (php : string)
           (options : Options Transpiler) : Bag :=
  let phpToJSBaseOptions : Bag :=
    {[ "lineNumbers" := OTrue; "path" := OPath path;
       "prefix" := OString "return " ]} in
  let phpToJSBaseOptions :=
    if sourceMap options
    then extend phpToJSBaseOptions {[ "sourceMap" := OSourceMap php true ]}
    else phpToJSBaseOptions in
  extend phpToJSBaseOptions (phpToJS options).

(** Lines 67-128, with the registry [moduleDataMap] passed along. *)
Definition transpile (moduleDataMap : gmap nat (ModuleData MapData))
           (path : option string) (php : string) (phpCore : Runtime)
           (options : option (Options Transpiler))
  : Answer Exn nat * gmap nat (ModuleData MapData) :=
  let options := default noOptions options in
  let path := path_or_null path in
  match phpParser_parse (parserOptions options) path php with
  | Raised e => (Raised e, moduleDataMap)
  | Gave ast =>
      match phpToJS_transpile ast (phpToJSOptions path php options)
              (transpiler options) with
      | Raised e => (Raised e, moduleDataMap)
      | Gave transpiledResult =>
          match evaluate (if sourceMap options then code_of transpiledResult
                          else body_of transpiledResult) phpCore with
          | Raised e => (Raised e, moduleDataMap)
          | Gave module =>
              match (match path with
                     | Some p => module_using module p
                     | None => Gave module
                     end) with
              | Raised e => (Raised e, moduleDataMap)
              | Gave module =>
                  (Gave module,
                   if sourceMap options
                   then <[module := mkModuleData MapData
                                      (map_of transpiledResult) path]>
                          moduleDataMap
                   else moduleDataMap)
              end
          end
      end
  end.

(** [asyncTranspile], [psyncTranspile], [syncTranspile] and the [transpile]
    of the tools object, lines 322-336. *)
Definition asyncTranspile (tools : ToolsObject) moduleDataMap path php options :=
  transpile moduleDataMap path php (asyncRuntime tools) options.
Definition psyncTranspile (tools : ToolsObject) moduleDataMap path php options :=
  transpile moduleDataMap path php (psyncRuntime tools) options.
Definition syncTranspile (tools : ToolsObject) moduleDataMap path php options :=
  transpile moduleDataMap path php (syncRuntime tools) options.
Definition tools_transpile moduleDataMap (runtime : Runtime) path php options :=
  transpile moduleDataMap path php runtime options.

End Transpile.
End Transpile.

(** ** Further sample inputs *)

Module MoreSamples.
Import Regex StackText Normaliser Collapse Frames Tools Transpile.

(** A source map that gives every place of the generated code the same
    line and column of one PHP file. *)
Definition php_map (_ : unit) (l c : Z) : Position :=
  mkPosition (Some "/my/script.php") (Some l) (Some c).

Definition quiet_stack : list char :=
    (Samples.la "Error: boom" ++ Samples.lf ++
     Samples.la "    at done (/home/me/app/test.js:5:7)" ++ Samples.lf).

(** Two frames of transpiled code; the first, with the line break after
    it, makes up [Samples.transpiled_stack]. *)
Definition first_frame : FrameAt :=
  mkFrameAt (Samples.la "Error: boom" ++ Samples.lf ++ Samples.la "    at foo ")
            (Samples.la "/home/me") (Samples.la "110") (Samples.la "22")
            (Samples.la "3") (Samples.la "15").
Definition second_frame : FrameAt :=
  mkFrameAt (Samples.lf ++ Samples.la "    at bar ")
            (Samples.la "/home/me") (Samples.la "110") (Samples.la "22")
            (Samples.la "7") (Samples.la "4").

Definition phpcore_pre : list char := Samples.la "    at Foo (".
Definition phpcore_post : list char :=
  Samples.la "/src/Foo.js:1:2)" ++ Samples.lf.

Definition node_lines : list Line :=
  [(Samples.la "    at Module._compile (node:internal/modules/cjs/loader:1105:14)",
    Samples.lf)].
Definition last_node_line : list char :=
  Samples.la "    at Module.load (node:internal/modules/cjs/loader:981:32)".
Definition user_lines : list Line :=
  [(Samples.la "    at done (/home/me/app/test.js:5:7)", Samples.lf)].

Definition measured_pre : list char :=
  Samples.la "Error" ++ Samples.lf ++
  Samples.la "    at eval (eval at module.exports (/x/createIntegrationTools.js:226:9), ".
Definition measured_post : list char := Samples.la ")" ++ Samples.lf.

(** Stand-ins for the libraries: the parser and the transpiler hand the
    source on, every evaluation answers with module 7, and [using] with the
    module after it. *)
Definition stub_parse (_ : Bag) (_ : option string) (php : string)
  : Answer unit string := Gave php.
Definition stub_phpToJS (ast : string) (_ : Bag) (_ : option unit)
  : Answer unit string := Gave ast.
Definition stub_evaluate (_ : string) (_ : Runtime) : Answer unit nat := Gave 7.
Definition stub_using (module : nat) (_ : string) : Answer unit nat :=
  Gave (S module).

Definition with_source_map : Options unit := mkOptions unit true ∅ ∅ None.

End MoreSamples.

(** * Properties *)

(** ** The scheduler *)

Module LoopFacts.
Section LoopFacts.
Context {Val Err St : Type}.
Import Loop.
#[local] Abbreviation World := (@Loop.World Val Err St).
#[local] Abbreviation FutureState := (@Loop.FutureState Val Err).
#[local] Abbreviation Outcome := (@Loop.Outcome Val Err).
#[local] Abbreviation Job := (@Loop.Job Val Err St).

Implicit Types (w : World) (fs : list FutureState) (o : Outcome) (h t : handle)
  (todo : list handle) (j : Job).

Lemma settle_all_length fuel o now todo fs :
  length (settle_all fuel o now todo fs) = length fs.
Proof.
  revert todo fs. induction fuel as [|fuel IH]; intros todo fs; [done|].
  destruct todo as [|x rest]; [done|]. simpl.
  destruct (fs !! x) as [[ws|]|]; rewrite IH; [|done..].
  by rewrite length_insert.
Qed.

Lemma settle_all_settled fuel o now todo fs h o' t' :
  fs !! h = Some (Settled o' t') ->
  settle_all fuel o now todo fs !! h = Some (Settled o' t').
Proof.
  revert todo fs. induction fuel as [|fuel IH]; intros todo fs Hh; [done|].
  destruct todo as [|x rest]; [done|]. simpl.
  destruct (fs !! x) as [[ws|]|] eqn:Hx; apply IH; try done.
  rewrite list_lookup_insert_ne; [done|]. intros ->. congruence.
Qed.

Lemma no_waiter_insert h fs i c :
  no_waiter h fs -> h ∉ waiters_of c -> no_waiter h (<[i := c]> fs).
Proof.
  unfold no_waiter. rewrite !Forall_lookup. intros Hfs Hc k c' Hk.
  destruct (decide (i = k)) as [->|Hne].
  - destruct (decide (k < length fs)) as [Hlt|Hge].
    + rewrite list_lookup_insert_eq in Hk by done. by simplify_eq.
    + rewrite list_insert_ge in Hk by lia. eauto.
  - rewrite list_lookup_insert_ne in Hk by done. eauto.
Qed.

Lemma settle_all_untouched fuel o now todo fs h :
  h ∉ todo -> no_waiter h fs ->
  settle_all fuel o now todo fs !! h = fs !! h /\
  no_waiter h (settle_all fuel o now todo fs).
Proof.
  revert todo fs. induction fuel as [|fuel IH]; intros todo fs Hin Hnw; [done|].
  destruct todo as [|x rest]; [done|]. simpl.
  apply not_elem_of_cons in Hin as [Hne Hin].
  destruct (fs !! x) as [[ws|]|] eqn:Hx; [|by apply IH..].
  assert (h ∉ ws) as Hws.
  { unfold no_waiter in Hnw. rewrite Forall_lookup in Hnw. apply (Hnw _ _ Hx). }
  destruct (IH (rest ++ ws) (<[x := Settled o now]> fs)) as [E N].
  - rewrite elem_of_app. tauto.
  - apply no_waiter_insert; [done|]. simpl. apply not_elem_of_nil.
  - split; [|done]. rewrite E. by rewrite list_lookup_insert_ne.
Qed.

Lemma settle_all_head fuel o now rest fs h ws :
  fs !! h = Some (Pending ws) ->
  settle_all (S fuel) o now (h :: rest) fs !! h = Some (Settled o now).
Proof.
  intros Hh. simpl. rewrite Hh. apply settle_all_settled.
  apply list_lookup_insert_eq. by eapply lookup_lt_Some.
Qed.

(** A cell changes only by being settled now. *)
Lemma settle_all_cases fuel o now todo fs h :
  settle_all fuel o now todo fs !! h = fs !! h \/
  (exists ws, fs !! h = Some (Pending ws)) /\
  settle_all fuel o now todo fs !! h = Some (Settled o now).
Proof.
  revert todo fs. induction fuel as [|fuel IH]; intros todo fs; [by left|].
  destruct todo as [|x rest]; [by left|]. simpl.
  destruct (fs !! x) as [[ws|]|] eqn:Hx; [|by apply IH..].
  destruct (decide (x = h)) as [->|Hne].
  - right. split; [eauto|]. apply settle_all_settled.
    apply list_lookup_insert_eq. by eapply lookup_lt_Some.
  - destruct (IH (rest ++ ws) (<[x := Settled o now]> fs)) as [E|[[ws' E1] E2]].
    + left. rewrite E. by apply list_lookup_insert_ne.
    + right. rewrite list_lookup_insert_ne in E1 by done. eauto.
Qed.


Lemma futures_settle t o w :
  futures (settle t o w)
  = settle_all (settle_fuel (futures w)) o (tick w) [t] (futures w).
Proof. reflexivity. Qed.

#[local] Arguments settle : simpl never.
#[local] Arguments settle_all : simpl never.

Lemma settle_settled_stays t o w h o' t' :
  futures w !! h = Some (Settled o' t') ->
  futures (settle t o w) !! h = Some (Settled o' t').
Proof. intros H. rewrite futures_settle. by apply settle_all_settled. Qed.

Lemma chain_settled_stays t c w h o' t' :
  futures w !! h = Some (Settled o' t') ->
  futures (chain t c w) !! h = Some (Settled o' t').
Proof.
  intros H. destruct c as [v|s]; simpl; [by apply settle_settled_stays|].
  destruct (futures w !! s) as [[ws|o1 t1]|] eqn:Hs; simpl; try done.
  - rewrite list_lookup_insert_ne; [done|]. intros ->. congruence.
  - by apply settle_settled_stays.
Qed.

Lemma run_job_settled_stays j w h o' t' :
  futures w !! h = Some (Settled o' t') ->
  futures (run_job j w) !! h = Some (Settled o' t').
Proof.
  intros H. destruct j as [t f|t o]; simpl.
  - destruct (f (store w)) as [c s]. by apply chain_settled_stays.
  - by apply settle_settled_stays.
Qed.

Lemma turn_settled_stays w h o' t' :
  futures w !! h = Some (Settled o' t') ->
  futures (turn w) !! h = Some (Settled o' t').
Proof.
  intros H. unfold turn.
  destruct (microtasks w) as [|j q]; [destruct (macrotasks w) as [|j q]|];
    [done|by apply run_job_settled_stays..].
Qed.

Lemma run_settled_stays n w h o' t' :
  futures w !! h = Some (Settled o' t') ->
  futures (run n w) !! h = Some (Settled o' t').
Proof.
  revert w. induction n as [|n IH]; intros w H; [done|].
  simpl. by apply IH, turn_settled_stays.
Qed.

Lemma run_add a b w : run (a + b) w = run b (run a w).
Proof. revert w. induction a as [|a IH]; intros w; simpl; [done|apply IH]. Qed.

(** Queues and clock are left alone by a job. *)
Lemma run_job_frame j w :
  tick (run_job j w) = tick w /\
  microtasks (run_job j w) = microtasks w /\
  macrotasks (run_job j w) = macrotasks w.
Proof.
  destruct j as [t f|t o]; simpl; [|done].
  destruct (f (store w)) as [[v|s] st]; simpl; [done|].
  by destruct (futures w !! s) as [[ws|o1 t1]|].
Qed.

(** A job that is not aimed at [h] leaves a pending [h] pending. *)
Lemma run_job_quiet j w h :
  job_target j <> h -> no_waiter h (futures w) -> is_pending w h ->
  no_waiter h (futures (run_job j w)) /\ is_pending (run_job j w) h.
Proof.
  intros Hne Hnw [ws Hp].
  assert (forall t o w', t <> h -> no_waiter h (futures w') -> is_pending w' h ->
            no_waiter h (futures (settle t o w')) /\ is_pending (settle t o w') h)
    as Hsettle.
  { intros t o w' Ht Hnw' [ws' Hp'].
    destruct (settle_all_untouched (settle_fuel (futures w')) o (tick w') [t]
                (futures w') h) as [E N]; [|done|].
    - rewrite list_elem_of_singleton. congruence.
    - split; [done|]. exists ws'. rewrite futures_settle. by rewrite E. }
  destruct j as [t f|t o]; simpl in *; [|by apply Hsettle; [..|exists ws]].
  destruct (f (store w)) as [[v|s] st]; simpl.
  - apply (Hsettle t _ (set_store st w)); [done..|by exists ws].
  - destruct (futures w !! s) as [[ws1|o1 t1]|] eqn:Hs; simpl.
    + split.
      * apply no_waiter_insert; [done|]. simpl.
        unfold no_waiter in Hnw. rewrite Forall_lookup in Hnw.
        specialize (Hnw _ _ Hs). simpl in Hnw.
        rewrite elem_of_app, list_elem_of_singleton. intros [?|?]; [done|congruence].
      * unfold is_pending. simpl. destruct (decide (s = h)) as [->|Hsh].
        -- eexists. apply list_lookup_insert_eq. by eapply lookup_lt_Some.
        -- exists ws. by rewrite list_lookup_insert_ne.
    + apply (Hsettle t _ (set_store st w)); [done..|by exists ws].
    + split; [done|by exists ws].
Qed.

Lemma turn_agenda w j q :
  agenda w = j :: q ->
  exists w1, turn w = run_job j w1 /\ tick w1 = S (tick w) /\
             futures w1 = futures w /\ store w1 = store w /\ agenda w1 = q.
Proof.
  unfold agenda, turn. intros Ha. destruct (microtasks w) as [|j' q'] eqn:Hmic.
  - simpl in Ha. rewrite Ha. eexists. split; [done|]. done.
  - simpl in Ha. injection Ha as -> <-. eexists. split; [done|]. done.
Qed.

Lemma run_job_agenda j w : agenda (run_job j w) = agenda w.
Proof.
  destruct (run_job_frame j w) as (_ & E1 & E2). unfold agenda. by rewrite E1, E2.
Qed.

Lemma run_S_end n w : run (S n) w = turn (run n w).
Proof. revert w. induction n as [|n IH]; intros w; [done|]. simpl. by rewrite <- IH. Qed.

(** With [k] jobs ahead of [j0], none of them aimed at the pending [h'],
    the loop reaches [j0] after [k] turns with [h'] still pending. *)
Lemma run_until h' j0 after k : forall w before,
  agenda w = before ++ j0 :: after ->
  length before = k ->
  Forall (fun j => job_target j <> h') before ->
  no_waiter h' (futures w) ->
  is_pending w h' ->
  (forall m, m <= k -> is_pending (run m w) h') /\
  agenda (run k w) = j0 :: after /\
  tick (run k w) = tick w + k /\
  (forall h o ts, futures w !! h = Some (Settled o ts) ->
                  futures (run k w) !! h = Some (Settled o ts)).
Proof.
  induction k as [|k IH]; intros w before Ha Hlen Hjobs Hnw Hp.
  - destruct before; [|done]. simpl in *. repeat split; try done; try lia.
    intros m Hm. by replace m with 0 by lia.
  - destruct before as [|j before]; [done|]. simpl in Ha, Hlen.
    apply Forall_cons in Hjobs as [Hj Hjobs].
    destruct (turn_agenda w j _ Ha) as (w1 & Hturn & Htick & Hfs & _ & Hag).
    destruct (run_job_frame j w1) as (Ft & _ & _).
    destruct (run_job_quiet j w1 h') as [Hnw1 Hp1];
      [done|by rewrite Hfs|unfold is_pending; by rewrite Hfs|].
    destruct (IH (turn w) before) as (Hpend & Hag' & Htick' & Hkeep).
    + by rewrite Hturn, run_job_agenda.
    + lia.
    + done.
    + by rewrite Hturn.
    + by rewrite Hturn.
    + repeat split.
      * intros [|m] Hm; [done|]. simpl. apply Hpend. lia.
      * done.
      * simpl. rewrite Htick', Hturn, Ft, Htick. lia.
      * intros h o ts Hh. simpl. apply Hkeep. rewrite Hturn.
        apply run_job_settled_stays. by rewrite Hfs.
Qed.

Lemma chain_settles t c w o :
  is_pending w t -> outcome_in w c o ->
  futures (chain t c w) !! t = Some (Settled o (tick w)).
Proof.
  intros [ws Hp] Hc. destruct c as [v|s]; unfold chain, outcome_in in *.
  - subst o. rewrite futures_settle. unfold settle_fuel.
    by rewrite (settle_all_head _ _ _ _ _ _ ws Hp).
  - destruct Hc as [ts Hs]. rewrite Hs, futures_settle. unfold settle_fuel.
    by rewrite (settle_all_head _ _ _ _ _ _ ws Hp).
Qed.

(** The turn in which the job of [h'] runs settles it with what its
    executor answers on the store of that moment. *)
Lemma fire h' (f : St -> Chainable * St) after w o :
  agenda w = JNext h' f :: after ->
  is_pending w h' ->
  outcome_in w (fst (f (store w))) o ->
  futures (turn w) !! h' = Some (Settled o (S (tick w))).
Proof.
  intros Ha Hp Ho.
  destruct (turn_agenda w _ _ Ha) as (w1 & Hturn & Htick & Hfs & Hst & _).
  rewrite Hturn. simpl. rewrite Hst. destruct (f (store w)) as [c s] eqn:Hf.
  simpl in Ho. rewrite <- Htick.
  change (tick w1) with (tick (set_store s w1)).
  apply chain_settles.
  - destruct Hp as [ws Hp]. exists ws. simpl. by rewrite Hfs.
  - destruct c as [v|s']; simpl in *; [done|]. by rewrite Hfs.
Qed.

(** A job for the fresh future [h'], queued behind [before]: the future is
    settled in the turn after those of [before], with what the executor
    answers on the store of that turn. *)
Lemma queued_job_settles h' (f : St -> Chainable * St) w before after o :
  agenda w = before ++ JNext h' f :: after ->
  Forall (fun j => job_target j <> h') before ->
  no_waiter h' (futures w) ->
  is_pending w h' ->
  outcome_in (run (length before) w)
             (fst (f (store (run (length before) w)))) o ->
  settles_in (S (length before)) w h' o.
Proof.
  intros Ha Hjobs Hnw Hp Ho.
  destruct (run_until h' (JNext h' f) after (length before) w before)
    as (Hpend & Hag & Htick & _); [done..|].
  split; [lia|]. split.
  - intros m Hm. apply Hpend. lia.
  - intros m Hm.
    replace m with (S (length before) + (m - S (length before))) by lia.
    rewrite run_add. apply run_settled_stays. rewrite run_S_end.
    replace (tick w + S (length before)) with (S (tick (run (length before) w)))
      by lia.
    eapply fire; [exact Hag| |exact Ho]. apply Hpend. lia.
Qed.

Lemma run_job_only_later j w t0 h :
  t0 < tick w -> only_later t0 h w -> only_later t0 h (run_job j w).
Proof.
  intros Ht Hl.
  assert (forall t o w', t0 < tick w' -> only_later t0 h w' ->
            only_later t0 h (settle t o w')) as Hsettle.
  { intros t o w' Ht' Hl' o1 t1. rewrite futures_settle.
    destruct (settle_all_cases (settle_fuel (futures w')) o (tick w') [t]
                (futures w') h) as [E|[_ E]]; rewrite E.
    - apply Hl'.
    - intros [= <- <-]. done. }
  destruct j as [t f|t o]; simpl; [|by apply Hsettle].
  destruct (f (store w)) as [[v|s] st]; simpl.
  - by apply (Hsettle t _ (set_store st w)).
  - destruct (futures w !! s) as [[ws1|o1 t1]|] eqn:Hs; simpl.
    + intros o2 t2. simpl. destruct (decide (s = h)) as [->|Hne].
      * rewrite list_lookup_insert_eq by (by eapply lookup_lt_Some). done.
      * rewrite list_lookup_insert_ne by done. apply Hl.
    + by apply (Hsettle t _ (set_store st w)).
    + done.
Qed.

Lemma turn_only_later w t0 h :
  t0 <= tick w -> only_later t0 h w ->
  t0 <= tick (turn w) /\ only_later t0 h (turn w).
Proof.
  intros Ht Hl. unfold turn.
  destruct (microtasks w) as [|j q]; [destruct (macrotasks w) as [|j q]|]; [done|..].
  all: match goal with |- context [run_job ?j ?w1] =>
         destruct (run_job_frame j w1) as (Ft & _ & _); rewrite Ft; simpl;
         split; [lia|apply run_job_only_later; [simpl; lia|done]] end.
Qed.

Lemma run_only_later n w t0 h :
  t0 <= tick w -> only_later t0 h w -> only_later t0 h (run n w).
Proof.
  revert w. induction n as [|n IH]; intros w Ht Hl; [done|].
  simpl. destruct (turn_only_later w t0 h) as [? ?]; [done..|]. by apply IH.
Qed.

End LoopFacts.
End LoopFacts.

(** ** The forced-async opcode executor *)

Module InterceptorFacts.
Import Loop Interceptor LoopFacts.

Section InterceptorFacts.
Context {Val Err St Slot Other : Type}.
#[local] Abbreviation World := (@Loop.World Val Err St).
#[local] Abbreviation Chainable := (@Loop.Chainable Val).
#[local] Abbreviation Outcome := (@Loop.Outcome Val Err).
#[local] Abbreviation ReferenceLike := (@Interceptor.ReferenceLike Val St Slot).
#[local] Abbreviation Opcode := (@Interceptor.Opcode Val Err St Slot Other).
#[local] Abbreviation RawResult := (@Interceptor.RawResult Val St Slot Other).

Implicit Types (w u : World) (c : Chainable) (r : ReferenceLike) (opcode : Opcode).

Lemma createAsyncPresent_unfold c w :
  futureFactory_createAsyncPresent (Err:=Err) (St:=St) c w
  = (length (futures w),
     with_future w [JNext (length (futures w)) (fun s => (c, s))] []).
Proof.
  unfold futureFactory_createAsyncPresent, bind, createFuture, queueMicrotask,
    ret, with_future, set_futures. simpl. by rewrite app_nil_r.
Qed.

Lemma createAsyncMicrotaskFuture_unfold (f : St -> Chainable * St) w :
  valueFactory_createAsyncMicrotaskFuture (Err:=Err) f w
  = (length (futures w), with_future w [JNext (length (futures w)) f] []).
Proof.
  unfold valueFactory_createAsyncMicrotaskFuture, bind, createFuture,
    queueMicrotask, ret, with_future, set_futures. simpl. by rewrite app_nil_r.
Qed.

Lemma with_future_deferred w0 w micro macro :
  futures w0 = futures w ->
  deferred w0 (with_future w micro macro) (length (futures w)).
Proof.
  intros Hfs. split; [|split].
  - rewrite Hfs. apply lookup_ge_None. lia.
  - simpl. rewrite lookup_app_r by lia. by rewrite Nat.sub_diag.
  - intros n. apply run_only_later; [done|].
    intros o t. simpl. rewrite lookup_app_r by lia. by rewrite Nat.sub_diag.
Qed.

Lemma createAsyncPresent_deferred c w :
  answers_deferred (futureFactory_createAsyncPresent c) w.
Proof.
  unfold answers_deferred. rewrite createAsyncPresent_unfold. simpl.
  by apply with_future_deferred.
Qed.

Lemma on_store_then_deferred (f : St -> Chainable * St) w :
  answers_deferred (c <- on_store f ;; futureFactory_createAsyncPresent c) w.
Proof.
  unfold answers_deferred, bind, on_store.
  destruct (f (store w)) as [c s]. rewrite createAsyncPresent_unfold.
  by apply (with_future_deferred w (set_store s w)).
Qed.

Lemma microtask_deferred (f : St -> Chainable * St) w :
  answers_deferred (valueFactory_createAsyncMicrotaskFuture f) w.
Proof.
  unfold answers_deferred. rewrite createAsyncMicrotaskFuture_unfold. simpl.
  by apply with_future_deferred.
Qed.

(** The world in which a fresh future got its job: the queued jobs and the
    waiting lists name older futures only. *)
Lemma with_future_ready w micro macro :
  well_formed w ->
  Forall (fun j => job_target j <> length (futures w)) (microtasks w ++ macrotasks w) /\
  no_waiter (length (futures w)) (futures (with_future w micro macro)) /\
  is_pending (with_future w micro macro) (length (futures w)).
Proof.
  intros [Hjobs Hwait]. split; [|split].
  - eapply Forall_impl; [exact Hjobs|]. intros j Hj. simpl in Hj. lia.
  - unfold no_waiter. simpl. apply Forall_app. split.
    + eapply Forall_impl; [exact Hwait|]. intros c Hc Hin.
      rewrite Forall_forall in Hc. specialize (Hc _ Hin). lia.
    + apply Forall_singleton. simpl. apply not_elem_of_nil.
  - exists []. simpl. rewrite lookup_app_r by lia. by rewrite Nat.sub_diag.
Qed.

Lemma outcome_in_run n w c o w' :
  futures w' = futures w ++ [Pending []] ->
  outcome_in w c o ->
  (forall h o ts, futures w' !! h = Some (Settled o ts) ->
                  futures (run n w') !! h = Some (Settled o ts)) ->
  outcome_in (run n w') c o.
Proof.
  intros Hfs Ho Hkeep. destruct c as [v|s]; simpl in *; [done|].
  destruct Ho as [ts Hs]. exists ts. apply Hkeep. rewrite Hfs.
  by apply lookup_app_l_Some.
Qed.

Lemma createAsyncPresent_delivers c w o :
  well_formed w -> outcome_in w c o ->
  delivers (futureFactory_createAsyncPresent c) w o.
Proof.
  intros Hwf Ho. unfold delivers. rewrite createAsyncPresent_unfold. simpl.
  set (h' := length (futures w)).
  set (w2 := with_future w [JNext h' (fun s => (c, s))] []).
  destruct (with_future_ready w [JNext h' (fun s => (c, s))] [] Hwf)
    as (Hjobs & Hnw & Hp).
  exists (S (length (microtasks w))).
  apply (queued_job_settles h' (fun s => (c, s)) w2 (microtasks w) (macrotasks w)).
  - unfold agenda, w2. simpl. by rewrite app_nil_r, <- app_assoc.
  - by apply Forall_app in Hjobs as [? _].
  - done.
  - done.
  - simpl. apply (outcome_in_run _ w); [by simpl|done|].
    intros h o1 ts Hh. by apply run_settled_stays.
Qed.

Lemma on_store_then_delivers (f : St -> Chainable * St) w o :
  well_formed w -> outcome_in w (fst (f (store w))) o ->
  delivers (c <- on_store f ;; futureFactory_createAsyncPresent c) w o.
Proof.
  intros Hwf Ho. unfold delivers, bind, on_store.
  destruct (f (store w)) as [c s]. simpl in Ho.
  apply (createAsyncPresent_delivers c (set_store s w) o); [|by destruct c].
  by destruct Hwf.
Qed.

Lemma microtask_delivers (f : St -> Chainable * St) w o :
  well_formed w ->
  (let w' := snd (valueFactory_createAsyncMicrotaskFuture (Err:=Err) f w) in
   let wk := run (length (microtasks w)) w' in
   outcome_in wk (fst (f (store wk))) o) ->
  delivers (valueFactory_createAsyncMicrotaskFuture f) w o.
Proof.
  intros Hwf. unfold delivers. rewrite createAsyncMicrotaskFuture_unfold. simpl.
  intros Ho.
  set (h' := length (futures w)).
  destruct (with_future_ready w [JNext h' f] [] Hwf) as (Hjobs & Hnw & Hp).
  exists (S (length (microtasks w))).
  apply (queued_job_settles h' f _ (microtasks w) (macrotasks w)).
  - unfold agenda. simpl. by rewrite app_nil_r, <- app_assoc.
  - by apply Forall_app in Hjobs as [? _].
  - done.
  - done.
  - done.
Qed.

(** C3: an opcode that is not traced gets the raw result of the wrapped
    executor back, the very same result in the very same world, with nothing
    created and nothing queued. *)
Theorem C3_untraced_result_unchanged opcode w :
  isTraced opcode = false ->
  execute opcode w = (Raw (fst (handle_ opcode w)), snd (handle_ opcode w)).
Proof.
  intros Hu. unfold execute, bind. destruct (handle_ opcode w) as [result w1].
  by rewrite Hu.
Qed.

(** C10: for a traced opcode, a future that is not settled yet and a result
    that is no future, value, reference or variable are handed back as they
    are: the same result, the world as the handler left it. *)
Theorem C10_pending_and_other_results_unchanged opcode w w1 (result : RawResult) :
  isTraced opcode = true ->
  handle_ opcode w = (result, w1) ->
  match result with
  | RFuture h => forall o t, futures w1 !! h <> Some (Settled o t)
  | ROther _ => True
  | _ => False
  end ->
  execute opcode w = (Raw result, w1).
Proof.
  intros Ht Hh Hshape. unfold execute, bind. rewrite Hh, Ht. simpl.
  destruct result as [h|v|r|r|x]; try done.
  unfold isSettled.
  destruct (futures w1 !! h) as [[ws|o t]|] eqn:E; try done.
  by destruct (Hshape o t).
Qed.

(** C1: for a traced opcode whose raw result is a settled future, the
    executor answers with a future that did not exist before, and there is
    a turn [n >= 1] of the loop such that the new future is pending before
    turn [n] (in particular when the call returns) and from turn [n] on is
    settled with the outcome of the original, stamped with a later tick. *)
Theorem C1_settled_future_rewrapped opcode w w1 h (o : Outcome) t0 :
  isTraced opcode = true ->
  handle_ opcode w = (RFuture h, w1) ->
  futures w1 !! h = Some (Settled o t0) ->
  well_formed w1 ->
  exists h' w2 n,
    execute opcode w = (Raw (RFuture h'), w2) /\
    futures w1 !! h' = None /\
    0 < n /\
    (forall m, m < n -> is_pending (run m w2) h') /\
    (forall m, n <= m ->
       futures (run m w2) !! h' = Some (Settled o (tick w2 + n))).
Proof.
  intros Ht Hh Hs Hwf.
  destruct (createAsyncPresent_delivers (CFuture h) w1 o Hwf) as [n Hd];
    [by exists t0|].
  rewrite createAsyncPresent_unfold in Hd. destruct Hd as (Hn & Hpend & Hdone).
  eexists _, _, n. split.
  { unfold execute, bind. rewrite Hh, Ht. cbn [negb]. unfold isSettled.
    rewrite Hs. by rewrite createAsyncPresent_unfold. }
  split; [apply lookup_ge_None; lia|]. done.
Qed.

(** C2: for a traced opcode whose raw result is a reference or a variable,
    the executor answers with an accessor whose get-reference,
    set-reference, clear-reference and is-reference capabilities are the
    calls on the raw result (same answer, same effect, at once), and whose
    get-value, set-value and unset capabilities answer with a deferred
    future: new, unsettled when the call returns, settled only in a later
    tick.  That tick comes: the future of get-value and of unset is settled
    with the outcome the raw call answered with, and the future of set-value
    with the outcome of the raw assignment, which is not made before the
    microtask runs (the store is as it was when the call returns). *)
Theorem C2_accessor_structural_sync_value_deferred opcode w w1 r :
  isTraced opcode = true ->
  handle_ opcode w = (RReference r, w1) \/ handle_ opcode w = (RVariable r, w1) ->
  exists a,
    execute opcode w = (Accessor a, w1) /\
    (forall u, referenceGetter a u = raw_getReference r u) /\
    (forall s u, referenceSetter a s u = raw_setReference r s u) /\
    (forall u, referenceClearer a u = raw_clearReference r u) /\
    (forall u, referencenessGetter a u = raw_isReference r u) /\
    (forall u, answers_deferred (valueGetter a) u) /\
    (forall v u, answers_deferred (valueSetter a v) u) /\
    (forall u, answers_deferred (unsetter a) u) /\
    (forall u o, well_formed u ->
       outcome_in u (fst (getValue r (store u))) o ->
       delivers (valueGetter a) u o) /\
    (forall v u, store (snd (valueSetter a v u)) = store u) /\
    (forall v u o, well_formed u ->
       outcome_in (run (length (microtasks u)) (snd (valueSetter a v u)))
         (fst (setValue r v
                 (store (run (length (microtasks u)) (snd (valueSetter a v u))))))
         o ->
       delivers (valueSetter a v) u o) /\
    (forall u o, well_formed u ->
       outcome_in u (fst (unset r (store u))) o ->
       delivers (unsetter a) u o).
Proof.
  intros Ht Hh. exists (accessorFor r). split.
  { unfold execute, bind. destruct Hh as [-> | ->]; by rewrite Ht. }
  do 4 (split; [done|]). repeat apply conj.
  - intros u. apply on_store_then_deferred.
  - intros v u. apply microtask_deferred.
  - intros u. apply on_store_then_deferred.
  - intros u o. apply on_store_then_delivers.
  - intros v u. cbn [accessorFor valueSetter].
    by rewrite createAsyncMicrotaskFuture_unfold.
  - intros v u o. apply microtask_delivers.
  - intros u o. apply on_store_then_delivers.
Qed.

(** C9: on the accessor built for a reference or a variable, the defined
    check and the readable check are the calls on the raw result, answered
    at once, while the empty check, the set check and raise-undefined answer
    with a deferred future, which a later tick settles with the outcome the
    raw call answered with. *)
Theorem C9_accessor_checks_placement opcode w w1 r :
  isTraced opcode = true ->
  handle_ opcode w = (RReference r, w1) \/ handle_ opcode w = (RVariable r, w1) ->
  exists a,
    execute opcode w = (Accessor a, w1) /\
    (forall u, definednessGetter a u = raw_isDefined r u) /\
    (forall u, readablenessGetter a u = raw_isReadable r u) /\
    (forall u, answers_deferred (emptinessGetter a) u) /\
    (forall u, answers_deferred (setnessGetter a) u) /\
    (forall u, answers_deferred (undefinednessRaiser a) u) /\
    (forall u o, well_formed u ->
       outcome_in u (fst (isEmpty r (store u))) o ->
       delivers (emptinessGetter a) u o) /\
    (forall u o, well_formed u ->
       outcome_in u (fst (isSet r (store u))) o ->
       delivers (setnessGetter a) u o) /\
    (forall u o, well_formed u ->
       outcome_in u (fst (raiseUndefined r (store u))) o ->
       delivers (undefinednessRaiser a) u o).
Proof.
  intros Ht Hh. exists (accessorFor r). split.
  { unfold execute, bind. destruct Hh as [-> | ->]; by rewrite Ht. }
  do 2 (split; [done|]). repeat apply conj.
  1-3: intros u; apply on_store_then_deferred.
  all: intros u o; apply on_store_then_delivers.
Qed.

End InterceptorFacts.
(** The theorems, at the sample inputs. *)

Lemma C1_witness :
  isTraced (Samples.opcode_of (RFuture 0) true) = true /\
  handle_ (Samples.opcode_of (RFuture 0) true) Samples.world
  = (RFuture 0, Samples.world) /\
  futures Samples.world !! 0 = Some (Settled (Fulfilled 5) 1) /\
  well_formed Samples.world /\
  exists h' w2 n,
    execute (Samples.opcode_of (RFuture 0) true) Samples.world
    = (Raw (RFuture h'), w2) /\
    futures Samples.world !! h' = None /\
    0 < n /\
    (forall m, m < n -> is_pending (run m w2) h') /\
    (forall m, n <= m ->
       futures (run m w2) !! h' = Some (Settled (Fulfilled 5) (tick w2 + n))).
Proof.
  assert (well_formed Samples.world) as Hwf.
  { split; repeat constructor. }
  repeat (split; [reflexivity || exact Hwf|]).
  apply (C1_settled_future_rewrapped (Samples.opcode_of (RFuture 0) true)
           Samples.world Samples.world 0 (Fulfilled 5) 1);
    reflexivity || exact Hwf.
Defined.

Lemma C2_witness :
  isTraced (Samples.opcode_of (RReference Samples.cell) true) = true /\
  exists a,
    execute (Samples.opcode_of (RReference Samples.cell) true) Samples.world
    = (Accessor a, Samples.world) /\
    (forall u, referenceGetter a u = raw_getReference Samples.cell u) /\
    (forall s u, referenceSetter a s u = raw_setReference Samples.cell s u) /\
    (forall u, referenceClearer a u = raw_clearReference Samples.cell u) /\
    (forall u, referencenessGetter a u = raw_isReference Samples.cell u) /\
    (forall u, answers_deferred (valueGetter a) u) /\
    (forall v u, answers_deferred (valueSetter a v) u) /\
    (forall u, answers_deferred (unsetter a) u) /\
    (forall u o, well_formed u ->
       outcome_in u (fst (getValue Samples.cell (store u))) o ->
       delivers (valueGetter a) u o) /\
    (forall v u, store (snd (valueSetter a v u)) = store u) /\
    (forall v u o, well_formed u ->
       outcome_in (run (length (microtasks u)) (snd (valueSetter a v u)))
         (fst (setValue Samples.cell v
                 (store (run (length (microtasks u)) (snd (valueSetter a v u))))))
         o ->
       delivers (valueSetter a v) u o) /\
    (forall u o, well_formed u ->
       outcome_in u (fst (unset Samples.cell (store u))) o ->
       delivers (unsetter a) u o).
Proof.
  split; [reflexivity|].
  apply (C2_accessor_structural_sync_value_deferred
           (Samples.opcode_of (RReference Samples.cell) true)
           Samples.world Samples.world Samples.cell);
    [reflexivity|left; reflexivity].
Defined.

Lemma C3_witness :
  isTraced (Samples.opcode_of (RValue 7) false) = false /\
  execute (Samples.opcode_of (RValue 7) false) Samples.world
  = (Raw (RValue 7), Samples.world).
Proof.
  split; [reflexivity|].
  apply (C3_untraced_result_unchanged (Samples.opcode_of (RValue 7) false)
           Samples.world).
  reflexivity.
Defined.

Lemma C9_witness :
  isTraced (Samples.opcode_of (RVariable Samples.cell) true) = true /\
  exists a,
    execute (Samples.opcode_of (RVariable Samples.cell) true) Samples.world
    = (Accessor a, Samples.world) /\
    (forall u, definednessGetter a u = raw_isDefined Samples.cell u) /\
    (forall u, readablenessGetter a u = raw_isReadable Samples.cell u) /\
    (forall u, answers_deferred (emptinessGetter a) u) /\
    (forall u, answers_deferred (setnessGetter a) u) /\
    (forall u, answers_deferred (undefinednessRaiser a) u) /\
    (forall u o, well_formed u ->
       outcome_in u (fst (isEmpty Samples.cell (store u))) o ->
       delivers (emptinessGetter a) u o) /\
    (forall u o, well_formed u ->
       outcome_in u (fst (isSet Samples.cell (store u))) o ->
       delivers (setnessGetter a) u o) /\
    (forall u o, well_formed u ->
       outcome_in u (fst (raiseUndefined Samples.cell (store u))) o ->
       delivers (undefinednessRaiser a) u o).
Proof.
  split; [reflexivity|].
  apply (C9_accessor_checks_placement
           (Samples.opcode_of (RVariable Samples.cell) true)
           Samples.world Samples.world Samples.cell);
    [reflexivity|right; reflexivity].
Defined.

Lemma C10_witness :
  isTraced (Samples.opcode_of (RFuture 1) true) = true /\
  (forall o t, futures Samples.world !! 1 <> Some (Settled o t)) /\
  execute (Samples.opcode_of (RFuture 1) true) Samples.world
  = (Raw (RFuture 1), Samples.world).
Proof.
  assert (forall (o : @Outcome nat nat) (t : nat),
            futures Samples.world !! 1 <> Some (Settled o t)) as Hp
    by (intros o t; discriminate).
  split; [reflexivity|]. split; [exact Hp|].
  apply (C10_pending_and_other_results_unchanged
           (Samples.opcode_of (RFuture 1) true) Samples.world Samples.world
           (RFuture 1)); [reflexivity|reflexivity|exact Hp].
Defined.


End InterceptorFacts.

(** ** Regular expressions *)

Module RegexFacts.
Import Regex StackText.

Implicit Types (r : Re) (x y z : MState) (s l : list char) (b : bool)
  .

(** *** The equations of the matcher *)

Lemma m_Seq r1 r2 x : m (Seq r1 r2) x = flat_map (m r2) (m r1 x).
Proof. reflexivity. Qed.

Lemma m_Alt r1 r2 x : m (Alt r1 r2) x = m r1 x ++ m r2 x.
Proof. reflexivity. Qed.

Lemma m_Plus g r1 x :
  m (Plus g r1) x
  = flat_map (fun y => iter (fun z => m r1 (reset (groups_of r1) z)) g
                            (length (rest y)) y)
             (m r1 (reset (groups_of r1) x)).
Proof. reflexivity. Qed.

Lemma m_Group n r1 x :
  m (Group n r1) x
  = map (fun y => mkState (bol y) (rest y)
                    (<[n := take (length (rest x) - length (rest y)) (rest x)]> (caps y)))
        (m r1 x).
Proof. reflexivity. Qed.

Lemma iter_S body greedy fuel x :
  iter body greedy (S fuel) x
  = let more := flat_map (fun y => if length (rest y) <? length (rest x)
                                   then iter body greedy fuel y else [])
                         (body x) in
    if greedy then more ++ [x] else x :: more.
Proof. reflexivity. Qed.

(** *** Lists of successes *)

Lemma flat_map_nil_all {A B} (f : A -> list B) (xs : list A) :
  (forall a, a ∈ xs -> f a = []) -> flat_map f xs = [].
Proof.
  induction xs as [|a xs IH]; intros H; [done|]. simpl.
  rewrite (H a) by apply list_elem_of_here. apply IH.
  intros b Hb. apply H. by apply list_elem_of_further.
Qed.

Lemma flat_map_ext_in {A B} (f g : A -> list B) (xs : list A) :
  (forall a, a ∈ xs -> f a = g a) -> flat_map f xs = flat_map g xs.
Proof.
  induction xs as [|a xs IH]; intros H; [done|]. simpl.
  rewrite (H a) by apply list_elem_of_here. f_equal. apply IH.
  intros b Hb. apply H. by apply list_elem_of_further.
Qed.

Lemma flat_map_map_l {A B C} (f : B -> list C) (g : A -> B) (xs : list A) :
  flat_map f (map g xs) = flat_map (fun a => f (g a)) xs.
Proof. induction xs as [|a xs IH]; simpl; [done|by rewrite IH]. Qed.

Lemma map_flat_map_r {A B C} (f : A -> list B) (g : B -> C) (xs : list A) :
  map g (flat_map f xs) = flat_map (fun a => map g (f a)) xs.
Proof.
  induction xs as [|a xs IH]; simpl; [done|]. by rewrite map_app, IH.
Qed.

Lemma elem_of_flat_map {A B} (f : A -> list B) (xs : list A) (b : B) :
  b ∈ flat_map f xs <-> exists a, a ∈ xs /\ b ∈ f a.
Proof.
  rewrite list_elem_of_In, in_flat_map.
  split; intros (a & Ha & Hb); exists a.
  - by rewrite !list_elem_of_In.
  - by rewrite <- !list_elem_of_In.
Qed.

Lemma head_flat_map_first {A B} (f : A -> list B) (a : A) (xs : list A) (b : B) :
  head (f a) = Some b -> head (flat_map f (a :: xs)) = Some b.
Proof. simpl. destruct (f a); [done|]. simpl. done. Qed.

(** *** The fuel of a repetition is only a bound *)

Lemma iter_fuel body greedy : forall f1 f2 x,
  length (rest x) <= f1 -> length (rest x) <= f2 ->
  iter body greedy f1 x = iter body greedy f2 x.
Proof.
  assert (forall f x, length (rest x) = 0 -> iter body greedy f x = [x]) as Hz.
  { intros [|f] x Hx; [done|]. simpl.
    rewrite flat_map_nil_all; [by destruct greedy|].
    intros y _. rewrite Hx. done. }
  induction f1 as [|f1 IH]; intros f2 x H1 H2.
  - rewrite (Hz f2) by lia. done.
  - destruct f2 as [|f2]; [by rewrite (Hz (S f1)) by lia|].
    simpl.
    rewrite (flat_map_ext_in _
      (fun y => if length (rest y) <? length (rest x)
                then iter body greedy f2 y else [])); [done|].
    intros y _. destruct (Nat.ltb_spec (length (rest y)) (length (rest x))); [|done].
    apply IH; lia.
Qed.

(** *** What a match leaves is a suffix of what it found *)

Lemma caps_all_reset Q gs m : caps_all Q m -> caps_all Q (foldr delete m gs).
Proof.
  intros H. induction gs as [|g gs IH]; simpl; [done|].
  by apply map_Forall_delete.
Qed.

Lemma iter_inv (P : MState -> MState -> Prop) body greedy :
  (forall x, P x x) ->
  (forall x y z, P x y -> P y z -> P x z) ->
  (forall x y, y ∈ body x -> P x y) ->
  forall fuel x y, y ∈ iter body greedy fuel x -> P x y.
Proof.
  intros Hrefl Htrans Hbody. induction fuel as [|fuel IH]; intros x y Hy.
  - apply list_elem_of_singleton in Hy as ->. apply Hrefl.
  - simpl in Hy.
    assert (y = x \/ y ∈ flat_map
              (fun y0 => if length (rest y0) <? length (rest x)
                         then iter body greedy fuel y0 else []) (body x))
      as [->|Hin].
    { destruct greedy.
      - apply elem_of_app in Hy as [?|Hy]; [by right|].
        apply list_elem_of_singleton in Hy. by left.
      - apply elem_of_cons in Hy as [?|?]; [by left|by right]. }
    + apply Hrefl.
    + apply elem_of_flat_map in Hin as (z & Hz & Hy').
      destruct (length (rest z) <? length (rest x)); [|by apply elem_of_nil in Hy'].
      eapply Htrans; [by apply Hbody|by apply IH].
Qed.

Lemma leads_refl Q x : leads Q x x.
Proof. split; [done|tauto]. Qed.

Lemma leads_trans Q x y z : leads Q x y -> leads Q y z -> leads Q x z.
Proof.
  intros [S1 I1] [S2 I2]. split; [by etrans|tauto].
Qed.

Lemma leads_reset Q gs x : leads Q x (reset gs x).
Proof.
  split; [done|]. intros [? ?]. split; [done|]. by apply caps_all_reset.
Qed.

Lemma m_leads Q r : forall x y, y ∈ m r x -> leads Q x y.
Proof.
  induction r as [|q|r1 IH1 r2 IH2|r1 IH1 r2 IH2|g r1 IH1|g r1 IH1|n r1 IH1|];
    intros x y Hy; simpl in Hy.
  - apply list_elem_of_singleton in Hy as ->. apply leads_refl.
  - destruct (rest x) as [|c s] eqn:Hx; [by apply elem_of_nil in Hy|].
    destruct (q c); [|by apply elem_of_nil in Hy].
    apply list_elem_of_singleton in Hy as ->. split; simpl.
    + rewrite Hx. by apply suffix_cons_r.
    + intros [Hr Hc]. rewrite Hx in Hr. apply Forall_cons in Hr as [_ Hr]. by split.
  - apply elem_of_flat_map in Hy as (z & Hz & Hy).
    eapply leads_trans; eauto.
  - apply elem_of_app in Hy as [?|?]; eauto.
  - revert Hy. apply (iter_inv (leads Q)); [apply leads_refl|apply leads_trans|].
    intros x' y' Hy'. eapply leads_trans; [apply leads_reset|by apply IH1].
  - apply elem_of_flat_map in Hy as (z & Hz & Hy).
    eapply leads_trans; [apply leads_reset|].
    eapply leads_trans; [by apply IH1|].
    revert Hy. apply (iter_inv (leads Q)); [apply leads_refl|apply leads_trans|].
    intros x' y' Hy'. eapply leads_trans; [apply leads_reset|by apply IH1].
  - apply list_elem_of_fmap in Hy as (z & -> & Hz).
    destruct (IH1 _ _ Hz) as [Hs Hq]. split; [done|].
    intros Hx. destruct (Hq Hx) as [Hr Hc]. split; [done|]. simpl.
    apply map_Forall_insert_2; [|done].
    apply Forall_take. apply Hx.
  - destruct (bol x);
      try (by apply elem_of_nil in Hy);
      apply list_elem_of_singleton in Hy as ->; apply leads_refl.
Qed.


Lemma iter_leads Q body greedy :
  (forall x y, y ∈ body x -> leads Q x y) ->
  forall fuel x y, y ∈ iter body greedy fuel x -> leads Q x y.
Proof. apply iter_inv; [apply leads_refl|apply leads_trans]. Qed.

Lemma m_shorter r x y : y ∈ m r x -> length (rest y) <= length (rest x).
Proof. intros Hy. destruct (m_leads (fun _ => True) r x y Hy) as [Hs _]. by apply suffix_length. Qed.

Lemma m_consumes r : forall x y,
  y ∈ m r x -> length (rest y) + min_len r <= length (rest x).
Proof.
  induction r as [|q|r1 IH1 r2 IH2|r1 IH1 r2 IH2|g r1 IH1|g r1 IH1|n r1 IH1|];
    intros x y Hy; try (apply m_shorter in Hy; simpl; lia).
  - simpl in Hy. destruct (rest x) as [|c s] eqn:Hx; [by apply elem_of_nil in Hy|].
    destruct (q c); [|by apply elem_of_nil in Hy].
    apply list_elem_of_singleton in Hy as ->. simpl. lia.
  - simpl in Hy. apply elem_of_flat_map in Hy as (z & Hz & Hy).
    apply IH1 in Hz. apply IH2 in Hy. simpl. lia.
  - simpl in Hy. apply elem_of_app in Hy as [Hy|Hy]; [apply IH1 in Hy|apply IH2 in Hy];
      simpl; lia.
  - simpl in Hy. apply elem_of_flat_map in Hy as (z & Hz & Hy).
    apply IH1 in Hz. simpl in Hz.
    assert (length (rest y) <= length (rest z)); [|simpl; lia].
    apply suffix_length.
    refine (proj1 (iter_leads (fun _ => True) _ _ _ _ _ _ Hy)).
    intros x' y' Hy'. eapply leads_trans; [apply leads_reset|by apply (m_leads _ r1)].
  - simpl in Hy. apply list_elem_of_fmap in Hy as (z & -> & Hz).
    apply IH1 in Hz. simpl. lia.
Qed.

(** *** Patterns that stay within the line *)

Lemma iter_ext body greedy T :
  (forall y, body (ext T y) = map (ext T) (body y)) ->
  forall fuel x,
    iter body greedy fuel (ext T x) = map (ext T) (iter body greedy fuel x).
Proof.
  intros Hbody. induction fuel as [|fuel IH]; intros x; [done|].
  simpl. rewrite Hbody, flat_map_map_l.
  rewrite (flat_map_ext_in _
    (fun y => map (ext T) (if length (rest y) <? length (rest x)
                            then iter body greedy fuel y else []))).
  - rewrite <- map_flat_map_r. destruct greedy; [by rewrite map_app|done].
  - intros y _. simpl. rewrite !length_app.
    destruct (Nat.ltb_spec (length (rest y)) (length (rest x)));
      destruct (Nat.ltb_spec (length (rest y) + length T) (length (rest x) + length T));
      try lia; [apply IH|done].
Qed.

Lemma m_ext r t tail :
  line_local r -> is_line_terminator t = true ->
  forall x, m r (ext (t :: tail) x) = map (ext (t :: tail)) (m r x).
Proof.
  intros Hr Ht. set (T := t :: tail).
  induction r as [|q|r1 IH1 r2 IH2|r1 IH1 r2 IH2|g r1 IH1|g r1 IH1|n r1 IH1|];
    intros x; simpl in Hr.
  - done.
  - simpl. destruct (rest x) as [|c s]; simpl.
    + by rewrite (Hr t Ht).
    + by destruct (q c).
  - destruct Hr as [H1 H2]. simpl. rewrite IH1 by done.
    rewrite flat_map_map_l, map_flat_map_r.
    apply flat_map_ext_in. intros y _. by apply IH2.
  - destruct Hr as [H1 H2]. simpl. rewrite IH1, IH2 by done. by rewrite map_app.
  - simpl.
    rewrite (iter_fuel _ _ (length (rest x)) (length (rest x ++ T)) x)
      by (rewrite ?length_app; lia).
    apply iter_ext. intros y. apply (IH1 Hr (reset (groups_of r1) y)).
  - simpl. change (reset (groups_of r1) (ext T x)) with (ext T (reset (groups_of r1) x)).
    rewrite IH1 by done. rewrite flat_map_map_l, map_flat_map_r.
    apply flat_map_ext_in. intros y _. simpl.
    rewrite (iter_fuel _ _ (length (rest y)) (length (rest y ++ T)) y)
      by (rewrite ?length_app; lia).
    apply iter_ext. intros z. apply (IH1 Hr (reset (groups_of r1) z)).
  - simpl. rewrite IH1 by done. rewrite !map_map.
    apply map_ext. intros y. unfold ext. simpl. f_equal. f_equal.
    rewrite !length_app.
    replace (length (rest x) + length T - (length (rest y) + length T))
      with (length (rest x) - length (rest y)) by lia.
    apply take_app_le. lia.
  - simpl. by destruct (bol x).
Qed.

(** *** Greedy repetition of one class, and literals *)

Lemma iter_cls q tail c : forall l b fuel,
  length l <= fuel ->
  Forall (fun a => q a = true) l -> stops q tail ->
  iter (fun y => m (Cls q) (reset [] y)) true fuel (mkState b (l ++ tail) c)
  = splits b l tail c.
Proof.
  set (body := fun y => m (Cls q) (reset [] y)).
  assert (forall b s c', body (mkState b s c')
          = match s with
            | [] => []
            | a :: s' => if q a then [mkState (is_line_terminator a) s' c'] else []
            end) as Hb by done.
  induction l as [|a l IH]; intros b fuel Hf Hl Hstop.
  - destruct fuel as [|fuel]; [done|]. cbn [iter app rest]. rewrite Hb.
    destruct tail as [|a tail]; [done|]. simpl in Hstop. by rewrite Hstop.
  - destruct fuel as [|fuel]; [simpl in Hf; lia|].
    apply Forall_cons in Hl as [Ha Hl]. cbn [iter rest]. rewrite Hb.
    cbn [app]. rewrite Ha. cbn [flat_map rest length].
    destruct (Nat.ltb_spec (length (l ++ tail)) (S (length (l ++ tail)))); [|lia].
    rewrite IH; [|simpl in Hf; lia|done..].
    by rewrite app_nil_r.
Qed.

Lemma star_cls q b l tail c :
  Forall (fun a => q a = true) l -> stops q tail ->
  m (Star true (Cls q)) (mkState b (l ++ tail) c) = splits b l tail c.
Proof.
  intros Hl Hs. simpl. apply iter_cls; [rewrite length_app; lia|done..].
Qed.

Lemma bol_after_cons b a t : bol_after b (a :: t) = bol_after (is_line_terminator a) t.
Proof.
  revert a b. induction t as [|a0 t IH]; intros a b; [done|].
  change (bol_after b (a :: a0 :: t)) with (bol_after b (a0 :: t)).
  by rewrite !IH.
Qed.

Lemma head_splits b l tail c :
  head (splits b l tail c) = Some (mkState (bol_after b l) tail c).
Proof.
  revert b. induction l as [|a l IH]; intros b; [done|].
  cbn [splits]. rewrite bol_after_cons. specialize (IH (is_line_terminator a)).
  destruct (splits (is_line_terminator a) l tail c) as [|y ys]; simpl in *; done.
Qed.

Lemma m_lit t : forall b s c,
  m (lit t) (mkState b s c)
  = match after t s with
    | Some s' => [mkState (bol_after b t) s' c]
    | None => []
    end.
Proof.
  induction t as [|a t IH]; intros b s c; [done|].
  simpl. destruct s as [|a' s]; [done|].
  destruct (N.eqb_spec a a') as [->|Hne]; [|done].
  simpl. rewrite IH, app_nil_r. rewrite bol_after_cons. done.
Qed.

Lemma after_Some t s s' : after t s = Some s' <-> s = t ++ s'.
Proof.
  revert s. induction t as [|a t IH]; intros s; simpl.
  - split; congruence.
  - destruct s as [|b s]; [split; congruence|].
    destruct (N.eqb_spec a b) as [->|Hne].
    + rewrite IH. split; congruence.
    + split; congruence.
Qed.

End RegexFacts.

(** ** Runs of frames *)

Module RunFacts.
Import Regex StackText Collapse RegexFacts.

Implicit Types (r : Re) (x y z : MState) (s l P bs tail : list char) (b : bool)
  (c : gmap nat (list char)).

#[local] Arguments unlines : simpl never.

Lemma frameRun_rounds placeholder :
  Normaliser.frameRun placeholder = rounds (codes placeholder).
Proof. reflexivity. Qed.

Lemma plain_dot l : plain l -> Forall (fun a => negb (is_line_terminator a) = true) l.
Proof. intros H. eapply Forall_impl; [exact H|]. intros a ->. done. Qed.

(** Carriage return and line feed are line terminators; the line and
    paragraph separators are line terminators that [[\r\n]] does not take. *)
Lemma break_terminator a : is_break a = true -> is_line_terminator a = true.
Proof.
  unfold is_break, is_line_terminator. cbn [existsb].
  destruct (N.eqb a 10), (N.eqb a 13); done.
Qed.

Lemma separators_end_lines :
  Forall (fun a => is_line_terminator a = true /\ is_break a = false)
    [8232; 8233]%N.
Proof. by repeat constructor. Qed.

Lemma plain_no_break a : is_line_terminator a = false -> is_break a = false.
Proof.
  intros Ha. destruct (is_break a) eqn:E; [|done].
  apply break_terminator in E. congruence.
Qed.


Lemma breaks_cls bs :
  breaks bs -> Forall (fun a => existsb (N.eqb a) [13; 10]%N = true) bs.
Proof. intros H. exact H. Qed.

Lemma star_dot b l tail c :
  plain l -> line_end tail ->
  m (Star true dot) (mkState b (l ++ tail) c) = splits b l tail c.
Proof. intros Hl Ht. apply star_cls; [by apply plain_dot|done]. Qed.

Lemma star_breaks b bs tail c :
  breaks bs -> text_start tail ->
  m Normaliser.line_breaks (mkState b (bs ++ tail) c) = splits b bs tail c.
Proof. intros Hl Ht. apply star_cls; [by apply breaks_cls|done]. Qed.

Lemma bol_after_plain b t : plain t -> t <> [] -> bol_after b t = false.
Proof.
  revert b. induction t as [|a t IH]; intros b Ht Hne; [done|].
  rewrite bol_after_cons. apply Forall_cons in Ht as [Ha Ht].
  destruct t as [|a' t]; [done|]. by apply IH.
Qed.

Lemma bol_after_plain_false t : plain t -> bol_after false t = false.
Proof. intros Ht. destruct t; [done|]. by apply bol_after_plain. Qed.

Lemma bol_after_breaks b bs : breaks bs -> bs <> [] -> bol_after b bs = true.
Proof.
  revert b. induction bs as [|a t IH]; intros b Ht Hne; [done|].
  rewrite bol_after_cons. apply Forall_cons in Ht as [Ha Ht].
  destruct t as [|a' t]; [by apply break_terminator|]. by apply IH.
Qed.

Lemma after_line P l tail :
  plain P -> line_end tail ->
  after P (l ++ tail) = (fun s' => s' ++ tail) <$> after P l.
Proof.
  intros HP Htail. revert l. induction HP as [|a P Ha HP IH]; intros l; [done|].
  destruct l as [|a' l]; simpl.
  - destruct tail as [|t tail]; [done|]. simpl in Htail.
    destruct (N.eqb_spec a t) as [->|]; [|done].
    rewrite Ha in Htail. done.
  - destruct (N.eqb a a'); [apply IH|done].
Qed.

Lemma after_plain P l l2 : plain l -> after P l = Some l2 -> plain l2.
Proof.
  intros Hl Ha. apply after_Some in Ha as ->. by apply Forall_app in Hl as [_ ?].
Qed.

Lemma contains_nil P : P <> [] -> contains P [] = false.
Proof. by destruct P. Qed.

Lemma contains_cons P a l :
  contains P (a :: l) = match after P (a :: l) with Some _ => true | None => contains P l end.
Proof. destruct P; reflexivity. Qed.

Lemma unlines_cons (ln : Line) ls : unlines (ln :: ls) = fst ln ++ snd ln ++ unlines ls.
Proof. unfold unlines. cbn [flat_map]. by rewrite <- app_assoc. Qed.


Lemma lines_ok_tail first (ln : Line) ls : lines_ok first (ln :: ls) -> lines_ok false ls.
Proof. simpl. tauto. Qed.

Lemma text_start_lines ls : lines_ok false ls -> text_start (unlines ls).
Proof.
  destruct ls as [|[l bs] ls]; [done|]. intros (Hl & _ & Hne & _).
  rewrite unlines_cons. cbn [fst snd] in *. destruct l as [|a l]; [by destruct Hne|].
  apply Forall_cons in Hl as [Ha _]. cbn [app]. unfold text_start, stops.
  by apply plain_no_break.
Qed.

Lemma line_end_breaks bs ls :
  breaks bs -> (ls <> [] -> bs <> []) -> line_end (bs ++ unlines ls).
Proof.
  intros Hbs Hne. destruct bs as [|t bs].
  - destruct ls; [done|]. by destruct Hne.
  - apply Forall_cons in Hbs as [Ht _]. simpl.
    by rewrite (break_terminator _ Ht).
Qed.

Lemma drop_run_ok P ls : lines_ok false ls -> lines_ok false (drop_run P ls).
Proof.
  induction ls as [|ln ls IH]; [done|]. intros Hok. simpl.
  destruct (has P ln); [|done]. apply IH. by eapply lines_ok_tail.
Qed.

Lemma drop_run_length P ls : length (drop_run P ls) <= length ls.
Proof. induction ls as [|ln ls IH]; simpl; [done|]. destruct (has P ln); simpl; lia. Qed.

Lemma run_text_rest P ls : unlines ls = run_text P ls ++ unlines (drop_run P ls).
Proof.
  induction ls as [|ln ls IH]; [done|]. simpl. destruct (has P ln); [|done].
  rewrite unlines_cons, IH. by rewrite <- !app_assoc.
Qed.

Lemma end_of_rest P b c ls : rest (end_of P b c ls) = unlines (drop_run P ls).
Proof.
  revert b c. induction ls as [|ln ls IH]; intros b c; [done|]. simpl.
  destruct (has P ln); [apply IH|done].
Qed.

Lemma end_of_breaks P b c bs ls :
  caps (end_of P b (<[1 := bs]> c) ls) !! 1 = Some (run_breaks P bs ls).
Proof.
  revert b c bs. induction ls as [|ln ls IH]; intros b c bs; simpl.
  - apply lookup_insert_eq.
  - destruct (has P ln); [apply IH|]. simpl. apply lookup_insert_eq.
Qed.

Lemma group_lines_run P marker (ln : Line) ls :
  has P ln = true ->
  group_lines P marker (ln :: ls)
  = marker ++ run_breaks P (snd ln) ls ++ group_lines P marker (drop_run P ls).
Proof.
  revert ln. induction ls as [|ln' ls IH]; intros ln Hln.
  - simpl. by rewrite Hln.
  - change (group_lines P marker (ln :: ln' :: ls))
      with (if has P ln
            then if has P ln'
                 then group_lines P marker (ln' :: ls)
                 else marker ++ snd ln ++ group_lines P marker (ln' :: ls)
            else fst ln ++ snd ln ++ group_lines P marker (ln' :: ls)).
    rewrite Hln. cbn [run_breaks drop_run].
    destruct (has P ln') eqn:Hln'; [by apply IH|done].
Qed.

Lemma pieces_skip r a : forall b tail,
  pieces r (length a) b (a ++ tail) = pieces r 0 (bol_after b a) tail.
Proof.
  induction a as [|t a IH]; intros b tail; [done|].
  simpl. rewrite IH. by rewrite bol_after_cons.
Qed.

Lemma replaceAt_gap r tpl b a s :
  exec r b (a :: s) = None ->
  replaceAt r tpl b (a :: s) = a :: replaceAt r tpl (is_line_terminator a) s.
Proof. intros H. unfold replaceAt. simpl. by rewrite H. Qed.

Lemma replaceAt_nil r tpl b : exec r b [] = None -> replaceAt r tpl b [] = [].
Proof. intros H. unfold replaceAt. simpl. by rewrite H. Qed.

Lemma groups_of_lit t : groups_of (lit t) = [].
Proof. induction t as [|a t IH]; simpl; [done|by rewrite IH]. Qed.

Lemma groups_of_round P : groups_of (round P) = [1].
Proof. simpl. by rewrite groups_of_lit. Qed.

Section Placeholder.
Variable P : list char.
Hypothesis P_plain : plain P.
Hypothesis P_nonempty : P <> [].

Lemma from_here b l tail c :
  plain l -> line_end tail ->
  m (Seq (lit P) (Star true dot)) (mkState b (l ++ tail) c)
  = match after P l with
    | Some l2 => splits false l2 tail c
    | None => []
    end.
Proof using P_plain P_nonempty.
  intros Hl Htail. rewrite m_Seq, m_lit, after_line by done.
  destruct (after P l) as [l2|] eqn:Ha; [|done]. cbn [fmap option_fmap option_map flat_map].
  rewrite app_nil_r. rewrite bol_after_plain by done.
  apply star_dot; [|done]. by eapply after_plain.
Qed.

Lemma within_results b l tail c :
  plain l -> line_end tail ->
  (contains P l = false -> m (within P) (mkState b (l ++ tail) c) = []) /\
  (contains P l = true ->
   head (m (within P) (mkState b (l ++ tail) c)) = Some (mkState false tail c)).
Proof using P_plain P_nonempty.
  intros Hl Htail. unfold within. rewrite m_Seq.
  rewrite star_dot by done.
  revert b. induction Hl as [|a l Ha Hl IH]; intros b.
  - rewrite contains_nil by done. split; [|done]. intros _. cbn [splits flat_map].
    pose proof (from_here b [] tail c ltac:(constructor) Htail) as E.
    cbn [app] in E. rewrite E, app_nil_r. destruct P; done.
  - rewrite contains_cons. cbn [splits]. rewrite flat_map_app. cbn [flat_map].
    rewrite app_nil_r.
    pose proof (from_here b (a :: l) tail c ltac:(by constructor) Htail) as E.
    cbn [app] in E. rewrite E. clear E.
    destruct (IH (is_line_terminator a)) as [IHn IHh].
    destruct (contains P l) eqn:Hc.
    + split; [by destruct (after P (a :: l))|]. intros _.
      specialize (IHh eq_refl).
      destruct (flat_map _ (splits (is_line_terminator a) l tail c)); [done|].
      done.
    + rewrite (IHn eq_refl). cbn [app].
      destruct (after P (a :: l)) as [l2|] eqn:Hafter; split; try done.
      intros _. rewrite head_splits. rewrite bol_after_plain_false; [done|].
      eapply after_plain; [|done]. by constructor.
Qed.

Lemma round_none b l tail c :
  plain l -> line_end tail -> contains P l = false ->
  m (round P) (mkState b (l ++ tail) c) = [].
Proof using P_plain P_nonempty.
  intros Hl Htail Hc. unfold round. rewrite m_Seq.
  by rewrite (proj1 (within_results b l tail c Hl Htail) Hc).
Qed.

Lemma round_head b l bs tail c :
  plain l -> breaks bs -> line_end (bs ++ tail) -> text_start tail ->
  contains P l = true ->
  head (m (round P) (mkState b (l ++ bs ++ tail) c))
  = Some (mkState (bol_after false bs) tail (<[1 := bs]> c)).
Proof using P_plain P_nonempty.
  intros Hl Hbs Hend Hstart Hc. unfold round. rewrite m_Seq.
  pose proof (proj2 (within_results b l (bs ++ tail) c Hl Hend) Hc) as Hw.
  destruct (m (within P) (mkState b (l ++ bs ++ tail) c)) as [|z zs]; [done|].
  simpl in Hw. injection Hw as ->.
  apply head_flat_map_first.
  rewrite m_Group, star_breaks by done.
  pose proof (head_splits false bs tail c) as Hh.
  destruct (splits false bs tail c) as [|y ys]; [done|].
  simpl in Hh. injection Hh as ->. cbn [map head bol rest caps]. f_equal. f_equal. f_equal.
  rewrite length_app. replace (length bs + length tail - length tail) with (length bs) by lia.
  by rewrite take_app_length.
Qed.

Lemma iter_rounds ls : forall fuel b c,
  lines_ok false ls -> length (unlines ls) <= fuel ->
  head (iter (fun z => m (round P) (reset [1] z)) true fuel
             (mkState b (unlines ls) c))
  = Some (end_of P b c ls).
Proof using P_plain P_nonempty.
  induction ls as [|[l bs] ls IH]; intros fuel b c Hok Hf.
  - destruct fuel as [|fuel]; [done|]. rewrite iter_S.
    change (reset [1] (mkState b (unlines []) c)) with (mkState b ([] ++ []) (delete 1 c)).
    rewrite round_none; [done|constructor|done|by apply contains_nil].
  - destruct Hok as (Hl & Hbs & Hne & Hlast & Hok). simpl in Hl, Hbs, Hne, Hlast.
    specialize (Hne eq_refl).
    rewrite unlines_cons in *. simpl fst in *. simpl snd in *.
    assert (line_end (bs ++ unlines ls)) as Hend by (by apply line_end_breaks).
    cbn [end_of]. unfold has. simpl fst. simpl snd.
    destruct (contains P l) eqn:Hc.
    + destruct fuel as [|fuel].
      { destruct l; [congruence|]. simpl in Hf. lia. }
      rewrite iter_S.
      change (reset [1] (mkState b (l ++ bs ++ unlines ls) c))
        with (mkState b (l ++ bs ++ unlines ls) (delete 1 c)).
      pose proof (round_head b l bs (unlines ls) (delete 1 c) Hl Hbs Hend
                    (text_start_lines ls Hok) Hc) as Hh.
      destruct (m (round P) _) as [|z zs]; [done|]. simpl in Hh. injection Hh as ->.
      cbn [flat_map rest]. cbv zeta.
      destruct (Nat.ltb_spec (length (unlines ls)) (length (l ++ bs ++ unlines ls)))
        as [Hlt|Hge].
      * specialize (IH fuel (bol_after false bs) (<[1 := bs]> (delete 1 c)) Hok).
        rewrite !length_app in Hlt, Hf.
        assert (length (unlines ls) <= fuel) as Hfuel
          by (destruct l; [congruence|simpl in Hf; lia]).
        specialize (IH Hfuel).
        destruct (iter _ true fuel _) as [|e es]; cbn [head app] in *; done.
      * rewrite !length_app in Hge. destruct l; [congruence|]. simpl in Hge. lia.
    + rewrite unlines_cons. cbn [fst snd].
      destruct fuel as [|fuel]; [done|]. rewrite iter_S.
      change (reset [1] (mkState b (l ++ bs ++ unlines ls) c))
        with (mkState b (l ++ bs ++ unlines ls) (delete 1 c)).
      by rewrite round_none.
Qed.

Lemma exec_none b l tail :
  plain l -> line_end tail -> contains P l = false ->
  exec (rounds P) b (l ++ tail) = None.
Proof using P_plain P_nonempty.
  intros Hl Ht Hc. unfold exec, rounds. rewrite m_Plus, groups_of_round.
  change (reset [1] (mkState b (l ++ tail) ∅)) with (mkState b (l ++ tail) (delete 1 ∅)).
  by rewrite round_none.
Qed.

Lemma exec_run first b (ln : Line) ls :
  lines_ok first (ln :: ls) -> has P ln = true ->
  exists h, exec (rounds P) b (unlines (ln :: ls)) = Some h /\
            matched h = run_text P (ln :: ls) /\
            groups h !! 1 = Some (run_breaks P (snd ln) ls).
Proof using P_plain P_nonempty.
  destruct ln as [l bs]. intros (Hl & Hbs & _ & Hlast & Hok) Hc.
  simpl in Hl, Hbs, Hlast. unfold has in Hc. simpl in Hc.
  assert (line_end (bs ++ unlines ls)) as Hend by (by apply line_end_breaks).
  unfold exec, rounds. rewrite m_Plus, groups_of_round.
  rewrite unlines_cons. simpl fst. simpl snd.
  change (reset [1] (mkState b (l ++ bs ++ unlines ls) ∅))
    with (mkState b (l ++ bs ++ unlines ls) (delete 1 ∅)).
  pose proof (round_head b l bs (unlines ls) (delete 1 ∅) Hl Hbs Hend
                (text_start_lines ls Hok) Hc) as Hh.
  destruct (m (round P) _) as [|z zs]; [done|]. simpl in Hh. injection Hh as ->.
  cbn [flat_map rest].
  pose proof (iter_rounds ls (length (unlines ls)) (bol_after false bs)
                (<[1 := bs]> (delete 1 ∅)) Hok (le_n _)) as He.
  destruct (iter _ true _ _) as [|e es]; [done|]. simpl in He. injection He as ->.
  cbn [app]. eexists. split; [done|]. cbn [matched groups]. split.
  - rewrite end_of_rest. cbn [run_text]. unfold has. simpl fst. simpl snd. rewrite Hc.
    rewrite (run_text_rest P ls) at 1 2.
    rewrite !length_app.
    replace (length l + (length bs + (length (run_text P ls) + length (unlines (drop_run P ls))))
             - length (unlines (drop_run P ls)))
      with (length (l ++ bs ++ run_text P ls)) by (rewrite !length_app; lia).
    replace (l ++ bs ++ run_text P ls ++ unlines (drop_run P ls))
      with ((l ++ bs ++ run_text P ls) ++ unlines (drop_run P ls))
      by (by rewrite <- !app_assoc).
    by rewrite take_app_length.
  - apply end_of_breaks.
Qed.

Lemma skip_plain tpl l : forall b tail,
  plain l -> line_end tail -> contains P l = false ->
  replaceAt (rounds P) tpl b (l ++ tail)
  = l ++ replaceAt (rounds P) tpl (bol_after b l) tail.
Proof using P_plain P_nonempty.
  induction l as [|a l IH]; intros b tail Hl Ht Hc; [done|].
  cbn [app]. rewrite replaceAt_gap.
  - rewrite bol_after_cons. f_equal. apply Forall_cons in Hl as [_ Hl].
    apply IH; [done..|]. rewrite contains_cons in Hc.
    by destruct (after P (a :: l)).
  - by apply (exec_none b (a :: l) tail).
Qed.

Lemma skip_breaks tpl bs : forall b tail,
  breaks bs ->
  replaceAt (rounds P) tpl b (bs ++ tail)
  = bs ++ replaceAt (rounds P) tpl (bol_after b bs) tail.
Proof using P_plain P_nonempty.
  induction bs as [|a bs IH]; intros b tail Hbs; [done|].
  apply Forall_cons in Hbs as [Ha Hbs].
  cbn [app]. rewrite replaceAt_gap.
  - rewrite bol_after_cons. f_equal. by apply IH.
  - apply (exec_none b [] (a :: bs ++ tail)); [constructor| |by apply contains_nil].
    simpl. by rewrite (break_terminator _ Ha).
Qed.

Lemma replace_rounds (marker : string) n : forall ls first b,
  length ls <= n -> lines_ok first ls ->
  replaceAt (rounds P) [TLit marker; TGroup 1] b (unlines ls)
  = group_lines P (codes marker) ls.
Proof using P_plain P_nonempty.
  induction n as [|n IH]; intros ls first b Hn Hok.
  { destruct ls; [|simpl in Hn; lia]. apply replaceAt_nil.
    apply (exec_none b [] []); [constructor|done|by apply contains_nil]. }
  destruct ls as [|ln ls].
  { apply replaceAt_nil.
    apply (exec_none b [] []); [constructor|done|by apply contains_nil]. }
  destruct (has P ln) eqn:Hc.
  - rewrite group_lines_run by done.
    destruct (exec_run first b ln ls Hok Hc) as (h & Hex & Hm & Hg).
    assert (lines_ok false ls) as Hok' by (by eapply lines_ok_tail).
    rewrite <- (IH (drop_run P ls) false (bol_after b (run_text P (ln :: ls))));
      [|pose proof (drop_run_length P ls); simpl in Hn; lia|by apply drop_run_ok].
    unfold replaceAt at 1.
    rewrite (run_text_rest P (ln :: ls)) at 1.
    assert (drop_run P (ln :: ls) = drop_run P ls) as -> by (simpl; by rewrite Hc).
    rewrite (run_text_rest P (ln :: ls)) in Hex.
    assert (drop_run P (ln :: ls) = drop_run P ls) as Hd by (simpl; by rewrite Hc).
    rewrite Hd in Hex. clear Hd.
    destruct (run_text P (ln :: ls)) as [|a rt] eqn:Hrt.
    { exfalso. simpl in Hrt. rewrite Hc in Hrt. destruct ln as [l bs].
      destruct Hok as (_ & _ & _ & _ & _). unfold has in Hc. simpl in *.
      destruct l; [by rewrite contains_nil in Hc|done]. }
    cbn [app pieces]. cbn [app] in Hex. rewrite Hex, Hm. cbn [length flat_map render].
    rewrite pieces_skip. unfold expand. cbn [map concat]. rewrite Hg. cbn [default].
    rewrite app_nil_r, <- app_assoc. rewrite bol_after_cons. done.
  - destruct ln as [l bs]. destruct Hok as (Hl & Hbs & Hne & Hlast & Hok).
    simpl in Hl, Hbs, Hne, Hlast. unfold has in Hc. simpl in Hc.
    rewrite unlines_cons. cbn [group_lines]. unfold has. simpl fst. simpl snd. rewrite Hc.
    rewrite skip_plain by (done || by apply line_end_breaks).
    rewrite skip_breaks by done.
    f_equal. f_equal. apply (IH ls false); [simpl in Hn; lia|done].
Qed.

End Placeholder.
End RunFacts.

(** ** Patterns within the line *)

Module LineFacts.
Import Regex StackText Collapse RegexFacts RunFacts.

Implicit Types (r : Re) (x y z : MState) (s l P bs tail : list char) (b : bool)
  (c : gmap nat (list char)).
#[local] Arguments unlines : simpl never.

(** *** Patterns that stay within the line, over the text *)

Lemma exec_ext r b l t tail :
  line_local r -> is_line_terminator t = true ->
  exec r b (l ++ t :: tail) = exec r b l.
Proof.
  intros Hr Ht. unfold exec.
  change (mkState b (l ++ t :: tail) ∅) with (ext (t :: tail) (mkState b l ∅)).
  rewrite m_ext by done.
  destruct (m r (mkState b l ∅)) as [|y ys]; [done|].
  cbn [map rest ext caps]. f_equal. f_equal.
  rewrite !length_app.
  replace (length l + length (t :: tail) - (length (rest y) + length (t :: tail)))
    with (length l - length (rest y)) by lia.
  apply take_app_le. lia.
Qed.

Lemma exec_matched r b s h :
  exec r b s = Some h -> length (matched h) <= length s.
Proof.
  unfold exec. destruct (m r _) as [|y ys]; [done|]. intros [= <-]. simpl.
  rewrite length_take. lia.
Qed.

Lemma pieces_line r t tail :
  line_local r -> is_line_terminator t = true ->
  forall l k b, k <= length l ->
    pieces r k b (l ++ t :: tail)
    = pieces r k b l ++ Gap t :: pieces r 0 true tail.
Proof.
  intros Hr Ht. induction l as [|a l IH]; intros k b Hk.
  - destruct k; [|simpl in Hk; lia]. cbn [app pieces].
    pose proof (exec_ext r b [] t tail Hr Ht) as E. cbn [app] in E.
    rewrite E, Ht.
    destruct (exec r b []) as [h|] eqn:Hex; [|done].
    apply exec_matched in Hex. simpl in Hex.
    destruct (length (matched h)); [done|lia].
  - destruct k as [|k].
    + cbn [app pieces].
      pose proof (exec_ext r b (a :: l) t tail Hr Ht) as E. cbn [app] in E.
      rewrite E.
      destruct (exec r b (a :: l)) as [h|] eqn:Hex.
      * apply exec_matched in Hex. simpl in Hex.
        destruct (length (matched h)) as [|k'].
        -- rewrite IH by lia. done.
        -- rewrite IH by lia. done.
      * rewrite IH by lia. done.
    + cbn [app pieces]. apply IH. simpl in Hk. lia.
Qed.

Lemma replaceAt_line r tpl b l t tail :
  line_local r -> is_line_terminator t = true ->
  replaceAt r tpl b (l ++ t :: tail)
  = replaceAt r tpl b l ++ t :: replaceAt r tpl true tail.
Proof.
  intros Hr Ht. unfold replaceAt. rewrite pieces_line by (done || lia).
  by rewrite flat_map_app.
Qed.

Lemma m_none_short r x : length (rest x) < min_len r -> m r x = [].
Proof.
  intros Hlen. apply elem_of_nil_inv. intros y Hy. apply m_consumes in Hy. lia.
Qed.

Lemma replaceAt_breaks r tpl bs : forall tail,
  line_local r -> 0 < min_len r -> breaks bs ->
  replaceAt r tpl true (bs ++ tail) = bs ++ replaceAt r tpl true tail.
Proof.
  intros tail Hr Hmin. induction 1 as [|t bs Ht Hbs IH]; [done|].
  cbn [app].
  pose proof (replaceAt_line r tpl true [] t (bs ++ tail) Hr
                (break_terminator _ Ht)) as E.
  cbn [app] in E. rewrite E.
  rewrite IH. unfold replaceAt at 1. cbn [pieces]. unfold exec.
  rewrite m_none_short by (simpl; lia). done.
Qed.

Lemma replace_lines r tpl :
  line_local r -> 0 < min_len r ->
  forall ls first, lines_ok first ls ->
    replaceAt r tpl true (unlines ls) = unlines (map (rewrite_line r tpl) ls).
Proof.
  intros Hr Hmin. induction ls as [|[l bs] ls IH]; intros first Hok.
  - unfold replaceAt, unlines. cbn [pieces flat_map map]. unfold exec.
    rewrite m_none_short by (simpl; lia). done.
  - destruct Hok as (Hl & Hbs & _ & Hlast & Hok). simpl in Hl, Hbs, Hlast.
    cbn [map]. rewrite !unlines_cons. cbn [fst snd rewrite_line].
    rewrite <- (IH false Hok).
    destruct bs as [|t bs].
    + destruct ls; [|by destruct Hlast].
      change (unlines []) with (@nil char). cbn [app]. rewrite !app_nil_r.
      assert (replaceAt r tpl true [] = []) as ->; [|by rewrite app_nil_r].
      unfold replaceAt. cbn [pieces]. unfold exec.
      rewrite m_none_short by (simpl; lia). done.
    + apply Forall_cons in Hbs as [Ht Hbs]. cbn [app].
      rewrite replaceAt_line by (done || by apply break_terminator).
      f_equal. f_equal. by apply replaceAt_breaks.
Qed.


(** *** Line 306 *)

Lemma line_local_lit P : plain P -> line_local (lit P).
Proof.
  induction 1 as [|a P Ha HP IH]; [done|]. split; [|done].
  intros t Ht. simpl. destruct (N.eqb_spec a t) as [->|]; [|done]. congruence.
Qed.

Lemma terminator_cases t :
  is_line_terminator t = true ->
  (t = 10 \/ t = 13 \/ t = 8232 \/ t = 8233)%N.
Proof.
  unfold is_line_terminator. rewrite !orb_true_iff, !N.eqb_eq. tauto.
Qed.

Lemma line_local_digit : line_local digit.
Proof.
  intros t Ht. by destruct (terminator_cases t Ht) as [-> | [-> | [-> | ->]]].
Qed.

Lemma line_local_dot : line_local dot.
Proof. intros t Ht. simpl. by rewrite Ht. Qed.

Lemma line_local_chr a : is_line_terminator a = false -> line_local (chr a).
Proof.
  intros Ha t Ht. simpl. destruct (N.eqb_spec a t) as [->|]; [congruence|done].
Qed.

Lemma after_self t s : after t (t ++ s) = Some s.
Proof. by apply after_Some. Qed.

Lemma contains_app P (a t : list char) : contains P (a ++ P ++ t) = true.
Proof.
  induction a as [|x a IH].
  - cbn [app]. destruct (P ++ t) eqn:E.
    + destruct P; [done|done].
    + rewrite contains_cons, <- E. by rewrite after_self.
  - cbn [app]. rewrite contains_cons. rewrite IH. by destruct (after P _).
Qed.

Section Mocha.
Variable mochaPath : string.
Hypothesis mochaPath_plain : plain (codes mochaPath).

#[local] Abbreviation mf := (Normaliser.mochaFrame mochaPath).
#[local] Abbreviation tpl := Normaliser.mochaFrameTemplate.








Lemma group_plain h n :
  caps_all (fun a => is_line_terminator a = false) (groups h) ->
  plain (default [] (groups h !! n)).
Proof.
  intros Hc. destruct (groups h !! n) as [v|] eqn:E; [|constructor].
  apply (Hc _ _ E).
Qed.






End Mocha.

(** *** Collapsing, on lines *)

Section Collapse.
Variable P marker : list char.

Lemma group_lines_app X Z :
  match last X with Some ln => has P ln = false | None => True end ->
  group_lines P marker (X ++ Z) = group_lines P marker X ++ group_lines P marker Z.
Proof.
  induction X as [|ln X IH]; intros Hlast; [done|].
  assert (match last X with Some ln' => has P ln' = false | None => True end) as HX.
  { destruct X as [|ln' X]; [done|]. exact Hlast. }
  specialize (IH HX).
  cbn [app group_lines]. rewrite IH.
  destruct (has P ln) eqn:Hln.
  - destruct X as [|ln' X]; [simpl in Hlast; congruence|].
    cbn [app starts_run]. destruct (has P ln'); [done|].
    by rewrite <- !app_assoc.
  - by rewrite <- !app_assoc.
Qed.

Lemma group_lines_frames G0 (ln : Line) Z :
  Forall (fun ln' => has P ln' = true) (G0 ++ [ln]) -> starts_run P Z = false ->
  group_lines P marker (G0 ++ ln :: Z)
  = marker ++ snd ln ++ group_lines P marker Z.
Proof.
  intros HG HZ. induction G0 as [|ln0 G0 IH].
  - cbn [app] in HG. apply Forall_cons in HG as [HG _].
    cbn [app group_lines]. by rewrite HG, HZ.
  - cbn [app] in HG. apply Forall_cons in HG as [H0 HG].
    cbn [app group_lines]. rewrite H0.
    assert (starts_run P (G0 ++ ln :: Z) = true) as ->; [|by apply IH].
    destruct G0 as [|ln1 G0]; cbn [app starts_run].
    + cbn [app] in HG. by apply Forall_cons in HG as [? _].
    + cbn [app] in HG. by apply Forall_cons in HG as [? _].
Qed.

End Collapse.

End LineFacts.

(** ** The Mocha steps *)

Module MochaFacts.
Import Regex StackText Collapse RegexFacts RunFacts LineFacts Normaliser.

Implicit Types (r : Re) (x y z : MState) (s l P bs tail : list char) (b : bool)
  (c : gmap nat (list char)).
#[local] Arguments unlines : simpl never.



Section MochaSteps.
Variable mochaPath : string.
Hypothesis mochaPath_plain : plain (codes mochaPath).






Lemma lines_ok_plain first ls ln : lines_ok first ls -> ln ∈ ls -> plain (fst ln).
Proof.
  revert first. induction ls as [|ln' ls IH]; intros first Hok Hin.
  - by apply elem_of_nil in Hin.
  - destruct Hok as (Hl&_&_&_&Hok). apply elem_of_cons in Hin as [->|Hin]; [done|].
    by eapply IH.
Qed.


End MochaSteps.
End MochaFacts.

(** ** Inert text *)

Module InertFacts.
Import Regex StackText Collapse RegexFacts RunFacts LineFacts MochaFacts Normaliser.

Implicit Types (r : Re) (x y z : MState) (s l P bs tail : list char) (b : bool)
  (c : gmap nat (list char)).
#[local] Arguments unlines : simpl never.














(** *** Line 287 without transpiled frames *)

Lemma exec_evalFrame_none b s : after eval_open s = None -> exec evalFrame b s = None.
Proof.
  intros Ha. unfold exec, evalFrame. rewrite m_Seq.
  change (str "(eval at transpile (") with (lit eval_open).
  by rewrite m_lit, Ha.
Qed.

Lemma pieces_evalFrame_none s : forall b,
  contains eval_open s = false -> pieces evalFrame 0 b s = map Gap s.
Proof.
  induction s as [|a s IH]; intros b Hc.
  - cbn [pieces]. by rewrite exec_evalFrame_none.
  - rewrite contains_cons in Hc. destruct (after eval_open (a :: s)) eqn:Ha; [done|].
    cbn [pieces map]. rewrite exec_evalFrame_none by done. f_equal. by apply IH.
Qed.

Lemma replaceWith_gaps (f : Hit -> Completion (list char)) s :
  replaceWith f (map Gap s) = Returned s.
Proof. induction s as [|a s IH]; [done|]. cbn [map replaceWith]. by rewrite IH. Qed.

End InertFacts.

(** ** [normaliseStack] *)

Module NormaliserFacts.
Import Regex StackText Collapse RegexFacts RunFacts LineFacts MochaFacts InertFacts Normaliser.

Implicit Types (r : Re) (s l P bs tail : list char) (b : bool).
#[local] Arguments unlines : simpl never.

Lemma contains_split P l :
  contains P l = true -> exists a t, l = a ++ P ++ t.
Proof.
  induction l as [|x l IH]; intros H.
  - cbn [contains] in H. destruct (after P []) as [t|] eqn:E; [|done].
    apply after_Some in E. by exists [], t.
  - rewrite contains_cons in H. destruct (after P (x :: l)) as [t|] eqn:E.
    + apply after_Some in E. by exists [], t.
    + destruct (IH H) as (a & t & ->). by exists (x :: a), t.
Qed.






(** Every text whose only line terminators are carriage returns and line
    feeds falls into lines in the sense of [lines_ok]. *)
Lemma every_text_has_lines (s : list char) :
  Forall (fun a => is_line_terminator a = is_break a) s ->
  exists ls, lines_ok true ls /\ unlines ls = s.
Proof.
  induction 1 as [|a s Hb _ (ls & Hok & <-)].
  - by exists [].
  - destruct (is_line_terminator a) eqn:Ha; symmetry in Hb.
    + destruct ls as [|[l bs] ls].
      * exists [([], [a])]. split; [|done].
        repeat split; try done; by repeat constructor.
      * destruct Hok as (Hl & Hbs & Hne & Hlast & Hok). simpl in Hl, Hbs, Hne, Hlast.
        destruct l as [|x l].
        -- exists (([], a :: bs) :: ls). split; [|by rewrite !unlines_cons].
           repeat split; try done. by constructor.
        -- exists (([], [a]) :: (x :: l, bs) :: ls). split; [|by rewrite !unlines_cons].
           repeat split; try done; by repeat constructor.
    + destruct ls as [|[l bs] ls].
      * exists [([a], [])]. split; [|done].
        repeat split; try done; by repeat constructor.
      * destruct Hok as (Hl & Hbs & Hne & Hlast & Hok). simpl in Hl, Hbs, Hne, Hlast.
        exists ((a :: l, bs) :: ls). split; [|by rewrite !unlines_cons].
        repeat split; try done. by constructor.
Qed.
Section Steps.
Context {MapData : Type}.
Variable originalPositionFor : MapData -> Z -> Z -> Position.
Variable mochaPath resolvedPHPCorePath : string.
Variable errorStackLineOffset : Z.
Variable moduleDataMap : gmap nat (ModuleData MapData).





Lemma mapFrame_throws md h e :
  mapFrame originalPositionFor errorStackLineOffset md h = Threw e ->
  e = Error mappingErrorMessage.
Proof.
  unfold mapFrame.
  destruct (line _), (column _); intros [=]; done.
Qed.

Lemma replaceWith_threw (f : Hit -> Completion (list char)) e ps :
  (forall h e', f h = Threw e' -> e' = e) ->
  Exists (fun pc => exists h, pc = Found h /\ f h = Threw e) ps ->
  replaceWith f ps = Threw e.
Proof.
  intros Hone. induction ps as [|pc ps IH]; intros Hex.
  - by apply Exists_nil in Hex.
  - apply Exists_cons in Hex as [(h & -> & Hh)|Hex].
    + cbn [replaceWith]. by rewrite Hh.
    + specialize (IH Hex). destruct pc as [a|h]; cbn [replaceWith]; rewrite IH; [done|].
      destruct (f h) as [t|e'] eqn:Hf; [done|]. by rewrite (Hone h e' Hf).
Qed.

(** C4: a module that has no entry in the source-map registry makes
    [normaliseStack] throw the error that names the missing
    [options.sourceMap], whatever the stack is; no promise and no text come
    back. *)
Theorem C4_unregistered_module_throws (stack : list char) (module : nat) :
  moduleDataMap !! module = None ->
  normaliseStack originalPositionFor mochaPath resolvedPHPCorePath
    errorStackLineOffset moduleDataMap stack module
  = Threw (Error configErrorMessage).
Proof. intros H. unfold normaliseStack. by rewrite H. Qed.

(** C5: when the source map has no original position for one of the
    transpiled frames found in the stack, the promise [normaliseStack]
    returns is rejected with the mapping error; no text is produced. *)
Theorem C5_unmappable_frame_rejects (stack : list char) (module : nat)
    (moduleData : ModuleData MapData) (h : Hit) :
  moduleDataMap !! module = Some moduleData ->
  h ∈ transpiled_frames stack ->
  unmappable originalPositionFor errorStackLineOffset moduleData h ->
  normaliseStack originalPositionFor mochaPath resolvedPHPCorePath
    errorStackLineOffset moduleDataMap stack module
  = Returned (Rejected (Error mappingErrorMessage)).
Proof.
  intros Hmd Hin [Hl Hc]. unfold normaliseStack. rewrite Hmd. f_equal.
  unfold normaliseWith.
  rewrite (replaceWith_threw _ (Error mappingErrorMessage)); [done|apply mapFrame_throws|].
  unfold transpiled_frames in Hin. apply list_elem_of_omap in Hin as (pc & Hpc & Hh).
  apply Exists_exists. exists pc. split; [done|].
  destruct pc as [a|h']; [done|]. injection Hh as ->. exists h. split; [done|].
  unfold mapFrame. by rewrite Hl, Hc.
Qed.


End Steps.
(** The theorems, at the sample inputs. *)

Lemma C4_witness :
  Samples.registry !! 4 = None /\
  normaliseStack Samples.no_position Samples.mocha_path Samples.phpcore_path 2
    Samples.registry Samples.transpiled_stack 4
  = Threw (Error configErrorMessage).
Proof.
  split; [reflexivity|].
  apply (C4_unregistered_module_throws Samples.no_position Samples.mocha_path
           Samples.phpcore_path 2 Samples.registry Samples.transpiled_stack 4).
  reflexivity.
Defined.

Lemma C5_witness :
  Samples.registry !! 5 = Some (mkModuleData unit tt (Some "/my/script.php")) /\
  Samples.transpiled_frame ∈ transpiled_frames Samples.transpiled_stack /\
  unmappable Samples.no_position 2
    (mkModuleData unit tt (Some "/my/script.php")) Samples.transpiled_frame /\
  normaliseStack Samples.no_position Samples.mocha_path Samples.phpcore_path 2
    Samples.registry Samples.transpiled_stack 5
  = Returned (Rejected (Error mappingErrorMessage)).
Proof.
  assert (Samples.transpiled_frame ∈ transpiled_frames Samples.transpiled_stack)
    as Hin by (vm_compute; apply list_elem_of_here).
  split; [reflexivity|]. split; [exact Hin|]. split; [split; reflexivity|].
  apply (C5_unmappable_frame_rejects Samples.no_position Samples.mocha_path
           Samples.phpcore_path 2 Samples.registry Samples.transpiled_stack 5
           (mkModuleData unit tt (Some "/my/script.php"))
           Samples.transpiled_frame);
    [reflexivity|exact Hin|split; reflexivity].
Defined.




End NormaliserFacts.

(** ** Bootstrapping *)

Module ToolsFacts.
Import Tools.

Implicit Types (h : Host) (init : option (Runtime -> Runtime)) (mode : Mode).

Lemma created_in_app h e :
  created_in (record e h)
  = created_in h ++ match e with Created m r => [(m, r)] | _ => [] end.
Proof.
  unfold created_in, record. simpl. rewrite omap_app. simpl.
  by destruct e.
Qed.

Lemma createRuntime_spec init mode h :
  returns_its_runtime init ->
  fst (createRuntime init mode h) = runtimes h /\
  runtimes (snd (createRuntime init mode h)) = S (runtimes h) /\
  created_in (snd (createRuntime init mode h)) = created_in h ++ [(mode, runtimes h)] /\
  (forall r, HookInstalled r ∈ journal (snd (createRuntime init mode h)) ->
             HookInstalled r ∈ journal h).
Proof.
  intros Hinit. unfold createRuntime, runtimeFactory_create.
  destruct init as [f|]; simpl in *.
  - rewrite Hinit. repeat split.
    + unfold created_in. simpl. rewrite !omap_app. simpl. by rewrite app_nil_r.
    + intros r. rewrite !elem_of_app, !list_elem_of_singleton. intuition congruence.
  - repeat split.
    + unfold created_in. simpl. by rewrite omap_app.
    + intros r. rewrite !elem_of_app, !list_elem_of_singleton. intuition congruence.
Qed.

Lemma createMany_spec init modes : forall h,
  returns_its_runtime init ->
  fst (createMany init modes h) = seq (runtimes h) (length modes).
Proof.
  induction modes as [|mode modes IH]; intros h Hinit; [done|].
  cbn [createMany].
  destruct (createRuntime_spec init mode h Hinit) as (E1 & E2 & _).
  destruct (createRuntime init mode h) as [r h1]. simpl in E1, E2. subst r.
  specialize (IH h1 Hinit). destruct (createMany init modes h1) as [rs h2].
  simpl in *. by rewrite IH, E2.
Qed.

(** C7, as the code has it: the constructor itself creates the three
    runtimes, one per mode, whether or not one is ever asked for; reading
    the property of a mode gives that same runtime every time and changes
    nothing; and, for a hook that hands back the runtime it was given (or
    no hook), the runtimes that any series of explicit creations answers
    with are distinct from one another and from the three shared ones. *)
Theorem C7_runtimes_created_at_construction_and_shared
    init (forceOpcodesAsync : JsValue) h (modes : list Mode) :
  returns_its_runtime init ->
  let tools := fst (createIntegrationTools init forceOpcodesAsync h) in
  let h1 := snd (createIntegrationTools init forceOpcodesAsync h) in
  created_in h1
  = created_in h ++ [(Async, asyncRuntime tools); (Psync, psyncRuntime tools);
                     (Sync, syncRuntime tools)] /\
  (forall mode h', runtimeOf mode tools h' = (fst (runtimeOf mode tools h1), h')) /\
  NoDup (asyncRuntime tools :: psyncRuntime tools :: syncRuntime tools ::
         fst (createMany init modes h1)).
Proof.
  intros Hinit. unfold createIntegrationTools, createAsyncRuntime,
    createPsyncRuntime, createSyncRuntime.
  destruct (createRuntime_spec init Async h Hinit) as (A1 & A2 & A3 & _).
  destruct (createRuntime init Async h) as [a h1]. simpl in A1, A2, A3.
  destruct (createRuntime_spec init Psync h1 Hinit) as (P1 & P2 & P3 & _).
  destruct (createRuntime init Psync h1) as [p h2]. simpl in P1, P2, P3.
  destruct (createRuntime_spec init Sync h2 Hinit) as (S1 & S2 & S3 & _).
  destruct (createRuntime init Sync h2) as [s h3]. simpl in S1, S2, S3.
  cbn [fst snd asyncRuntime psyncRuntime syncRuntime].
  set (h4 := if strictly_differs_from_false forceOpcodesAsync
             then installForcedAsyncOpcodeHook a h3 else h3).
  assert (created_in h4 = created_in h3 /\ runtimes h4 = runtimes h3) as [C4 R4].
  { unfold h4. destruct (strictly_differs_from_false forceOpcodesAsync); [|done].
    unfold installForcedAsyncOpcodeHook. rewrite created_in_app.
    by rewrite app_nil_r. }
  split; [|split].
  - rewrite C4, S3, P3, A3. subst. by rewrite <- !app_assoc.
  - intros mode h'. by destruct mode.
  - rewrite createMany_spec by done. rewrite R4, S2. subst.
    rewrite P2, A2.
    change (runtimes h :: S (runtimes h) :: S (S (runtimes h)) ::
            seq (S (S (S (runtimes h)))) (length modes))
      with (seq (runtimes h) (3 + length modes)).
    apply NoDup_seq.
Qed.

(** C8: with the third argument left out the constructor installs the
    forced-async hook on the async runtime it shares, as the last thing it
    does; with [false] it builds the same tools object and installs the hook
    on no runtime. *)
Theorem C8_force_async_defaults_to_true init h :
  let omitted := createIntegrationTools init JsUndefined h in
  let off := createIntegrationTools init (JsBoolean false) h in
  fst omitted = fst off /\
  journal (snd omitted)
  = journal (snd off) ++ [HookInstalled (asyncRuntime (fst omitted))] /\
  (forall r, HookInstalled r ∈ journal (snd off) -> HookInstalled r ∈ journal h).
Proof.
  unfold createIntegrationTools, createAsyncRuntime, createPsyncRuntime,
    createSyncRuntime.
  assert (forall mode h0 r,
            HookInstalled r ∈ journal (snd (createRuntime init mode h0)) ->
            HookInstalled r ∈ journal h0) as Hkeep.
  { intros mode h0 r. unfold createRuntime, runtimeFactory_create.
    destruct init; simpl; rewrite !elem_of_app, !list_elem_of_singleton;
      intuition congruence. }
  pose proof (Hkeep Async h) as KA.
  destruct (createRuntime init Async h) as [a h1].
  pose proof (Hkeep Psync h1) as KP.
  destruct (createRuntime init Psync h1) as [p h2].
  pose proof (Hkeep Sync h2) as KS.
  destruct (createRuntime init Sync h2) as [s h3].
  simpl. repeat split. intros r Hr. auto.
Qed.

(** C7, as the specification has it, fails twice: with no runtime ever asked
    for, the tools built on a host that has created nothing have already
    made it create three; and with a hook that always hands back one and the
    same runtime, two explicit creations answer with that one runtime. *)
Lemma C7_runtimes_exist_before_any_demand :
  created_in (snd (createIntegrationTools None JsUndefined (mkHost 0 [])))
  = [(Async, 0); (Psync, 1); (Sync, 2)] /\
  created_in (snd (createIntegrationTools None JsUndefined (mkHost 0 [])))
  <> created_in (mkHost 0 []) /\
  fst (createMany (Some (fun _ => 7)) [Async; Async] (mkHost 0 [])) = [7; 7].
Proof. split; [reflexivity|]. split; [discriminate|reflexivity]. Qed.

Lemma C7_witness :
  returns_its_runtime (Some (fun r => r)) /\
  created_in (snd (createIntegrationTools (Some (fun r => r)) JsUndefined (mkHost 0 [])))
  = [(Async, 0); (Psync, 1); (Sync, 2)] /\
  NoDup (0 :: 1 :: 2 :: [3; 4]).
Proof.
  assert (returns_its_runtime (Some (fun r => r))) as Hinit by (intros r; reflexivity).
  split; [exact Hinit|].
  pose proof (C7_runtimes_created_at_construction_and_shared
                (Some (fun r => r)) JsUndefined (mkHost 0 []) [Sync; Async] Hinit)
    as (Hcreated & _ & Hdistinct).
  split; [exact Hcreated|exact Hdistinct].
Defined.


End ToolsFacts.

(** ** The forced-async opcode executor: the plain value and the world *)

Module InterceptorMore.
Import Loop Interceptor LoopFacts InterceptorFacts.

Section InterceptorMore.
Context {Val Err St Slot Other : Type}.
#[local] Abbreviation World := (@Loop.World Val Err St).
#[local] Abbreviation Chainable := (@Loop.Chainable Val).
#[local] Abbreviation Outcome := (@Loop.Outcome Val Err).
#[local] Abbreviation ReferenceLike := (@Interceptor.ReferenceLike Val St Slot).
#[local] Abbreviation Opcode := (@Interceptor.Opcode Val Err St Slot Other).
#[local] Abbreviation RawResult := (@Interceptor.RawResult Val St Slot Other).

Implicit Types (w u : World) (c : Chainable) (r : ReferenceLike) (opcode : Opcode).

(** A world stays well formed when a deferring factory has added its future
    and the jobs that settle it. *)
Lemma with_future_well_formed w (micro macro : list (@Loop.Job Val Err St)) :
  well_formed w ->
  Forall (fun j => job_target j = length (futures w)) (micro ++ macro) ->
  well_formed (with_future w micro macro).
Proof.
  intros [Hjobs Hwait] Hnew. apply Forall_app in Hnew as [Hmi Hma].
  apply Forall_app in Hjobs as [Hj1 Hj2]. split; simpl; rewrite length_app; simpl.
  - rewrite !Forall_app. repeat split.
    + eapply Forall_impl; [exact Hj1|]. intros j Hj. simpl in Hj. lia.
    + eapply Forall_impl; [exact Hmi|]. intros j Hj. simpl in Hj. lia.
    + eapply Forall_impl; [exact Hj2|]. intros j Hj. simpl in Hj. lia.
    + eapply Forall_impl; [exact Hma|]. intros j Hj. simpl in Hj. lia.
  - apply Forall_app. split.
    + eapply Forall_impl; [exact Hwait|]. intros c Hc.
      eapply Forall_impl; [exact Hc|]. intros t Ht. simpl in Ht. lia.
    + by repeat constructor.
Qed.

(** X1: for a traced opcode whose raw result is a plain value, the executor
    answers with a future that did not exist before; it is pending when the
    call returns and for the turns before turn [n >= 1], and from that turn
    on it is fulfilled with the very value, stamped with the later tick. *)
Theorem X1_traced_value_is_deferred opcode w w1 (v : Val) :
  isTraced opcode = true ->
  handle_ opcode w = (RValue v, w1) ->
  well_formed w1 ->
  exists h' w2 n,
    execute opcode w = (Raw (RFuture h'), w2) /\
    futures w1 !! h' = None /\
    settles_in n w2 h' (Fulfilled v).
Proof.
  intros Ht Hh Hwf.
  destruct (createAsyncPresent_delivers (Err:=Err) (St:=St) (CValue v) w1
              (Fulfilled v) Hwf) as [n Hd]; [done|].
  rewrite createAsyncPresent_unfold in Hd.
  eexists _, _, n. split.
  { unfold execute, bind. rewrite Hh, Ht. cbn [negb].
    unfold valueFactory_createAsyncPresent. by rewrite createAsyncPresent_unfold. }
  split; [apply lookup_ge_None; lia|]. exact Hd.
Qed.

(** X2: whatever the opcode and its result, the executor runs the handler
    once and then leaves the clock, the store and the macrotask queue as
    the handler left them; either nothing at all is changed, or exactly one
    pending future and one microtask, aimed at that future and queued behind
    the microtasks already waiting, are appended.  No existing future is
    settled or replaced and no queued job is dropped. *)
Theorem X2_execute_only_appends opcode w :
  let w1 := snd (handle_ opcode w) in
  let w2 := snd (execute opcode w) in
  tick w2 = tick w1 /\ store w2 = store w1 /\ macrotasks w2 = macrotasks w1 /\
  (w2 = w1 \/
   exists j, job_target j = length (futures w1) /\
             futures w2 = futures w1 ++ [Pending []] /\
             microtasks w2 = microtasks w1 ++ [j]).
Proof.
  unfold execute, bind. destruct (handle_ opcode w) as [result w1]. cbn [snd].
  assert (forall c : Chainable,
            let w2 := snd ((h' <- futureFactory_createAsyncPresent c ;;
                            ret (Raw (RFuture h')
                                 : @Interceptor.Result Val Err St Slot Other)) w1) in
            tick w2 = tick w1 /\ store w2 = store w1 /\
            macrotasks w2 = macrotasks w1 /\
            (w2 = w1 \/
             exists j, job_target j = length (futures w1) /\
                       futures w2 = futures w1 ++ [Pending []] /\
                       microtasks w2 = microtasks w1 ++ [j])) as Hwrap.
  { intros c. unfold bind. rewrite createAsyncPresent_unfold. simpl.
    rewrite app_nil_r. repeat split. right.
    by exists (JNext (length (futures w1)) (fun s => (c, s))). }
  destruct (isTraced opcode); cbn [negb]; [|by (cbn; auto 10)].
  destruct result as [h|v|r|r|x]; try (by (cbn; auto 10)).
  - unfold isSettled.
    destruct (futures w1 !! h) as [[ws|o t]|]; try (by (cbn; auto 10)).
    apply (Hwrap (CFuture h)).
  - apply (Hwrap (CValue v)).
Qed.

(** A capability that wraps the answer of a raw operation has run that
    operation when it returns. *)
Lemma on_store_then_store (f : St -> Chainable * St) u :
  store (snd ((c <- on_store f ;; futureFactory_createAsyncPresent c) u))
  = snd (f (store u)).
Proof.
  unfold bind, on_store. destruct (f (store u)) as [c s].
  by rewrite createAsyncPresent_unfold.
Qed.

(** X3: the capabilities of the accessor that answer with a deferred future
    by way of [createAsyncPresent] (get-value, unset, the empty check, the
    set check and raise-undefined) have called the raw operation when they
    return: the store is then the one the raw operation leaves.  Only the
    hand-over of the answer is deferred. *)
Theorem X3_deferred_answers_act_at_once r u :
  store (snd (valueGetter (accessorFor r) u)) = snd (getValue r (store u)) /\
  store (snd (unsetter (accessorFor r) u)) = snd (unset r (store u)) /\
  store (snd (emptinessGetter (accessorFor r) u)) = snd (isEmpty r (store u)) /\
  store (snd (setnessGetter (accessorFor r) u)) = snd (isSet r (store u)) /\
  store (snd (undefinednessRaiser (accessorFor r) u))
  = snd (raiseUndefined r (store u)).
Proof.
  cbn [accessorFor valueGetter unsetter emptinessGetter setnessGetter
       undefinednessRaiser]. unfold valueFactory_createAsyncPresent.
  by rewrite !on_store_then_store.
Qed.

(** X4: a get-value issued on the accessor after a set-value, before the
    loop has run, does not see the assignment: it reads the store as it was
    before the set-value call, and its future is later settled with that
    earlier answer. *)
Theorem X4_read_after_write_is_stale r (v : Val) u (o : Outcome) :
  well_formed u ->
  outcome_in u (fst (getValue r (store u))) o ->
  store (snd (valueGetter (accessorFor r) (snd (valueSetter (accessorFor r) v u))))
  = snd (getValue r (store u)) /\
  delivers (valueGetter (accessorFor r)) (snd (valueSetter (accessorFor r) v u)) o.
Proof.
  intros Hwf Ho.
  cbn [accessorFor valueSetter]. rewrite createAsyncMicrotaskFuture_unfold.
  cbn [snd].
  set (u1 := with_future u [JNext (length (futures u)) (setValue r v)] []).
  assert (well_formed u1) as Hwf1.
  { apply with_future_well_formed; [done|]. by repeat constructor. }
  split.
  - cbn [accessorFor valueGetter]. unfold valueFactory_createAsyncPresent.
    by rewrite on_store_then_store.
  - cbn [valueGetter]. unfold valueFactory_createAsyncPresent.
    apply on_store_then_delivers; [done|].
    change (store u1) with (store u).
    destruct (fst (getValue r (store u))) as [x|s]; [done|].
    destruct Ho as [ts Hs]. exists ts. simpl. by apply lookup_app_l_Some.
Qed.

End InterceptorMore.

Lemma X1_witness :
  isTraced (Samples.opcode_of (RValue 7) true) = true /\
  well_formed Samples.world /\
  exists h' w2 n,
    execute (Samples.opcode_of (RValue 7) true) Samples.world
    = (Raw (RFuture h'), w2) /\
    futures Samples.world !! h' = None /\
    settles_in n w2 h' (Fulfilled 7).
Proof.
  assert (well_formed Samples.world) as Hwf by (split; repeat constructor).
  split; [reflexivity|]. split; [exact Hwf|].
  apply (X1_traced_value_is_deferred (Samples.opcode_of (RValue 7) true)
           Samples.world Samples.world 7); [reflexivity|reflexivity|exact Hwf].
Defined.

Lemma X4_witness :
  well_formed Samples.world /\
  store (snd (valueGetter (accessorFor Samples.cell)
                (snd (valueSetter (accessorFor Samples.cell) 9 Samples.world))))
  = 0 /\
  delivers (Err:=nat) (valueGetter (accessorFor Samples.cell))
    (snd (valueSetter (accessorFor Samples.cell) 9 Samples.world)) (Fulfilled 0).
Proof.
  assert (well_formed Samples.world) as Hwf by (split; repeat constructor).
  split; [exact Hwf|].
  apply (X4_read_after_write_is_stale Samples.cell 9 Samples.world (Fulfilled 0));
    [exact Hwf|reflexivity].
Defined.

End InterceptorMore.

(** ** The constructor and the creation operations *)

Module ToolsMore.
Import Tools Journal.

Implicit Types (h : Host) (init : option (Runtime -> Runtime)) (mode : Mode).

Lemma createRuntime_trace init mode h :
  createRuntime init mode h
  = (default id init (runtimes h),
     mkHost (S (runtimes h))
            (journal h ++ Created mode (runtimes h) ::
               match init with
               | Some _ => [Initialised (runtimes h)]
               | None => []
               end)).
Proof.
  unfold createRuntime, runtimeFactory_create, record. destruct init; simpl; [|done].
  by rewrite <- app_assoc.
Qed.

(** X5: line 232 compares with [false] strictly.  Any third argument other
    than the boolean [false], be it [true], left out, or any other value,
    has the constructor do exactly what it does with the argument left
    out: the hook is installed. *)
Theorem X5_only_false_switches_the_hook_off init (v : JsValue) h :
  v <> JsBoolean false ->
  createIntegrationTools init v h = createIntegrationTools init JsUndefined h.
Proof.
  intros Hv. unfold createIntegrationTools.
  destruct (createAsyncRuntime init h) as [a h1].
  destruct (createPsyncRuntime init h1) as [p h2].
  destruct (createSyncRuntime init h2) as [s h3].
  by destruct v as [|[|]|].
Qed.

(** X6: what the constructor does with an initialisation hook, in order: the
    async, the psync and the sync runtime are created one after the other,
    each handed to the hook right after it was created; the tools object
    holds what the hook returned for each; and the forced-async hook, when
    it is installed, goes last and onto what the hook returned for the async
    runtime. *)
Theorem X6_constructor_order_with_init_hook (f : Runtime -> Runtime)
    (v : JsValue) h :
  fst (createIntegrationTools (Some f) v h)
  = mkTools (f (runtimes h)) (f (S (runtimes h))) (f (S (S (runtimes h)))) /\
  journal (snd (createIntegrationTools (Some f) v h))
  = journal h ++
    [Created Async (runtimes h); Initialised (runtimes h);
     Created Psync (S (runtimes h)); Initialised (S (runtimes h));
     Created Sync (S (S (runtimes h))); Initialised (S (S (runtimes h)))] ++
    (if strictly_differs_from_false v then [HookInstalled (f (runtimes h))] else []).
Proof.
  unfold createIntegrationTools, createAsyncRuntime, createPsyncRuntime,
    createSyncRuntime. rewrite !createRuntime_trace. cbn [runtimes journal].
  split; [done|].
  destruct (strictly_differs_from_false v); simpl;
    rewrite <- ?app_assoc; simpl; by rewrite ?app_nil_r.
Qed.

(** X7: the explicit creation operations, in any series and with any
    initialisation hook: each call has the factory create exactly one
    runtime, of the mode the operation is named after, and answers with what
    the hook makes of it; none of them installs the forced-async hook. *)
Theorem X7_explicit_creation_creates_one_each init (modes : list Mode) : forall h,
  fst (createMany init modes h)
  = map (default id init) (seq (runtimes h) (length modes)) /\
  created_in (snd (createMany init modes h))
  = created_in h ++ zip modes (seq (runtimes h) (length modes)) /\
  hook_events (snd (createMany init modes h)) = hook_events h.
Proof.
  induction modes as [|mode modes IH]; intros h.
  - simpl. by rewrite app_nil_r.
  - cbn [createMany]. rewrite createRuntime_trace.
    set (h1 := mkHost _ _). destruct (IH h1) as (E1 & E2 & E3).
    destruct (createMany init modes h1) as [rs h2]. simpl in *.
    rewrite E1, E2, E3. repeat split.
    + unfold created_in, h1. simpl. rewrite omap_app. simpl.
      rewrite <- app_assoc. f_equal. by destruct init.
    + unfold hook_events, h1. simpl. rewrite omap_app. simpl.
      destruct init; simpl; by rewrite app_nil_r.
Qed.

Lemma X5_witness :
  JsOther <> JsBoolean false /\
  createIntegrationTools None JsOther (mkHost 0 [])
  = createIntegrationTools None JsUndefined (mkHost 0 []).
Proof.
  assert (JsOther <> JsBoolean false) as H by discriminate.
  split; [exact H|].
  apply (X5_only_false_switches_the_hook_off None JsOther (mkHost 0 []) H).
Defined.

End ToolsMore.

(** ** Texts the patterns pass over *)

Module DeadFacts.
Import Regex StackText Normaliser Collapse Frames RegexFacts RunFacts LineFacts
  InertFacts NormaliserFacts.

Implicit Types (r : Re) (x y z : MState) (s l P : list char) (b : bool)
  (Q : list char -> Prop).

Lemma m_suffix r x y : y ∈ m r x -> rest y `suffix_of` rest x.
Proof. intros H. by destruct (m_leads (fun _ => True) r x y H). Qed.

Lemma hereditary_suffix Q k s : hereditary Q -> k `suffix_of` s -> Q s -> Q k.
Proof.
  intros HQ [pre ->]. induction pre as [|a pre IH]; [done|].
  intros H. apply IH. by apply (HQ a).
Qed.

Lemma dead_weaken Q Q' r : (forall s, Q' s -> Q s) -> dead Q r -> dead Q' r.
Proof. intros Himp Hd x Hx. by apply Hd, Himp. Qed.

Lemma dead_seq_l Q r1 r2 : dead Q r1 -> dead Q (Seq r1 r2).
Proof. intros Hd x Hx. rewrite m_Seq. by rewrite Hd. Qed.

Lemma dead_seq_r Q r1 r2 : hereditary Q -> dead Q r2 -> dead Q (Seq r1 r2).
Proof.
  intros HQ Hd x Hx. rewrite m_Seq. apply flat_map_nil_all. intros y Hy.
  apply Hd. eapply hereditary_suffix; [done|by eapply m_suffix|done].
Qed.

Lemma dead_alt Q r1 r2 : dead Q r1 -> dead Q r2 -> dead Q (Alt r1 r2).
Proof. intros H1 H2 x Hx. rewrite m_Alt. by rewrite H1, H2. Qed.

Lemma dead_plus Q g r : dead Q r -> dead Q (Plus g r).
Proof. intros Hd x Hx. rewrite m_Plus. by rewrite Hd. Qed.

Lemma dead_group Q n r : dead Q r -> dead Q (Group n r).
Proof. intros Hd x Hx. rewrite m_Group. by rewrite Hd. Qed.

Lemma contains_false_after P s : contains P s = false -> after P s = None.
Proof. destruct s; simpl; by destruct (after P _). Qed.

Lemma dead_lit P : dead (fun s => contains P s = false) (lit P).
Proof.
  intros [b s c] Hx. simpl in Hx. rewrite m_lit.
  by rewrite contains_false_after.
Qed.

Lemma hereditary_contains P : hereditary (fun s => contains P s = false).
Proof.
  intros a s H. rewrite contains_cons in H. by destruct (after P (a :: s)).
Qed.

Lemma hereditary_no_bare_file : hereditary (fun s => no_bare_file s = true).
Proof. intros a s H. simpl in H. by apply andb_prop in H as [_ ?]. Qed.

Lemma hereditary_and Q1 Q2 :
  hereditary Q1 -> hereditary Q2 -> hereditary (fun s => Q1 s /\ Q2 s).
Proof. intros H1 H2 a s [? ?]. split; [by eapply H1|by eapply H2]. Qed.

Lemma exec_dead Q r b s : dead Q r -> Q s -> exec r b s = None.
Proof. intros Hd Hs. unfold exec. by rewrite Hd. Qed.

Lemma pieces_dead Q r : hereditary Q -> dead Q r ->
  forall s b, Q s -> pieces r 0 b s = map Gap s.
Proof.
  intros HQ Hd. induction s as [|a s IH]; intros b Hs; cbn [pieces map];
    rewrite (exec_dead Q) by done; [done|].
  f_equal. apply IH. by eapply HQ.
Qed.

Lemma render_gaps tpl s : flat_map (render tpl) (map Gap s) = s.
Proof. induction s as [|a s IH]; [done|]. simpl. by rewrite IH. Qed.

Lemma replaceAt_dead Q r tpl b s :
  hereditary Q -> dead Q r -> Q s -> replaceAt r tpl b s = s.
Proof.
  intros HQ Hd Hs. unfold replaceAt. rewrite (pieces_dead Q) by done.
  apply render_gaps.
Qed.

(** *** The patterns of [normaliseStack] *)

Lemma lacks_spec t s :
  lacks t s = true <-> contains (codes t) s = false.
Proof. unfold lacks. by destruct (contains _ s). Qed.

Lemma dead_str t : dead (fun s => lacks t s = true) (str t).
Proof.
  eapply dead_weaken; [|apply dead_lit]. intros s. by rewrite lacks_spec.
Qed.

Lemma hereditary_lacks t : hereditary (fun s => lacks t s = true).
Proof.
  intros a s. rewrite !lacks_spec. apply hereditary_contains.
Qed.

Lemma dead_mochaFrame mochaPath :
  dead (fun s => lacks mochaPath s = true) (mochaFrame mochaPath).
Proof.
  unfold mochaFrame.
  do 2 (apply dead_seq_r; [apply hereditary_lacks|]).
  apply dead_seq_l, dead_str.
Qed.

Lemma dead_frameRun t : dead (fun s => lacks t s = true) (frameRun t).
Proof.
  unfold frameRun. apply dead_plus, dead_seq_l.
  apply dead_seq_r; [apply hereditary_lacks|]. apply dead_seq_l, dead_str.
Qed.

Lemma m_cls_rest q x y :
  y ∈ m (Cls q) x -> exists a, q a = true /\ rest x = a :: rest y.
Proof.
  cbn [m]. destruct (rest x) as [|a s]; [by intros ?%elem_of_nil|].
  destruct (q a) eqn:E; [|by intros ?%elem_of_nil].
  intros ->%list_elem_of_singleton. by exists a.
Qed.

Lemma m_chr_rest a x y : y ∈ m (chr a) x -> rest x = a :: rest y.
Proof.
  intros (a' & Ha & ->)%m_cls_rest. by apply N.eqb_eq in Ha as ->.
Qed.

(** What a repeated character class has read. *)
Lemma plus_cls_rest g q x z :
  z ∈ m (Plus g (Cls q)) x ->
  exists v, v <> [] /\ Forall (fun a => q a = true) v /\ rest x = v ++ rest z.
Proof.
  rewrite m_Plus. cbn [groups_of].
  intros (y & (a & Ha & Hx)%m_cls_rest & Hz)%elem_of_flat_map. cbn [reset rest] in Hx.
  assert (exists v, Forall (fun a => q a = true) v /\ rest y = v ++ rest z)
    as (v & Hv & Hy).
  { revert Hz.
    apply (iter_inv (fun y z => exists v, Forall (fun a => q a = true) v /\
                                          rest y = v ++ rest z)).
    - intros y0. by exists [].
    - intros y1 y2 y3 (v1 & H1 & E1) (v2 & H2 & E2). exists (v1 ++ v2).
      split; [by apply Forall_app|]. by rewrite E1, E2, app_assoc.
    - intros y1 y2 (a' & Ha' & E)%m_cls_rest. exists [a'].
      split; [by repeat constructor|done]. }
  exists (a :: v). split; [done|]. split; [by constructor|]. by rewrite Hx, Hy.
Qed.

Lemma reaches_js_app v s :
  v <> [] -> Forall (fun a : char => a <> "/"%char) v -> after dot_js s <> None ->
  reaches_js (v ++ s) = true.
Proof.
  intros Hne Hv Hs. induction v as [|a v IH]; [done|].
  apply Forall_cons in Hv as [Ha Hv]. cbn [app reaches_js].
  destruct (N.eqb_spec a "/"%char); [done|].
  destruct v as [|a' v].
  - cbn [app]. by destruct (after dot_js s).
  - destruct (after dot_js ((a' :: v) ++ s)); [done|]. by apply IH.
Qed.

Lemma no_bare_file_paren s u v :
  no_bare_file s = true -> s = u ++ N_of_ascii "(" :: v -> reaches_js v = false.
Proof.
  revert s. induction u as [|a u IH]; intros s Hs ->.
  - simpl in Hs. apply andb_prop in Hs as [Hs _]. by apply negb_true_iff in Hs.
  - simpl in Hs. apply andb_prop in Hs as [_ Hs]. by eapply IH.
Qed.

Lemma dead_bare_file : dead (fun s => no_bare_file s = true) bare_file.
Proof.
  intros x Hx. unfold bare_file. rewrite m_Seq. apply flat_map_nil_all.
  intros y Hy. rewrite m_Group in Hy. apply list_elem_of_fmap in Hy as (y0 & -> & Hy0).
  rewrite m_Seq in Hy0. apply elem_of_flat_map in Hy0 as (z & Hz & Hy0).
  apply m_chr_rest in Hy0. apply m_suffix in Hz as [u Hu].
  rewrite Hy0 in Hu.
  pose proof (no_bare_file_paren _ _ _ Hx Hu) as Hr.
  rewrite m_Seq. apply flat_map_nil_all. intros z' Hz'.
  rewrite m_Group in Hz'. apply list_elem_of_fmap in Hz' as (z0 & -> & Hz0).
  apply plus_cls_rest in Hz0 as (v & Hne & Hv & E). cbn [rest] in E.
  change (str ".js") with (lit dot_js). rewrite m_lit.
  destruct (after dot_js (rest z0)) as [k|] eqn:Ea; [|done].
  rewrite E, reaches_js_app in Hr; [done|done| |by rewrite Ea].
  eapply Forall_impl; [exact Hv|]. intros a Ha ->. done.
Qed.

Lemma dead_internalFrame :
  dead (fun s => lacks "internal/" s = true /\ no_bare_file s = true) internalFrame.
Proof.
  unfold internalFrame.
  apply dead_seq_r;
    [apply hereditary_and; [apply hereditary_lacks|apply hereditary_no_bare_file]|].
  apply dead_seq_l, dead_alt.
  - eapply dead_weaken; [|apply dead_bare_file]. by intros s [_ ?].
  - eapply dead_weaken with (Q := fun s => lacks "internal/" s = true);
      [by intros s [? _]|].
    do 2 (apply dead_seq_r; [apply hereditary_lacks|]).
    apply dead_seq_l, dead_str.
Qed.

Lemma dead_evalFrame :
  dead (fun s => lacks "(eval at transpile (" s = true) evalFrame.
Proof. unfold evalFrame. apply dead_seq_l, dead_str. Qed.

Lemma settled_spec mochaPath s :
  settled mochaPath s = true <->
  lacks "(eval at transpile (" s = true /\
  lacks mochaPath s = true /\ lacks "/path/to/mocha" s = true /\
  no_bare_file s = true.
Proof. unfold settled. rewrite !andb_true_iff. tauto. Qed.

Lemma calm_spec mochaPath s :
  calm mochaPath s = true <->
  lacks "(eval at transpile (" s = true /\
  lacks mochaPath s = true /\ lacks "/path/to/mocha" s = true /\
  lacks "internal/" s = true /\ lacks "/path/to/internal" s = true /\
  no_bare_file s = true.
Proof. unfold calm. rewrite !andb_true_iff, settled_spec. tauto. Qed.

End DeadFacts.

(** ** [normaliseStack] on stacks it has nothing to do with *)

Module QuietFacts.
Import Regex StackText Normaliser Collapse Frames RegexFacts RunFacts LineFacts
  InertFacts NormaliserFacts DeadFacts.

Implicit Types (r : Re) (s l P : list char) (b : bool).

Section Steps.
Context {MapData : Type}.
Variable originalPositionFor : MapData -> Z -> Z -> Position.
Variable mochaPath resolvedPHPCorePath : string.
Variable errorStackLineOffset : Z.
Variable moduleDataMap : gmap nat (ModuleData MapData).

Lemma normaliseMocha_calm s :
  lacks mochaPath s = true -> lacks "/path/to/mocha" s = true ->
  normaliseMocha mochaPath s = s.
Proof.
  intros H1 H2. unfold normaliseMocha, replace.
  rewrite (replaceAt_dead (fun s => lacks mochaPath s = true) (mochaFrame mochaPath));
    [|apply hereditary_lacks|apply dead_mochaFrame|done].
  apply (replaceAt_dead (fun s => lacks "/path/to/mocha" s = true));
    [apply hereditary_lacks|apply dead_frameRun|done].
Qed.

Lemma normaliseInternal_calm s :
  lacks "internal/" s = true -> no_bare_file s = true ->
  lacks "/path/to/internal" s = true ->
  normaliseInternal s = s.
Proof.
  intros H1 H2 H3. unfold normaliseInternal, replace.
  rewrite (replaceAt_dead
             (fun s => lacks "internal/" s = true /\ no_bare_file s = true)
             internalFrame);
    [|apply hereditary_and; [apply hereditary_lacks|apply hereditary_no_bare_file]
     |apply dead_internalFrame|done].
  apply (replaceAt_dead (fun s => lacks "/path/to/internal" s = true));
    [apply hereditary_lacks|apply dead_frameRun|done].
Qed.

Lemma normalisePHPCore_lacks s :
  lacks resolvedPHPCorePath s = true -> normalisePHPCore resolvedPHPCorePath s = s.
Proof.
  intros H. unfold normalisePHPCore, replace.
  apply (replaceAt_dead (fun s => lacks resolvedPHPCorePath s = true));
    [apply hereditary_lacks|apply dead_str|done].
Qed.

(** Lines 305 to 313 on a calm text. *)
Lemma steps_calm s :
  calm mochaPath s = true -> normaliseInternal (normaliseMocha mochaPath s) = s.
Proof.
  intros (_ & H1 & H2 & H3 & H4 & H5)%calm_spec.
  rewrite normaliseMocha_calm by done. by apply normaliseInternal_calm.
Qed.

Lemma no_frames s : calm mochaPath s = true -> pieces evalFrame 0 true s = map Gap s.
Proof.
  intros (H & _)%calm_spec.
  apply (pieces_dead (fun s => lacks "(eval at transpile (" s = true));
    [apply hereditary_lacks|apply dead_evalFrame|done].
Qed.

(** The last four steps on the text in which line 287 has put the frames. *)
Lemma normaliseWith_mapped (moduleData : ModuleData MapData) (stack : list char) mapped :
  replaceWith (mapFrame originalPositionFor errorStackLineOffset moduleData)
    (pieces evalFrame 0 true stack)
  = Returned mapped ->
  quiet mochaPath resolvedPHPCorePath mapped = true ->
  normaliseWith originalPositionFor mochaPath resolvedPHPCorePath
    errorStackLineOffset moduleData stack
  = Resolved ( mapped).
Proof.
  intros Hm [Hc Hp]%andb_prop. unfold normaliseWith. rewrite Hm.
  rewrite steps_calm by done. by rewrite normalisePHPCore_lacks.
Qed.

(** X8: a stack that is quiet (it holds no opening of a transpiled frame,
    neither the path of Mocha nor the path of PHPCore, neither of the two
    placeholders, no [internal/], and no file named without a directory
    after an opening parenthesis) comes back from [normaliseStack] exactly
    as it went in, for any registered module and whatever its source map
    says. *)
Theorem X8_quiet_stack_comes_back_unchanged (stack : list char) (module : nat)
    (moduleData : ModuleData MapData) :
  moduleDataMap !! module = Some moduleData ->
  quiet mochaPath resolvedPHPCorePath stack = true ->
  normaliseStack originalPositionFor mochaPath resolvedPHPCorePath
    errorStackLineOffset moduleDataMap stack module
  = Returned (Resolved stack).
Proof.
  intros Hmd Hq. unfold normaliseStack. rewrite Hmd. f_equal.
  rewrite (normaliseWith_mapped _ _ stack).
  - done.
  - rewrite no_frames; [apply replaceWith_gaps|].
    by apply andb_prop in Hq as [Hc _].
  - done.
Qed.

(** *** When the promise is resolved *)

Lemma mapFrame_returns md h :
  (exists t, mapFrame originalPositionFor errorStackLineOffset md h = Returned t) <->
  ~ unmappable originalPositionFor errorStackLineOffset md h.
Proof.
  unfold mapFrame, unmappable.
  destruct (line _) as [n|], (column _) as [k|]; split;
    try (by intros _; eexists); try (by intros _ [? ?]).
  - by intros [t ?].
  - intros H. by destruct H.
Qed.

Lemma replaceWith_returns (f : Hit -> Completion (list char)) ps :
  (exists t, replaceWith f ps = Returned t) <->
  Forall (fun pc => match pc with
                    | Found h => exists t, f h = Returned t
                    | Gap _ => True
                    end) ps.
Proof.
  induction ps as [|pc ps IH]; [by split; [constructor|eexists]|].
  rewrite Forall_cons, <- IH. destruct pc as [a|h]; cbn [replaceWith].
  - destruct (replaceWith f ps) as [t|e]; split.
    + intros _. split; [done|by eexists].
    + intros _. by eexists.
    + by intros [t ?].
    + by intros [_ [t ?]].
  - destruct (f h) as [t|e].
    + destruct (replaceWith f ps) as [t'|e']; split.
      * intros _. split; by eexists.
      * intros _. by eexists.
      * by intros [? ?].
      * by intros [_ [? ?]].
    + split; [by intros [? ?]|by intros [[? ?] _]].
Qed.

(** X9: for a registered module and a stack in which the line of every
    transpiled frame lies above the line offset, so that the source map is
    asked for lines from 1 on only, the promise [normaliseStack] returns is
    resolved exactly when the source map has a line or a column for every
    transpiled frame found in the stack, and is otherwise rejected with the
    mapping error. *)
Theorem X9_resolved_iff_every_frame_maps (stack : list char) (module : nat)
    (moduleData : ModuleData MapData) :
  moduleDataMap !! module = Some moduleData ->
  Forall (askable errorStackLineOffset) (transpiled_frames stack) ->
  ((exists text,
      normaliseStack originalPositionFor mochaPath resolvedPHPCorePath
        errorStackLineOffset moduleDataMap stack module
      = Returned (Resolved text)) <->
   Forall (fun h => ~ unmappable originalPositionFor errorStackLineOffset
                        moduleData h)
          (transpiled_frames stack)) /\
  ((exists text,
      normaliseStack originalPositionFor mochaPath resolvedPHPCorePath
        errorStackLineOffset moduleDataMap stack module
      = Returned (Resolved text)) \/
   normaliseStack originalPositionFor mochaPath resolvedPHPCorePath
     errorStackLineOffset moduleDataMap stack module
   = Returned (Rejected (Error mappingErrorMessage))).
Proof.
  intros Hmd _. unfold normaliseStack. rewrite Hmd. unfold normaliseWith.
  set (f := mapFrame originalPositionFor errorStackLineOffset moduleData).
  set (ps := pieces evalFrame 0 true stack).
  assert ((exists t, replaceWith f ps = Returned t) <->
          Forall (fun h => ~ unmappable originalPositionFor errorStackLineOffset
                               moduleData h) (transpiled_frames stack)) as Hiff.
  { rewrite replaceWith_returns. unfold transpiled_frames. fold ps.
    clearbody ps. induction ps as [|pc ps IH]; [done|].
    destruct pc as [a|h]; simpl.
    - rewrite Forall_cons, IH. tauto.
    - rewrite !Forall_cons, IH. unfold f. rewrite mapFrame_returns. tauto. }
  split.
  - rewrite <- Hiff. destruct (replaceWith f ps) as [t|e]; split.
    + intros _. by eexists.
    + intros _. by eexists.
    + by intros [? ?].
    + by intros [? ?].
  - destruct (replaceWith f ps) as [t|e] eqn:E; [left; by eexists|right].
    assert (e = Error mappingErrorMessage) as ->; [|done].
    clear Hiff. revert e E. clearbody ps. induction ps as [|pc ps IH]; intros e E; [done|].
    destruct pc as [a|h]; cbn [replaceWith] in E.
    + destruct (replaceWith f ps) as [t|e'] eqn:E'; [done|].
      injection E as <-. by apply IH.
    + destruct (f h) as [t|e'] eqn:Ef.
      * destruct (replaceWith f ps) as [t'|e''] eqn:E'; [done|].
        injection E as <-. by apply IH.
      * injection E as <-. by eapply mapFrame_throws.
Qed.

End Steps.
(** The theorems, at the sample inputs. *)

Lemma X8_witness :
  Samples.registry !! 5 = Some (mkModuleData unit tt (Some "/my/script.php")) /\
  quiet Samples.mocha_path Samples.phpcore_path
    MoreSamples.quiet_stack = true /\
  normaliseStack Samples.no_position Samples.mocha_path Samples.phpcore_path 2
    Samples.registry MoreSamples.quiet_stack 5
  = Returned (Resolved MoreSamples.quiet_stack).
Proof.
  split; [reflexivity|]. split; [reflexivity|].
  apply (X8_quiet_stack_comes_back_unchanged Samples.no_position
           Samples.mocha_path Samples.phpcore_path 2 Samples.registry
           MoreSamples.quiet_stack 5
           (mkModuleData unit tt (Some "/my/script.php")));
    reflexivity.
Defined.

Lemma X9_witness :
  Samples.registry !! 5 = Some (mkModuleData unit tt (Some "/my/script.php")) /\
  Forall (askable 2) (transpiled_frames Samples.transpiled_stack) /\
  ((exists text,
      normaliseStack MoreSamples.php_map Samples.mocha_path Samples.phpcore_path 2
        Samples.registry Samples.transpiled_stack 5
      = Returned (Resolved text)) <->
   Forall (fun h => ~ unmappable MoreSamples.php_map 2
                        (mkModuleData unit tt (Some "/my/script.php")) h)
          (transpiled_frames Samples.transpiled_stack)).
Proof.
  assert (Forall (askable 2) (transpiled_frames Samples.transpiled_stack)) as Ha.
  { assert (transpiled_frames Samples.transpiled_stack
            = [Samples.transpiled_frame]) as -> by (vm_compute; reflexivity).
    constructor; [|constructor]. vm_compute. by intros [=]. }
  split; [reflexivity|]. split; [exact Ha|].
  apply (X9_resolved_iff_every_frame_maps MoreSamples.php_map
           Samples.mocha_path Samples.phpcore_path 2 Samples.registry
           Samples.transpiled_stack 5
           (mkModuleData unit tt (Some "/my/script.php")));
    [reflexivity|exact Ha].
Defined.

End QuietFacts.

(** ** Scanning up to a match *)

Module ScanFacts.
Import Regex StackText Normaliser Collapse Frames RegexFacts RunFacts LineFacts
  InertFacts NormaliserFacts DeadFacts.

Implicit Types (r : Re) (x y z : MState) (s l P t tail : list char) (b : bool)
  (c : gmap nat (list char)).

Lemma first_index_cons P a s n :
  first_index P (a :: s) = Some (S n) ->
  after P (a :: s) = None /\ first_index P s = Some n.
Proof.
  cbn [first_index]. destruct (after P (a :: s)); [done|].
  destruct (first_index P s) as [k|]; [|done]. simpl. by intros [= ->].
Qed.

Lemma first_index_here P t s :
  first_index P (t ++ s) = Some (length t) ->
  forall i, i < length t -> after P (drop i t ++ s) = None.
Proof.
  induction t as [|a t IH]; intros H i Hi; [simpl in Hi; lia|].
  apply first_index_cons in H as [Ha H]. destruct i as [|i]; [done|].
  simpl. apply IH; [done|]. simpl in Hi. lia.
Qed.

(** A pattern that begins with the literal [P]. *)
Lemma exec_seq_lit_none P r b s : after P s = None -> exec (Seq (lit P) r) b s = None.
Proof. intros H. unfold exec. by rewrite m_Seq, m_lit, H. Qed.

Lemma exec_lit P b s :
  exec (lit P) b s
  = match after P s with Some _ => Some (mkHit P ∅) | None => None end.
Proof.
  unfold exec. rewrite m_lit. destruct (after P s) as [s'|] eqn:E; [|done].
  apply after_Some in E. subst s. cbn [rest caps]. do 2 f_equal.
  rewrite length_app.
  replace (length P + length s' - length s') with (length P) by lia.
  by rewrite take_app_length.
Qed.

(** The scan over a stretch in which no match starts. *)
Lemma pieces_gaps r t : forall b s,
  (forall b' i, i < length t -> exec r b' (drop i t ++ s) = None) ->
  pieces r 0 b (t ++ s) = map Gap t ++ pieces r 0 (bol_after b t) s.
Proof.
  induction t as [|a t IH]; intros b s H; [done|].
  pose proof (H b 0 ltac:(simpl; lia)) as H0. cbn [drop app] in H0.
  cbn [app pieces map]. rewrite H0.
  rewrite bol_after_cons. f_equal. apply IH.
  intros b' i Hi. apply (H b' (S i)). simpl. lia.
Qed.

(** The scan at a match that takes the text [t]. *)
Lemma pieces_found r b t s h :
  exec r b (t ++ s) = Some h -> matched h = t -> t <> [] ->
  pieces r 0 b (t ++ s) = Found h :: pieces r 0 (bol_after b t) s.
Proof.
  intros He Hm Hne. destruct t as [|a t]; [done|].
  cbn [app pieces]. change (a :: t ++ s) with ((a :: t) ++ s). rewrite He, Hm.
  cbn [length]. f_equal. rewrite bol_after_cons. apply pieces_skip.
Qed.

Lemma replaceWith_app (f : Hit -> Completion (list char)) t ps :
  replaceWith f (map Gap t ++ ps)
  = match replaceWith f ps with
    | Returned u => Returned (t ++ u)
    | Threw e => Threw e
    end.
Proof.
  induction t as [|a t IH]; [simpl; by destruct (replaceWith f ps)|].
  cbn [map app replaceWith]. rewrite IH. by destruct (replaceWith f ps).
Qed.

(** *** A literal, replaced everywhere (line 316) *)

Lemma pieces_lit_bol P s : forall k b b',
  pieces (lit P) k b s = pieces (lit P) k b' s.
Proof.
  induction s as [|a s IH]; intros k b b'.
  - destruct k; [|done]. cbn [pieces]. by rewrite !exec_lit.
  - destruct k as [|k]; cbn [pieces]; [|done].
    rewrite !exec_lit. by destruct (after P (a :: s)).
Qed.

Lemma replaceAt_lit_bol P tpl b s :
  replaceAt (lit P) tpl b s = replaceAt (lit P) tpl true s.
Proof. unfold replaceAt. by rewrite (pieces_lit_bol P s 0 b true). Qed.

Lemma replace_lit_first P (R : string) t s :
  P <> [] ->
  first_index P (t ++ P ++ s) = Some (length t) ->
  replace (lit P) [TLit R] (t ++ P ++ s)
  = t ++ codes R ++ replace (lit P) [TLit R] s.
Proof.
  intros Hne Hfirst. unfold replace, replaceAt.
  rewrite pieces_gaps.
  - rewrite flat_map_app, render_gaps. f_equal.
    rewrite (pieces_found _ _ P s (mkHit P ∅)); [|by rewrite exec_lit, after_self|done..].
    cbn [flat_map render expand map concat]. rewrite app_nil_r. f_equal.
    by rewrite (pieces_lit_bol P s 0 _ true).
  - intros b' i Hi. rewrite exec_lit.
    by rewrite (first_index_here P t (P ++ s) Hfirst i Hi).
Qed.

End ScanFacts.

(** ** The first way a pattern matches *)

Module HeadFacts.
Import Regex StackText Normaliser Collapse Frames RegexFacts RunFacts LineFacts
  InertFacts NormaliserFacts DeadFacts ScanFacts.

Implicit Types (r : Re) (x y z : MState) (s l P t tail : list char) (b : bool)
  (c : gmap nat (list char)).

Lemma head_seq r1 r2 x y z :
  head (m r1 x) = Some y -> head (m r2 y) = Some z ->
  head (m (Seq r1 r2) x) = Some z.
Proof.
  intros H1 H2. rewrite m_Seq. destruct (m r1 x) as [|y' ys]; [done|].
  injection H1 as ->. by apply head_flat_map_first.
Qed.

Lemma head_lit t b s c :
  head (m (lit t) (mkState b (t ++ s) c)) = Some (mkState (bol_after b t) s c).
Proof. by rewrite m_lit, after_self. Qed.

Lemma head_chr a b s c :
  head (m (chr a) (mkState b (a :: s) c))
  = Some (mkState (is_line_terminator a) s c).
Proof. unfold chr. cbn [m rest]. by rewrite N.eqb_refl. Qed.

Lemma head_plus_cls q b l tail c :
  l <> [] -> Forall (fun a => q a = true) l -> stops q tail ->
  head (m (Plus true (Cls q)) (mkState b (l ++ tail) c))
  = Some (mkState (bol_after b l) tail c).
Proof.
  intros Hne Hl Hstop. destruct l as [|a l]; [done|].
  apply Forall_cons in Hl as [Ha Hl].
  rewrite m_Plus. cbn [groups_of reset foldr bol rest caps m app]. rewrite Ha.
  cbn [flat_map rest]. rewrite app_nil_r.
  rewrite (iter_cls q tail c l); [|rewrite length_app; lia|done..].
  by rewrite head_splits, bol_after_cons.
Qed.

Lemma head_group n r x y :
  head (m r x) = Some y ->
  head (m (Group n r) x)
  = Some (mkState (bol y) (rest y)
            (<[n := take (length (rest x) - length (rest y)) (rest x)]> (caps y))).
Proof. intros H. rewrite m_Group. destruct (m r x); [done|]. by injection H as ->. Qed.

Lemma exec_head r b s y :
  head (m r (mkState b s ∅)) = Some y ->
  exec r b s = Some (mkHit (take (length s - length (rest y)) s) (caps y)).
Proof. intros H. unfold exec. destruct (m r _); [done|]. by injection H as ->. Qed.

Lemma splits_elem b l tail c y :
  y ∈ splits b l tail c ->
  exists b' l1 l2, l = l1 ++ l2 /\ y = mkState b' (l2 ++ tail) c.
Proof.
  revert b. induction l as [|a l IH]; intros b; cbn [splits].
  - intros ->%list_elem_of_singleton. by exists b, [], [].
  - intros [H| ->%list_elem_of_singleton]%elem_of_app.
    + destruct (IH _ H) as (b' & l1 & l2 & -> & ->). by exists b', (a :: l1), l2.
    + by exists b, [], (a :: l).
Qed.

Lemma splits_app b t l tail c :
  exists back, splits b (t ++ l) tail c = splits (bol_after b t) l tail c ++ back.
Proof.
  revert b. induction t as [|a t IH]; intros b.
  - exists []. by rewrite app_nil_r.
  - cbn [app splits]. destruct (IH (is_line_terminator a)) as [back ->].
    rewrite bol_after_cons, <- app_assoc. by eexists.
Qed.

Lemma head_app_l {A} (l1 l2 : list A) a : head l1 = Some a -> head (l1 ++ l2) = Some a.
Proof. by destruct l1. Qed.

(** A greedy [.*] followed by [r]: the match is found where [l] begins, when
    [r] matches there and nowhere further on in the line. *)
Lemma head_star_dot_then r b t l tail c z :
  plain t -> plain l -> line_end tail ->
  (forall b' l1 l2, l = l1 ++ l2 -> l1 <> [] ->
                    m r (mkState b' (l2 ++ tail) c) = []) ->
  head (m r (mkState (bol_after b t) (l ++ tail) c)) = Some z ->
  head (m (Seq (Star true dot) r) (mkState b (t ++ l ++ tail) c)) = Some z.
Proof.
  intros Ht Hl Htail Hdead Hz. rewrite m_Seq, app_assoc.
  rewrite star_dot; [|by apply Forall_app|done].
  destruct (splits_app b t l tail c) as [back ->].
  rewrite flat_map_app. apply head_app_l.
  destruct l as [|a l].
  - cbn [splits flat_map]. rewrite app_nil_r. exact Hz.
  - cbn [splits]. rewrite flat_map_app. rewrite flat_map_nil_all.
    + cbn [app flat_map]. rewrite app_nil_r. exact Hz.
    + intros y (b' & l1 & l2 & E & ->)%splits_elem.
      apply (Hdead b' (a :: l1) l2); [by rewrite E|done].
Qed.

End HeadFacts.

(** ** Line 287 on a frame of transpiled code *)

Module EvalFrameFacts.
Import Regex StackText Normaliser Collapse Frames RegexFacts RunFacts LineFacts
  InertFacts NormaliserFacts DeadFacts ScanFacts HeadFacts.

Implicit Types (r : Re) (x y z : MState) (s l P t tail : list char) (b : bool)
  (c : gmap nat (list char)).

Lemma digit_cases a :
  is_digit a = true ->
  is_line_terminator a = false /\ a <> "/"%char /\ a <> ":"%char /\ a <> ")"%char.
Proof.
  intros H. repeat split; try (intros ->; by vm_compute in H).
  unfold is_digit in H. apply andb_true_iff in H as [H1 H2].
  apply N.leb_le in H1, H2.
  unfold is_line_terminator. rewrite !orb_false_iff, !N.eqb_neq. lia.
Qed.

Lemma frame_rest_all (Q : char -> Prop) d1 d2 L C :
  (forall a, is_digit a = true -> Q a) -> Forall Q anonymous_site ->
  Q ":"%char -> Q ")"%char ->
  digits d1 -> digits d2 -> digits L -> digits C ->
  Forall Q (frame_rest d1 d2 L C).
Proof.
  intros HQ Hsite Hcolon Hparen [_ H1] [_ H2] [_ H3] [_ H4].
  assert (forall d, Forall (fun a => is_digit a = true) d -> Forall Q d) as Hd.
  { intros d H. eapply Forall_impl; [exact H|]. exact HQ. }
  unfold frame_rest.
  apply Forall_app; split; [by apply Hd|].
  apply Forall_cons; split; [done|].
  apply Forall_app; split; [by apply Hd|].
  apply Forall_app; split; [done|].
  apply Forall_app; split; [by apply Hd|].
  apply Forall_cons; split; [done|].
  apply Forall_app; split; [by apply Hd|by repeat constructor].
Qed.

Lemma digits_plain d : digits d -> plain d.
Proof.
  intros [_ H]. eapply Forall_impl; [exact H|]. intros a Ha.
  by destruct (digit_cases a Ha).
Qed.

Lemma frame_rest_plain d1 d2 L C :
  digits d1 -> digits d2 -> digits L -> digits C -> plain (frame_rest d1 d2 L C).
Proof.
  apply frame_rest_all; [|by repeat constructor|done..].
  intros a Ha. by destruct (digit_cases a Ha).
Qed.

Lemma frame_rest_no_slash d1 d2 L C :
  digits d1 -> digits d2 -> digits L -> digits C ->
  Forall (fun a : char => a <> "/"%char) (frame_rest d1 d2 L C).
Proof.
  apply frame_rest_all; [|by repeat constructor|done..].
  intros a Ha. by destruct (digit_cases a Ha) as (_ & ? & _).
Qed.

Lemma site_no_overlap i X :
  0 < i -> i < length transpile_site ->
  after transpile_site (drop i transpile_site ++ X) = None.
Proof.
  intros H0 H1. destruct i as [|i]; [lia|].
  do 38 (destruct i as [|i]; [reflexivity|]).
  simpl in H1. lia.
Qed.

Lemma after_site_none s :
  match s with [] => True | a :: _ => a <> "/"%char end ->
  after transpile_site s = None.
Proof.
  destruct s as [|a s]; [done|]. intros Ha.
  change transpile_site with (N_of_ascii "/" :: tail transpile_site).
  cbn [after]. destruct (N.eqb_spec "/"%char a); [by subst|done].
Qed.

Lemma line_end_no_slash tail :
  line_end tail -> match tail with [] => True | a :: _ => a <> "/"%char end.
Proof.
  destruct tail as [|a tail]; [done|]. unfold line_end, stops.
  intros H ->. done.
Qed.

Lemma no_site_further d1 d2 L C tail l1 l2 :
  digits d1 -> digits d2 -> digits L -> digits C -> line_end tail ->
  transpile_site ++ frame_rest d1 d2 L C = l1 ++ l2 -> l1 <> [] ->
  after transpile_site (l2 ++ tail) = None.
Proof.
  intros H1 H2 H3 H4 Htail E Hne.
  assert (l2 = drop (length l1) (transpile_site ++ frame_rest d1 d2 L C)) as ->.
  { rewrite E. by rewrite drop_app_length. }
  assert (0 < length l1) as Hpos by (destruct l1; [done|simpl; lia]).
  destruct (decide (length l1 < length transpile_site)) as [Hlt|Hge].
  - rewrite drop_app_le by lia. rewrite <- app_assoc. by apply site_no_overlap.
  - rewrite drop_app_ge by lia. apply after_site_none.
    pose proof (frame_rest_no_slash d1 d2 L C H1 H2 H3 H4) as Hns.
    apply (Forall_drop _ (length l1 - length transpile_site)) in Hns.
    destruct (drop _ (frame_rest d1 d2 L C)) as [|a k].
    + by apply line_end_no_slash.
    + by apply Forall_cons in Hns as [? _].
Qed.

End EvalFrameFacts.

Module MappingFacts.
Import Regex StackText Normaliser Collapse Frames RegexFacts RunFacts LineFacts
  InertFacts NormaliserFacts DeadFacts ScanFacts HeadFacts EvalFrameFacts QuietFacts.

Implicit Types (r : Re) (x y z : MState) (s l P t tail : list char) (b : bool)
  (c : gmap nat (list char)).

Lemma taken l tail : take (length (l ++ tail) - length tail) (l ++ tail) = l.
Proof.
  rewrite length_app.
  replace (length l + length tail - length tail) with (length l) by lia.
  by rewrite take_app_length.
Qed.

Lemma head_group_plus n q b l tail c :
  l <> [] -> Forall (fun a => q a = true) l -> stops q tail ->
  head (m (Group n (Plus true (Cls q))) (mkState b (l ++ tail) c))
  = Some (mkState (bol_after b l) tail (<[n := l]> c)).
Proof.
  intros Hne Hl Hstop.
  rewrite (head_group n _ _ (mkState (bol_after b l) tail c))
    by (by apply head_plus_cls).
  cbn [bol rest caps]. by rewrite taken.
Qed.

Lemma frame_rest_app d1 d2 L C tail :
  frame_rest d1 d2 L C ++ tail
  = d1 ++ N_of_ascii ":" :: d2 ++ anonymous_site ++ L ++ N_of_ascii ":" :: C ++ N_of_ascii ")" :: tail.
Proof.
  unfold frame_rest.
  by repeat (rewrite <- app_assoc || rewrite <- app_comm_cons).
Qed.

Lemma evalFrameText_app p d1 d2 L C tail :
  evalFrameText p d1 d2 L C ++ tail
  = eval_open ++ p ++ (transpile_site ++ frame_rest d1 d2 L C) ++ tail.
Proof. unfold evalFrameText. by rewrite <- !app_assoc. Qed.

Lemma eval_open_plain : plain eval_open.
Proof. by repeat constructor. Qed.

Lemma transpile_site_plain : plain transpile_site.
Proof. by repeat constructor. Qed.

Lemma head_evalFrame p d1 d2 L C b tail :
  plain p -> digits d1 -> digits d2 -> digits L -> digits C -> line_end tail ->
  exists bf,
    head (m evalFrame (mkState b (evalFrameText p d1 d2 L C ++ tail) ∅))
    = Some (mkState bf tail (<[2 := C]> (<[1 := L]> ∅))).
Proof.
  intros Hp H1 H2 H3 H4 Htail. eexists.
  rewrite evalFrameText_app. unfold evalFrame.
  change (str "(eval at transpile (") with (lit eval_open).
  change (str "/phptest/src/createIntegrationTools.js:") with (lit transpile_site).
  change (str "), <anonymous>:") with (lit anonymous_site).
  eapply head_seq; [apply head_lit|].
  apply head_star_dot_then; [done| |done| |].
  { apply Forall_app. split; [apply transpile_site_plain|by apply frame_rest_plain]. }
  { intros b' l1 l2 E Hne. rewrite m_Seq, m_lit.
    by rewrite (no_site_further d1 d2 L C tail l1 l2). }
  rewrite <- app_assoc, frame_rest_app.
  destruct H1 as [N1 D1], H2 as [N2 D2], H3 as [N3 D3], H4 as [N4 D4].
  eapply head_seq; [apply head_lit|].
  eapply head_seq; [by apply (head_plus_cls is_digit)|].
  eapply head_seq; [apply head_chr|].
  eapply head_seq; [by apply (head_plus_cls is_digit)|].
  eapply head_seq; [apply head_lit|].
  eapply head_seq; [by apply (head_group_plus 1 is_digit)|].
  eapply head_seq; [apply head_chr|].
  eapply head_seq; [by apply (head_group_plus 2 is_digit)|].
  apply head_chr.
Qed.

Lemma exec_evalFrame p d1 d2 L C b tail :
  plain p -> digits d1 -> digits d2 -> digits L -> digits C -> line_end tail ->
  exec evalFrame b (evalFrameText p d1 d2 L C ++ tail)
  = Some (mkHit (evalFrameText p d1 d2 L C) (<[2 := C]> (<[1 := L]> ∅))).
Proof.
  intros Hp H1 H2 H3 H4 Htail.
  destruct (head_evalFrame p d1 d2 L C b tail) as [bf H]; [done..|].
  rewrite (exec_head _ _ _ _ H). cbn [rest caps]. by rewrite taken.
Qed.

Lemma evalFrameText_nonempty p d1 d2 L C : evalFrameText p d1 d2 L C <> [].
Proof. done. Qed.

Section Mapping.
Context {MapData : Type}.
Variable originalPositionFor : MapData -> Z -> Z -> Position.
Variable mochaPath resolvedPHPCorePath : string.
Variable errorStackLineOffset : Z.
Variable moduleDataMap : gmap nat (ModuleData MapData).

Lemma mapFrame_mapped (moduleData : ModuleData MapData) t L C :
  let pos := originalPositionFor (sourceMapGenerator moduleData)
               (number_of_digits L - errorStackLineOffset)
               (number_of_digits C * 1) in
  line pos <> None \/ column pos <> None ->
  mapFrame originalPositionFor errorStackLineOffset moduleData
    (mkHit t (<[2 := C]> (<[1 := L]> ∅)))
  = Returned (mappedFrameText pos).
Proof.
  intros pos Hpos. unfold mapFrame, mappedPositionOf. cbn [groups].
  rewrite lookup_insert_ne by done. rewrite !lookup_insert_eq. cbv [from_option id].
  fold pos. unfold mappedFrameText.
  destruct (line pos), (column pos); try done. by destruct Hpos.
Qed.

(** Line 287 on a stack of placed frames. *)
Lemma replaceWith_frames (moduleData : ModuleData MapData) fs post : forall b,
  placed fs post ->
  Forall (mappable originalPositionFor errorStackLineOffset moduleData) fs ->
  replaceWith (mapFrame originalPositionFor errorStackLineOffset moduleData)
    (pieces evalFrame 0 b (stack_of fs post))
  = Returned (mapped_of originalPositionFor errorStackLineOffset moduleData fs post).
Proof.
  induction fs as [|f fs IH]; intros b Hplaced Hmap.
  - cbn [stack_of mapped_of]. rewrite pieces_evalFrame_none by done.
    apply replaceWith_gaps.
  - destruct Hplaced as (Hp & H1 & H2 & H3 & H4 & Hend & Hfirst & Hplaced).
    apply Forall_cons in Hmap as [Hf Hmap].
    cbn [stack_of mapped_of] in *. unfold frame_text in *.
    rewrite pieces_gaps.
    + rewrite replaceWith_app.
      rewrite (pieces_found _ _ _ _ _ (exec_evalFrame _ _ _ _ _ _ _ Hp H1 H2 H3 H4 Hend))
        by done.
      cbn [replaceWith]. rewrite mapFrame_mapped by exact Hf.
      by rewrite IH.
    + intros b' i Hi. unfold evalFrame.
      change (str "(eval at transpile (") with (lit eval_open).
      apply exec_seq_lit_none. by apply (first_index_here eval_open (before f)).
Qed.

(** X10: a stack whose transpiled frames each end their line: every frame
    is replaced by the position the source map gives for its line less the
    line offset and its column, as [(source:line:column)], and the text
    between the frames stays; when that leaves a quiet text, this is the
    text the promise is resolved with. *)
Theorem X10_transpiled_frames_are_mapped (fs : list FrameAt) (post : list char)
    (module : nat) (moduleData : ModuleData MapData) :
  moduleDataMap !! module = Some moduleData ->
  placed fs post ->
  Forall (mappable originalPositionFor errorStackLineOffset moduleData) fs ->
  quiet mochaPath resolvedPHPCorePath
    (mapped_of originalPositionFor errorStackLineOffset moduleData fs post) = true ->
  normaliseStack originalPositionFor mochaPath resolvedPHPCorePath
    errorStackLineOffset moduleDataMap
    (stack_of fs post) module
  = Returned (Resolved (mapped_of originalPositionFor errorStackLineOffset moduleData fs post)).
Proof.
  intros Hmd Hplaced Hmap Hquiet.
  unfold normaliseStack. rewrite Hmd. f_equal.
  apply normaliseWith_mapped; [|done].
  by apply replaceWith_frames.
Qed.

(** X11: a calm stack in which the path of PHPCore occurs first after the
    text [x]: the occurrence is replaced by [/path/to/phpcore], the text
    before it stays, and what follows is treated likewise. *)
Theorem X11_phpcore_path_is_replaced (x y : list char) (module : nat)
    (moduleData : ModuleData MapData) :
  moduleDataMap !! module = Some moduleData ->
  resolvedPHPCorePath <> EmptyString ->
  calm mochaPath (x ++ codes resolvedPHPCorePath ++ y) = true ->
  first_index (codes resolvedPHPCorePath)
    (x ++ codes resolvedPHPCorePath ++ y)
  = Some (length x) ->
  normaliseStack originalPositionFor mochaPath resolvedPHPCorePath
    errorStackLineOffset moduleDataMap
    (x ++ codes resolvedPHPCorePath ++ y) module
  = Returned (Resolved (x ++ codes "/path/to/phpcore" ++
        normalisePHPCore resolvedPHPCorePath y)).
Proof.
  intros Hmd Hne Hcalm Hfirst. unfold normaliseStack. rewrite Hmd. f_equal.
  unfold normaliseWith.
  rewrite (no_frames mochaPath) by done.
  rewrite replaceWith_gaps, steps_calm by done.
  unfold normalisePHPCore, str, phpCoreTemplate.
  rewrite replace_lit_first; [done| |done].
  destruct resolvedPHPCorePath; [done|discriminate].
Qed.

End Mapping.
(** The theorems, at the sample inputs. *)

Lemma X10_witness :
  placed [MoreSamples.first_frame; MoreSamples.second_frame] Samples.lf /\
  quiet Samples.mocha_path Samples.phpcore_path
    (mapped_of MoreSamples.php_map 2 (mkModuleData unit tt (Some "/my/script.php"))
       [MoreSamples.first_frame; MoreSamples.second_frame] Samples.lf) = true /\
  normaliseStack MoreSamples.php_map Samples.mocha_path Samples.phpcore_path 2
    Samples.registry
    (stack_of [MoreSamples.first_frame; MoreSamples.second_frame] Samples.lf) 5
  = Returned (Resolved (mapped_of MoreSamples.php_map 2
          (mkModuleData unit tt (Some "/my/script.php"))
          [MoreSamples.first_frame; MoreSamples.second_frame] Samples.lf)).
Proof.
  assert (placed [MoreSamples.first_frame; MoreSamples.second_frame] Samples.lf)
    as Hplaced.
  { repeat split; try reflexivity; try discriminate; repeat constructor. }
  split; [exact Hplaced|]. split; [reflexivity|].
  apply (X10_transpiled_frames_are_mapped MoreSamples.php_map Samples.mocha_path
           Samples.phpcore_path 2 Samples.registry
           [MoreSamples.first_frame; MoreSamples.second_frame] Samples.lf 5
           (mkModuleData unit tt (Some "/my/script.php")));
    [reflexivity|exact Hplaced| |reflexivity].
  apply Forall_cons. split; [left; discriminate|].
  apply Forall_cons. split; [left; discriminate|]. constructor.
Defined.

Lemma X11_witness :
  calm Samples.mocha_path
    (MoreSamples.phpcore_pre ++
     codes Samples.phpcore_path ++ MoreSamples.phpcore_post)
  = true /\
  normaliseStack Samples.no_position Samples.mocha_path Samples.phpcore_path 2
    Samples.registry
    (MoreSamples.phpcore_pre ++
        codes Samples.phpcore_path ++
        MoreSamples.phpcore_post) 5
  = Returned (Resolved (MoreSamples.phpcore_pre ++
        codes "/path/to/phpcore" ++
        normalisePHPCore Samples.phpcore_path MoreSamples.phpcore_post)).
Proof.
  split; [reflexivity|].
  apply (X11_phpcore_path_is_replaced Samples.no_position Samples.mocha_path
           Samples.phpcore_path 2 Samples.registry
           MoreSamples.phpcore_pre MoreSamples.phpcore_post 5
           (mkModuleData unit tt (Some "/my/script.php")));
    [reflexivity|discriminate|reflexivity|reflexivity].
Defined.

End MappingFacts.

(** ** Frames of Node.js (lines 310 to 313) *)

Module InternalFacts.
Import Regex StackText Normaliser Collapse Frames RegexFacts RunFacts LineFacts
  MochaFacts InertFacts NormaliserFacts DeadFacts ScanFacts QuietFacts.

Implicit Types (r : Re) (x y z : MState) (s l P t bs tail : list char) (b : bool)
  (c : gmap nat (list char)).
#[local] Arguments unlines : simpl never.

(** *** A pattern that holds to the start of a line and stays within it *)

Section LinePattern.
Variable r0 : Re.
Variable tpl : list TplItem.
Hypothesis r0_local : line_local r0.

#[local] Abbreviation lp := (Seq Bol r0).

Lemma exec_off_start s : exec lp false s = None.
Proof using Type. reflexivity. Qed.

Lemma pieces_off_start s : plain s ->
  forall k, flat_map (render tpl) (pieces lp k false s) = drop k s.
Proof using Type.
  induction 1 as [|a s Ha Hs IH]; intros k.
  - destruct k; reflexivity.
  - destruct k as [|k].
    + cbn [pieces]. rewrite exec_off_start, Ha. cbn [flat_map render app].
      by rewrite IH.
    + cbn [pieces drop]. rewrite Ha. apply IH.
Qed.

Lemma replaceAt_line_start l :
  plain l ->
  replaceAt lp tpl true l
  = match exec lp true l with
    | None => l
    | Some h => expand tpl h ++ drop (length (matched h)) l
    end.
Proof using Type.
  intros Hl. unfold replaceAt. destruct l as [|a l].
  - cbn [pieces]. destruct (exec lp true []); cbn [flat_map render]; [|done].
    by rewrite drop_nil.
  - apply Forall_cons in Hl as [Ha Hl]. cbn [pieces]. rewrite Ha.
    destruct (exec lp true (a :: l)) as [h|].
    + cbn [flat_map render]. f_equal.
      destruct (length (matched h)) as [|k].
      * cbn [flat_map render app drop]. f_equal. by rewrite pieces_off_start.
      * by rewrite pieces_off_start.
    + cbn [flat_map render app]. f_equal. by rewrite pieces_off_start.
Qed.

Lemma groups_plain r b l h :
  plain l -> exec r b l = Some h ->
  caps_all (fun a => is_line_terminator a = false) (groups h).
Proof using Type.
  intros Hl. unfold exec. destruct (m r (mkState b l ∅)) as [|y ys] eqn:E; [done|].
  intros [= <-]. simpl.
  assert (y ∈ m r (mkState b l ∅)) as Hy by (rewrite E; apply list_elem_of_here).
  apply (m_leads (fun a => is_line_terminator a = false)) in Hy as [_ Hy].
  apply Hy. split; [done|]. apply map_Forall_empty.
Qed.

Lemma expand_plain h :
  Forall (fun it => match it with
                    | TLit t => plain (codes t)
                    | TGroup _ => True
                    end) tpl ->
  caps_all (fun a => is_line_terminator a = false) (groups h) ->
  plain (expand tpl h).
Proof using Type.
  intros Htpl Hc. unfold expand. induction Htpl as [|it its Hit _ IH]; [constructor|].
  cbn [map concat]. apply Forall_app. split; [|exact IH].
  destruct it as [t|n]; [done|]. by apply group_plain.
Qed.

End LinePattern.

(** *** Line 311 *)

Lemma internalFrame_alternatives :
  internalFrame = Seq Bol (Seq (Alt bare_file node_internal) place).
Proof. reflexivity. Qed.

Lemma m_internalFrame_dirs x :
  no_bare_file (rest x) = true -> m internalFrame x = m internalFrame_dirs x.
Proof.
  intros Hx. rewrite internalFrame_alternatives. unfold internalFrame_dirs.
  rewrite !(m_Seq Bol). change (m Bol x) with (if bol x then [x] else []).
  destruct (bol x); [|done].
  cbn [flat_map]. rewrite !app_nil_r, !(m_Seq _ place), m_Alt.
  by rewrite (dead_bare_file x Hx).
Qed.

Lemma exec_internalFrame_dirs b s :
  no_bare_file s = true -> exec internalFrame b s = exec internalFrame_dirs b s.
Proof. intros Hs. unfold exec. by rewrite m_internalFrame_dirs. Qed.

Lemma pieces_internalFrame_dirs s : forall k b,
  no_bare_file s = true ->
  pieces internalFrame k b s = pieces internalFrame_dirs k b s.
Proof.
  induction s as [|a s IH]; intros k b Hs.
  - destruct k; cbn [pieces]; [|done]. by rewrite exec_internalFrame_dirs.
  - pose proof (hereditary_no_bare_file a s Hs) as Hs'.
    destruct k as [|k]; cbn [pieces]; [|by apply IH].
    rewrite exec_internalFrame_dirs by done.
    destruct (exec internalFrame_dirs b (a :: s)) as [h|]; [|by rewrite IH].
    f_equal. destruct (length (matched h)); [f_equal|]; by apply IH.
Qed.

Lemma line_local_opt r : line_local r -> line_local (opt r).
Proof. by split. Qed.

Lemma line_local_str (t : string) :
  plain (codes t) -> line_local (str t).
Proof. apply line_local_lit. Qed.

Lemma line_local_node_internal_place : line_local (Seq node_internal place).
Proof.
  unfold node_internal, place. cbn [line_local opt].
  repeat split; try apply line_local_digit; try apply line_local_dot;
    try (by apply line_local_chr);
    try (apply line_local_str; by repeat constructor).
Qed.

Lemma line_local_internalFrame_dirs : line_local internalFrame_dirs.
Proof. split; [done|apply line_local_node_internal_place]. Qed.

Lemma min_len_internalFrame_dirs : 0 < min_len internalFrame_dirs.
Proof.
  unfold internalFrame_dirs, node_internal, place. cbn [min_len].
  unfold chr. cbn [min_len]. lia.
Qed.

Lemma internal_template_plain :
  Forall (fun it => match it with
                    | TLit t => plain (codes t)
                    | TGroup _ => True
                    end) internalFrameTemplate.
Proof. repeat constructor. Qed.

Lemma expand_internal h :
  exists u v, expand internalFrameTemplate h = u ++ internal_placeholder ++ v.
Proof.
  exists (default [] (groups h !! 1) ++ default [] (groups h !! 3)),
    (N_of_ascii "/" :: default [] (groups h !! 2) ++ default [] (groups h !! 4) ++
     codes ":??:??").
  unfold expand, internalFrameTemplate. cbn [map concat].
  rewrite app_nil_r, <- !app_assoc. reflexivity.
Qed.

Lemma rw_internal_plain l :
  plain l -> plain (replaceAt internalFrame_dirs internalFrameTemplate true l).
Proof.
  intros Hl. unfold internalFrame_dirs. rewrite replaceAt_line_start by done.
  destruct (exec _ true l) as [h|] eqn:E; [|done].
  apply Forall_app. split; [|by apply Forall_drop].
  apply expand_plain; [apply internal_template_plain|by eapply groups_plain].
Qed.

Lemma rw_internal_nonempty l :
  plain l -> l <> [] ->
  replaceAt internalFrame_dirs internalFrameTemplate true l <> [].
Proof.
  intros Hl Hne. unfold internalFrame_dirs. rewrite replaceAt_line_start by done.
  destruct (exec _ true l) as [h|] eqn:E; [|done].
  destruct (expand_internal h) as (u & v & ->). intros H.
  apply app_eq_nil in H as [H _]. apply app_eq_nil in H as [_ H].
  by apply app_eq_nil in H as [H _].
Qed.

Lemma rw_internal_has l :
  plain l -> exec internalFrame_dirs true l <> None ->
  contains internal_placeholder
    (replaceAt internalFrame_dirs internalFrameTemplate true l) = true.
Proof.
  intros Hl Hm. unfold internalFrame_dirs in *. rewrite replaceAt_line_start by done.
  destruct (exec _ true l) as [h|] eqn:E; [|done].
  destruct (expand_internal h) as (u & v & ->).
  rewrite <- !app_assoc. apply contains_app.
Qed.

Lemma rw_internal_same l :
  lacks "internal/" l = true ->
  replaceAt internalFrame_dirs internalFrameTemplate true l = l.
Proof.
  intros Hl. apply (replaceAt_dead (fun s => lacks "internal/" s = true));
    [apply hereditary_lacks| |done].
  unfold internalFrame_dirs, node_internal.
  apply dead_seq_r; [apply hereditary_lacks|]. apply dead_seq_l.
  do 2 (apply dead_seq_r; [apply hereditary_lacks|]).
  apply dead_seq_l, dead_str.
Qed.

Lemma lines_ok_rw_internal ls : forall first,
  lines_ok first ls -> lines_ok first (map rw_internal ls).
Proof.
  induction ls as [|[l bs] ls IH]; intros first Hok; [done|].
  destruct Hok as (Hl & Hbs & Hne & Hlast & Hok). simpl in Hl, Hbs, Hne, Hlast.
  cbn [map lines_ok rw_internal rewrite_line fst snd]. repeat split.
  - by apply rw_internal_plain.
  - done.
  - intros Hf. apply rw_internal_nonempty; auto.
  - intros Hm. apply Hlast. by destruct ls.
  - by apply IH.
Qed.

End InternalFacts.

Module InternalSteps.
Import Regex StackText Normaliser Collapse Frames RegexFacts RunFacts LineFacts
  MochaFacts InertFacts NormaliserFacts DeadFacts ScanFacts QuietFacts InternalFacts.

Implicit Types (r : Re) (s l P a k bs tail : list char) (b : bool) (t : string).
#[local] Arguments unlines : simpl never.

Lemma contains_app_l P a k : contains P a = true -> contains P (a ++ k) = true.
Proof.
  intros (u & v & ->)%contains_split. rewrite <- !app_assoc. apply contains_app.
Qed.

Lemma contains_app_r P a k : contains P k = true -> contains P (a ++ k) = true.
Proof.
  intros (u & v & ->)%contains_split. rewrite app_assoc. apply contains_app.
Qed.

Lemma lacks_app t a k :
  lacks t (a ++ k) = true -> lacks t a = true /\ lacks t k = true.
Proof.
  rewrite !lacks_spec. intros H. split.
  - destruct (contains _ a) eqn:E; [|done]. by rewrite contains_app_l in H.
  - destruct (contains _ k) eqn:E; [|done]. by rewrite contains_app_r in H.
Qed.

Lemma lacks_line t ls (ln : Line) :
  lacks t (unlines ls) = true -> ln ∈ ls -> lacks t (fst ln) = true.
Proof.
  induction ls as [|ln' ls IH]; intros H Hin; [by apply elem_of_nil in Hin|].
  rewrite unlines_cons in H. apply lacks_app in H as [H1 H].
  apply lacks_app in H as [_ H].
  apply elem_of_cons in Hin as [->|Hin]; [done|by apply IH].
Qed.

Lemma after_app_l P a k k' : after P a = Some k' -> after P (a ++ k) = Some (k' ++ k).
Proof. intros ->%after_Some. rewrite <- app_assoc. apply after_self. Qed.

Lemma reaches_js_app_l a k : reaches_js a = true -> reaches_js (a ++ k) = true.
Proof.
  induction a as [|c a IH]; [done|]. cbn [app reaches_js].
  destruct (N.eqb c "/"%char); [done|].
  destruct (after dot_js a) as [k'|] eqn:E.
  - by rewrite (after_app_l _ _ k k' E).
  - intros H. destruct (after dot_js (a ++ k)); [done|by apply IH].
Qed.

Lemma no_bare_file_app a k :
  no_bare_file (a ++ k) = true -> no_bare_file a = true /\ no_bare_file k = true.
Proof.
  induction a as [|c a IH]; [done|]. cbn [app no_bare_file].
  intros [H1 H2]%andb_prop. destruct (IH H2) as [Ha Hk]. split; [|done].
  rewrite Ha, andb_true_r. destruct (N.eqb c "("%char); [|done].
  apply negb_true_iff in H1. apply negb_true_iff.
  destruct (reaches_js a) eqn:E; [|done]. by rewrite reaches_js_app_l in H1.
Qed.

Lemma no_bare_file_line ls (ln : Line) :
  no_bare_file (unlines ls) = true -> ln ∈ ls -> no_bare_file (fst ln) = true.
Proof.
  induction ls as [|ln' ls IH]; intros H Hin; [by apply elem_of_nil in Hin|].
  rewrite unlines_cons in H. apply no_bare_file_app in H as [H1 H].
  apply no_bare_file_app in H as [_ H].
  apply elem_of_cons in Hin as [->|Hin]; [done|by apply IH].
Qed.

Lemma internal_placeholder_plain : plain internal_placeholder.
Proof. repeat constructor. Qed.

Lemma internal_placeholder_nonempty : internal_placeholder <> [].
Proof. discriminate. Qed.

(** Lines 310 to 313, on lines. *)
Lemma normaliseInternal_lines ls first :
  lines_ok first ls -> no_bare_file (unlines ls) = true ->
  normaliseInternal (unlines ls)
  = group_lines internal_placeholder internal_marker (map rw_internal ls).
Proof.
  intros Hok Hs. unfold normaliseInternal, replace.
  assert (replaceAt internalFrame internalFrameTemplate true (unlines ls)
          = unlines (map rw_internal ls)) as ->.
  { unfold replaceAt at 1. rewrite pieces_internalFrame_dirs by done.
    apply (replace_lines _ _ line_local_internalFrame_dirs
             min_len_internalFrame_dirs ls first Hok). }
  unfold internalRun, internalRunTemplate. rewrite frameRun_rounds.
  eapply (replace_rounds internal_placeholder internal_placeholder_plain
            internal_placeholder_nonempty _ _ _ first true);
    [apply le_n|by apply lines_ok_rw_internal].
Qed.

Lemma group_lines_none P marker ls :
  Forall (fun ln => has P ln = false) ls -> group_lines P marker ls = unlines ls.
Proof.
  induction 1 as [|ln ls Hln _ IH]; [done|].
  cbn [group_lines]. by rewrite Hln, IH, unlines_cons.
Qed.

Lemma map_same {A} (g : A -> A) (xs : list A) :
  (forall x, x ∈ xs -> g x = x) -> map g xs = xs.
Proof.
  induction xs as [|x xs IH]; intros H; [done|]. cbn [map].
  rewrite H by apply list_elem_of_here. f_equal. apply IH.
  intros y Hy. apply H. by apply list_elem_of_further.
Qed.

Lemma rw_internal_calm_lines ls :
  lacks "internal/" (unlines ls) = true ->
  lacks "/path/to/internal" (unlines ls) = true ->
  map rw_internal ls = ls /\
  Forall (fun ln => has internal_placeholder ln = false) ls.
Proof.
  intros H1 H2. split.
  - apply map_same. intros [l bs] Hin.
    unfold rw_internal, rewrite_line. cbn [fst snd]. f_equal.
    apply rw_internal_same. by apply (lacks_line _ ls (l, bs)).
  - apply Forall_forall. intros ln Hin. unfold has.
    apply lacks_spec. by apply (lacks_line _ ls).
Qed.

Section Steps.
Context {MapData : Type}.
Variable originalPositionFor : MapData -> Z -> Z -> Position.
Variable mochaPath resolvedPHPCorePath : string.
Variable errorStackLineOffset : Z.
Variable moduleDataMap : gmap nat (ModuleData MapData).

(** X18: in a stack whose lines carriage returns and line feeds end and
    that holds neither the opening of a transpiled frame, nor the path of
    Mocha or its placeholder, nor an opening parenthesis followed by a file
    named without a directory (so that line 311 matches by its [internal/]
    alternative only): a run of one or more lines that line 311 matches,
    between texts that hold neither [internal/] nor its placeholder, comes
    out as the one line [    at [Node.js internals]] followed by the line
    breaks of its last frame, however many frames there are and whatever
    they say, and the texts around it stay as they are, provided the
    outcome does not hold the path of PHPCore. *)
Theorem X18_internal_run_collapses_to_one_marker
    (X G0 Y : list Line) (f bs : list char) (module : nat)
    (moduleData : ModuleData MapData) :
  moduleDataMap !! module = Some moduleData ->
  lines_ok true (X ++ (G0 ++ [(f, bs)]) ++ Y) ->
  settled mochaPath (unlines (X ++ (G0 ++ [(f, bs)]) ++ Y)) = true ->
  Forall (fun ln => is_internal_line (fst ln) = true) (G0 ++ [(f, bs)]) ->
  calm mochaPath (unlines X) = true ->
  calm mochaPath (unlines Y) = true ->
  lacks resolvedPHPCorePath (unlines X ++ internal_marker ++ bs ++ unlines Y)
  = true ->
  normaliseStack originalPositionFor mochaPath resolvedPHPCorePath
    errorStackLineOffset moduleDataMap
    (unlines (X ++ (G0 ++ [(f, bs)]) ++ Y)) module
  = Returned (Resolved (unlines X ++ internal_marker ++ bs ++ unlines Y)).
Proof.
  intros Hmd Hok Hset HG HX HY Hcore.
  apply settled_spec in Hset as (He & Hm1 & Hm2 & Hnb).
  apply calm_spec in HX as (_ & _ & _ & HX1 & HX2 & _).
  apply calm_spec in HY as (_ & _ & _ & HY1 & HY2 & _).
  unfold normaliseStack. rewrite Hmd. f_equal. unfold normaliseWith.
  rewrite (pieces_dead (fun s => lacks "(eval at transpile (" s = true));
    [|apply hereditary_lacks|apply dead_evalFrame|done].
  rewrite replaceWith_gaps, normaliseMocha_calm by done.
  rewrite (normaliseInternal_lines _ true Hok Hnb).
  destruct (rw_internal_calm_lines X HX1 HX2) as [EX NX].
  destruct (rw_internal_calm_lines Y HY1 HY2) as [EY NY].
  rewrite !map_app, EX, EY. cbn [map].
  assert (group_lines internal_placeholder internal_marker
            (X ++ (map rw_internal G0 ++ [rw_internal (f, bs)]) ++ Y)
          = unlines X ++ internal_marker ++ bs ++ unlines Y) as ->.
  { rewrite group_lines_app.
    - rewrite (group_lines_none _ _ X NX). f_equal.
      rewrite <- app_assoc. cbn [app].
      change bs with (snd (rw_internal (f, bs))) at 2.
      rewrite group_lines_frames.
      + by rewrite (group_lines_none _ _ Y NY).
      + change [rw_internal (f, bs)] with (map rw_internal [(f, bs)]).
        rewrite <- map_app. apply Forall_fmap, Forall_forall. intros ln Hin.
        rewrite Forall_forall in HG. specialize (HG ln Hin).
        assert (ln ∈ X ++ (G0 ++ [(f, bs)]) ++ Y) as Hin'.
        { apply elem_of_app. right. apply elem_of_app. by left. }
        unfold has, rw_internal, rewrite_line. cbn [fst].
        apply rw_internal_has; [by eapply lines_ok_plain|].
        rewrite <- exec_internalFrame_dirs by (by eapply no_bare_file_line).
        unfold is_internal_line in HG. by destruct (exec internalFrame true (fst ln)).
      + destruct Y as [|ln Y]; [done|]. cbn [starts_run].
        by apply Forall_cons in NY as [? _].
    - destruct (last X) as [ln|] eqn:E; [|done].
      rewrite Forall_forall in NX. apply NX. by eapply last_Some_elem_of. }
  by rewrite normalisePHPCore_lacks.
Qed.

End Steps.
(** The theorems, at the sample inputs. *)

Lemma X18_witness :
  settled Samples.mocha_path
    (unlines (Samples.head_lines ++
              (MoreSamples.node_lines ++
               [(MoreSamples.last_node_line, Samples.lf)]) ++
              MoreSamples.user_lines)) = true /\
  Forall (fun ln => is_internal_line (fst ln) = true)
    (MoreSamples.node_lines ++ [(MoreSamples.last_node_line, Samples.lf)]) /\
  normaliseStack Samples.no_position Samples.mocha_path Samples.phpcore_path 2
    Samples.registry
    (unlines (Samples.head_lines ++
                 (MoreSamples.node_lines ++
                  [(MoreSamples.last_node_line, Samples.lf)]) ++
                 MoreSamples.user_lines))
    5
  = Returned (Resolved (unlines Samples.head_lines ++ internal_marker ++ Samples.lf ++
        unlines MoreSamples.user_lines)).
Proof.
  split; [reflexivity|]. split; [repeat constructor|].
  apply (X18_internal_run_collapses_to_one_marker Samples.no_position
           Samples.mocha_path Samples.phpcore_path 2 Samples.registry
           Samples.head_lines MoreSamples.node_lines MoreSamples.user_lines
           MoreSamples.last_node_line Samples.lf 5
           (mkModuleData unit tt (Some "/my/script.php")));
    try reflexivity.
  - repeat split; try (repeat constructor); discriminate.
  - repeat constructor.
Defined.

End InternalSteps.

(** ** The line offset of evaluated code *)

Module LineOffsetFacts.
Import Regex StackText Normaliser Collapse Frames LineOffset RegexFacts RunFacts
  LineFacts DeadFacts ScanFacts HeadFacts MappingFacts.

Implicit Types (r : Re) (s l P t tail : list char) (b : bool).

Lemma match_gaps r t : forall b s,
  (forall b' i, i < length t -> exec r b' (drop i t ++ s) = None) ->
  match_ r b (t ++ s) = match_ r (bol_after b t) s.
Proof.
  induction t as [|a t IH]; intros b s H; [done|].
  pose proof (H b 0 ltac:(simpl; lia)) as H0. cbn [drop app] in H0.
  cbn [app match_]. rewrite H0, bol_after_cons. apply IH.
  intros b' i Hi. apply (H b' (S i)). simpl. lia.
Qed.

Lemma match_dead Q r : hereditary Q -> dead Q r ->
  forall s b, Q s -> match_ r b s = None.
Proof.
  intros HQ Hd. induction s as [|a s IH]; intros b Hs; cbn [match_];
    rewrite (exec_dead Q) by done; [done|].
  apply IH. by eapply HQ.
Qed.

Lemma exec_anonymousPlace b L C tail :
  digits L -> digits C -> stops is_digit tail ->
  exec anonymousPlace b (anonymous_colon ++ L ++ N_of_ascii ":" :: C ++ tail)
  = Some (mkHit (anonymous_colon ++ L ++ N_of_ascii ":" :: C) (<[1 := L]> ∅)).
Proof.
  intros [N1 D1] [N2 D2] Htail.
  assert (exists bf,
            head (m anonymousPlace
                    (mkState b (anonymous_colon ++ L ++ N_of_ascii ":" :: C ++ tail) ∅))
            = Some (mkState bf tail (<[1 := L]> ∅))) as [bf H].
  { eexists. unfold anonymousPlace.
    change (str "<anonymous>:") with (lit anonymous_colon).
    eapply head_seq; [apply head_lit|].
    eapply head_seq; [by apply (head_group_plus 1 is_digit)|].
    eapply head_seq; [apply head_chr|].
    by apply (head_plus_cls is_digit). }
  rewrite (exec_head _ _ _ _ H). cbn [rest caps]. do 2 f_equal.
  replace (anonymous_colon ++ L ++ N_of_ascii ":" :: C ++ tail)
    with ((anonymous_colon ++ L ++ N_of_ascii ":" :: C) ++ tail)
    by (by repeat (rewrite <- app_assoc || rewrite <- app_comm_cons)).
  apply taken.
Qed.

(** X12: the stack in which [<anonymous>:] occurs first after the text
    [pre], followed by the digits [L], a colon and the digits [C], gives the
    number [L] less one as the line offset. *)
Theorem X12_line_offset_is_first_anonymous_line_less_one
    (pre L C tail : list char) :
  digits L -> digits C -> stops is_digit tail ->
  first_index anonymous_colon (pre ++ anonymous_colon ++ L ++ N_of_ascii ":" :: C ++ tail)
  = Some (length pre) ->
  errorStackLineOffsetOf (pre ++ anonymous_colon ++ L ++ N_of_ascii ":" :: C ++ tail)
  = Some (number_of_digits L - 1)%Z.
Proof.
  intros HL HC Htail Hfirst. unfold errorStackLineOffsetOf.
  rewrite match_gaps.
  - destruct (anonymous_colon ++ L ++ N_of_ascii ":" :: C ++ tail) as [|a k] eqn:E; [done|].
    cbn [match_]. rewrite <- E. rewrite exec_anonymousPlace by done.
    cbn [groups]. by rewrite lookup_insert_eq.
  - intros b' i Hi. unfold anonymousPlace.
    change (str "<anonymous>:") with (lit anonymous_colon).
    apply exec_seq_lit_none. by apply (first_index_here anonymous_colon pre).
Qed.

(** X13: a stack in which [<anonymous>:] does not occur gives no offset: the
    match is [null] and reading its group throws. *)
Theorem X13_no_anonymous_place_gives_no_offset (stack : list char) :
  contains anonymous_colon stack = false ->
  errorStackLineOffsetOf stack = None.
Proof.
  intros H. unfold errorStackLineOffsetOf.
  rewrite (match_dead (fun s => contains anonymous_colon s = false)); [done| | |done].
  - apply hereditary_contains.
  - unfold anonymousPlace. apply dead_seq_l.
    change (str "<anonymous>:") with (lit anonymous_colon). apply dead_lit.
Qed.

(** The theorems, at the sample inputs. *)

Lemma X12_witness :
  first_index anonymous_colon
    (MoreSamples.measured_pre ++ anonymous_colon ++ Samples.la "3" ++
     N_of_ascii ":" :: Samples.la "8" ++ MoreSamples.measured_post)
  = Some (length MoreSamples.measured_pre) /\
  errorStackLineOffsetOf
    (MoreSamples.measured_pre ++ anonymous_colon ++ Samples.la "3" ++
     N_of_ascii ":" :: Samples.la "8" ++ MoreSamples.measured_post)
  = Some 2%Z.
Proof.
  split; [reflexivity|].
  apply (X12_line_offset_is_first_anonymous_line_less_one
           MoreSamples.measured_pre (Samples.la "3") (Samples.la "8")
           MoreSamples.measured_post);
    try reflexivity; try (split; [discriminate|repeat constructor]).
Defined.

Lemma X13_witness :
  contains anonymous_colon (Samples.la "Error: boom") = false /\
  errorStackLineOffsetOf (Samples.la "Error: boom") = None.
Proof.
  split; [reflexivity|].
  apply (X13_no_anonymous_place_gives_no_offset (Samples.la "Error: boom")).
  reflexivity.
Defined.

End LineOffsetFacts.

(** ** [transpile] and the registry *)

Module TranspileFacts.
Import Normaliser Tools Transpile.

Section TranspileFacts.
Context {Ast Result Body Exn MapData Transpiler : Type}.
Variable phpParser_parse : Bag -> option string -> string -> Answer Exn Ast.
Variable phpToJS_transpile :
  Ast -> Bag -> option Transpiler -> Answer Exn Result.
Variable code_of : Result -> Body.
Variable body_of : Result -> Body.
Variable map_of : Result -> MapData.
Variable evaluate : Body -> Runtime -> Answer Exn nat.
Variable module_using : nat -> string -> Answer Exn nat.

Variable originalPositionFor : MapData -> Z -> Z -> Position.
Variable mochaPath resolvedPHPCorePath : string.
Variable errorStackLineOffset : Z.

Implicit Types (moduleDataMap : gmap nat (ModuleData MapData))
  (path : option string) (php : string) (phpCore : Runtime)
  (options : option (Options Transpiler)) (module : nat).

(** What [transpile] can do to the registry. *)
Lemma transpile_registry moduleDataMap path php phpCore options :
  match transpile phpParser_parse phpToJS_transpile code_of body_of map_of
    evaluate module_using moduleDataMap path php phpCore options with
  | (Raised _, after) => after = moduleDataMap
  | (Gave module, after) =>
      if sourceMap (default noOptions options)
      then exists transpiledResult,
             after = <[module := mkModuleData MapData (map_of transpiledResult)
                                   (path_or_null path)]> moduleDataMap
      else after = moduleDataMap
  end.
Proof.
  unfold transpile.
  destruct (phpParser_parse _ _ _) as [ast|e]; [|done].
  destruct (phpToJS_transpile _ _ _) as [transpiledResult|e]; [|done].
  destruct (evaluate _ _) as [module|e]; [|done].
  destruct (match path_or_null path with
            | Some p => module_using module p
            | None => Gave module
            end) as [module'|e]; [|done].
  destruct (sourceMap _); [by eexists|done].
Qed.

(** X14: a module that [transpile] answers with, when [options.sourceMap]
    is set, is registered under its own identity with the path given (no
    path, when the path was empty); [normaliseStack] for it throws no
    configuration error, whatever the stack, and goes on to the steps of
    the callback with the data registered. *)
Theorem X14_transpiled_with_source_map_is_registered
    moduleDataMap path php phpCore (o : Options Transpiler) module after :
  sourceMap o = true ->
  transpile phpParser_parse phpToJS_transpile code_of body_of map_of
    evaluate module_using moduleDataMap path php phpCore (Some o) = (Gave module, after) ->
  exists moduleData,
    after !! module = Some moduleData /\
    Normaliser.path moduleData = path_or_null path /\
    forall stack,
      normaliseStack originalPositionFor mochaPath resolvedPHPCorePath
        errorStackLineOffset after stack module
      = Returned (normaliseWith originalPositionFor mochaPath resolvedPHPCorePath
                    errorStackLineOffset moduleData stack).
Proof.
  intros Hsm Ht.
  pose proof (transpile_registry moduleDataMap path php phpCore (Some o)) as H.
  rewrite Ht in H. cbn [default from_option id] in H. rewrite Hsm in H.
  destruct H as [transpiledResult ->]. eexists. split; [apply lookup_insert_eq|].
  split; [done|]. intros stack. unfold normaliseStack.
  by rewrite lookup_insert_eq.
Qed.

(** X15: with [options] left out or [options.sourceMap] not set, [transpile]
    leaves the registry as it was; so for a module it answers with that was
    not registered before, [normaliseStack] throws the configuration error. *)
Theorem X15_transpiled_without_source_map_is_not_registered
    moduleDataMap path php phpCore options module after (stack : list Regex.char) :
  sourceMap (default noOptions options) = false ->
  transpile phpParser_parse phpToJS_transpile code_of body_of map_of
    evaluate module_using moduleDataMap path php phpCore options = (Gave module, after) ->
  moduleDataMap !! module = None ->
  after = moduleDataMap /\
  normaliseStack originalPositionFor mochaPath resolvedPHPCorePath
        errorStackLineOffset after stack module = Threw (Error configErrorMessage).
Proof.
  intros Hsm Ht Hfresh.
  pose proof (transpile_registry moduleDataMap path php phpCore options) as H.
  rewrite Ht, Hsm in H. subst after. split; [done|].
  unfold normaliseStack. by rewrite Hfresh.
Qed.

(** X16: [transpile] never takes a module out of the registry: whatever it
    is called with and whether it answers or throws, [normaliseStack] finds
    afterwards every module it found before; when [transpile] throws, and
    for every module other than the one it answers with, it finds the very
    same data. *)
Theorem X16_transpile_never_unregisters
    moduleDataMap path php phpCore options (known : nat) :
  let out := transpile phpParser_parse phpToJS_transpile code_of body_of map_of
    evaluate module_using moduleDataMap path php phpCore options in
  (is_Some (moduleDataMap !! known) -> is_Some (snd out !! known)) /\
  (fst out <> Gave known -> snd out !! known = moduleDataMap !! known).
Proof.
  pose proof (transpile_registry moduleDataMap path php phpCore options) as H.
  destruct (transpile phpParser_parse phpToJS_transpile code_of body_of map_of
    evaluate module_using moduleDataMap path php phpCore options) as [[module|e] after];
    cbn [fst snd].
  - destruct (sourceMap _).
    + destruct H as [transpiledResult ->]. split.
      * intros Hk. destruct (decide (module = known)) as [->|Hne].
        -- rewrite lookup_insert_eq. by eexists.
        -- by rewrite lookup_insert_ne.
      * intros Hne. rewrite lookup_insert_ne; [done|congruence].
    + by subst after.
  - by subst after.
Qed.

(** X17: the options the parser and the transpiler are called with: what the
    caller put in [options.phpToAST] and [options.phpToJS] is handed on as
    it is and takes precedence; keys the caller left out have the values
    of this library: [captureAllBounds], [lineNumbers], the path, the
    prefix [return ], and a request for a source map of the PHP source
    exactly when [options.sourceMap] is set. *)
Theorem X17_caller_options_take_precedence path php (o : Options Transpiler) :
  (forall k v, phpToAST o !! k = Some v -> parserOptions o !! k = Some v) /\
  (phpToAST o !! "captureAllBounds" = None ->
   parserOptions o !! "captureAllBounds" = Some OTrue) /\
  (forall k v, phpToJS o !! k = Some v -> phpToJSOptions path php o !! k = Some v) /\
  (forall k, phpToJS o !! k = None ->
     phpToJSOptions path php o !! k
     = if String.eqb k "lineNumbers" then Some OTrue
       else if String.eqb k "path" then Some (OPath path)
       else if String.eqb k "prefix" then Some (OString "return ")
       else if String.eqb k "sourceMap"
            then if sourceMap o then Some (OSourceMap php true) else None
       else None).
Proof.
  unfold parserOptions, phpToJSOptions, extend. repeat split.
  - intros k v H. by apply lookup_union_Some_l.
  - intros H. rewrite lookup_union_r by done. by rewrite lookup_singleton_eq.
  - intros k v H. by apply lookup_union_Some_l.
  - intros k H. rewrite lookup_union_r by done.
    destruct (sourceMap o).
    + destruct (String.eqb_spec k "lineNumbers") as [->|N1]; [done|].
      destruct (String.eqb_spec k "path") as [->|N2]; [done|].
      destruct (String.eqb_spec k "prefix") as [->|N3]; [done|].
      destruct (String.eqb_spec k "sourceMap") as [->|N4]; [done|].
      rewrite lookup_union_r by (by rewrite lookup_singleton_ne).
      by rewrite !lookup_insert_ne, lookup_singleton_ne.
    + destruct (String.eqb_spec k "lineNumbers") as [->|N1]; [done|].
      destruct (String.eqb_spec k "path") as [->|N2]; [done|].
      destruct (String.eqb_spec k "prefix") as [->|N3]; [done|].
      destruct (String.eqb_spec k "sourceMap") as [->|N4]; [done|].
      by rewrite !lookup_insert_ne, lookup_singleton_ne.
Qed.

End TranspileFacts.
(** The theorems, at the sample inputs. *)

Lemma X14_witness :
  sourceMap MoreSamples.with_source_map = true /\
  transpile MoreSamples.stub_parse MoreSamples.stub_phpToJS id id (fun _ => tt)
    MoreSamples.stub_evaluate MoreSamples.stub_using ∅ (Some "/my/script.php")
    "<?php return 21;" 0 (Some MoreSamples.with_source_map)
  = (Gave 8, {[ 8 := mkModuleData unit tt (Some "/my/script.php") ]}) /\
  exists moduleData,
    ({[ 8 := mkModuleData unit tt (Some "/my/script.php") ]}
       : gmap nat (ModuleData unit)) !! 8 = Some moduleData /\
    Normaliser.path moduleData = Some "/my/script.php" /\
    forall stack,
      normaliseStack MoreSamples.php_map Samples.mocha_path Samples.phpcore_path 2
        {[ 8 := mkModuleData unit tt (Some "/my/script.php") ]} stack 8
      = Returned (normaliseWith MoreSamples.php_map Samples.mocha_path
                    Samples.phpcore_path 2 moduleData stack).
Proof.
  split; [reflexivity|]. split; [reflexivity|].
  apply (X14_transpiled_with_source_map_is_registered
           MoreSamples.stub_parse MoreSamples.stub_phpToJS id id (fun _ => tt)
           MoreSamples.stub_evaluate MoreSamples.stub_using
           MoreSamples.php_map Samples.mocha_path Samples.phpcore_path 2
           ∅ (Some "/my/script.php") "<?php return 21;" 0
           MoreSamples.with_source_map 8
           {[ 8 := mkModuleData unit tt (Some "/my/script.php") ]});
    reflexivity.
Defined.

Lemma X15_witness :
  transpile MoreSamples.stub_parse MoreSamples.stub_phpToJS id id (fun _ => tt)
    MoreSamples.stub_evaluate MoreSamples.stub_using Samples.registry (Some EmptyString)
    "<?php return 21;" 0 None
  = (Gave 7, Samples.registry) /\
  Samples.registry !! 7 = None /\
  normaliseStack MoreSamples.php_map Samples.mocha_path Samples.phpcore_path 2
    Samples.registry Samples.transpiled_stack 7
  = Threw (Error configErrorMessage).
Proof.
  split; [reflexivity|]. split; [reflexivity|].
  apply (X15_transpiled_without_source_map_is_not_registered
           MoreSamples.stub_parse MoreSamples.stub_phpToJS id id (fun _ => tt)
           MoreSamples.stub_evaluate MoreSamples.stub_using
           MoreSamples.php_map Samples.mocha_path Samples.phpcore_path 2
           Samples.registry (Some EmptyString) "<?php return 21;" 0 None 7
           Samples.registry Samples.transpiled_stack);
    reflexivity.
Defined.

End TranspileFacts.
